(** * Crawl orchestration core of the bama crawler: a shallow embedding

    The development follows the Python packages one module at a time:

    - [DB]          : [bama_crawler/db.py], the SQLite frontier and seen tables;
    - [Time]        : the wall clock behind [time.time()] and [time.sleep];
    - [RateLimiter] : [bama_crawler/utils.py], the per-key minimum-interval gate;
    - [Robots]      : [bama_crawler/robots.py] over [urllib.robotparser];
    - [Str]         : the [str] methods the fetcher and the parser call;
    - [Fetcher]     : [bama_crawler/fetcher.py], retries and Retry-After;
    - [Storage]     : [bama_crawler/storage.py], the append-only sinks;
    - [Parser]      : [bama_crawler/parser.py], content type and domain tests;
    - [Crawler]     : [bama_crawler/frontier.py], the fetch-and-process task
                      and the adaptive concurrency controller;
    - [OkLock]      : the guarded increment of [pages_ok] under [_ok_lock],
                      as an interleaving of worker threads.

    Conventions.  A Python [str] is a [string]; one character of it stands for
    one code point (below 256), and [len] is [String.length].  Python [int]s
    are [Z].  Wall-clock readings and durations ([time.time()], [time.sleep])
    are rationals [Q] in seconds: float rounding is abstracted away, the
    arithmetic is the one the source writes.  [None] is [None]. *)

From Stdlib Require Import ZArith QArith Qround Lqa String Ascii Lia.
From stdpp Require Import base option list sorting gmap strings pretty.

Local Open Scope string_scope.
Local Open Scope list_scope.
Local Open Scope Z_scope.

(** ** Python truthiness, shared by all modules *)

(** [if s:] on a [str]/[bytes] value. *)
Definition truthy_str (s : string) : bool :=
  match s with EmptyString => false | String _ _ => true end.

(** [if o:] on an [Optional[str]]. *)
Definition truthy_ostr (o : option string) : bool :=
  match o with None => false | Some s => truthy_str s end.

(** [if n:] on an [Optional[int]]. *)
Definition truthy_oint (o : option Z) : bool :=
  match o with None => false | Some n => negb (n =? 0) end.

Lemma truthy_str_false (s : string) : truthy_str s = false ↔ s = "".
Proof. destruct s; simpl; split; congruence. Qed.

Lemma truthy_str_true (s : string) : truthy_str s = true ↔ s ≠ "".
Proof. destruct s; simpl; split; congruence. Qed.

(** * db.py : the frontier store *)
Module DB.

(** One row of [frontier(url TEXT PRIMARY KEY, priority INTEGER NOT NULL,
    depth INTEGER NOT NULL, parent_url TEXT)]. *)
Record Row : Type := mkRow {
  url : string;
  priority : Z;
  depth : Z;
  parent_url : option string
}.

(** [priority] and [depth] are Python ints that fit an SQLite INTEGER; the
    crawler only ever stores link depths in them. *)

(** The two tables.  [frontier] lists the rows in rowid (insertion) order:
    SQLite gives every inserted row a rowid above those present, so a row
    stands after all rows that were in the table when it was inserted.
    [seen(url TEXT PRIMARY KEY)] is only ever asked for membership. *)
Record t : Type := mkDB {
  frontier : list Row;
  seen : gset string
}.

(** The tables right after [executescript(SCHEMA)] on a new file. *)
Definition init : t := mkDB [] ∅.

Definition urls (f : list Row) : list string := map url f.

Definition has_url (u : string) (f : list Row) : bool :=
  bool_decide (u ∈ urls f).

(** [INSERT OR IGNORE INTO frontier ... VALUES (?,?,?,?)]: the new table and
    the cursor's [rowcount].  A row whose [url] is already a key is ignored. *)
Definition insert_or_ignore (r : Row) (f : list Row) : list Row * Z :=
  if has_url (url r) f then (f, 0) else (f ++ [r], 1).

(** [DB.push_url]. *)
Definition push_url (u : string) (prio dep : Z) (parent : option string)
    (db : t) : bool * t :=
  if negb (truthy_str u) || (2048 <? String.length u)%nat then (false, db)
  else
    let '(f, rowcount) := insert_or_ignore (mkRow u prio dep parent) (frontier db) in
    (rowcount =? 1, mkDB f (seen db)).

(** [ORDER BY priority ASC]: rows of equal priority keep the store order
    (the scan of [idx_priority] visits them by rowid). *)
Fixpoint insert_by_priority (r : Row) (l : list Row) : list Row :=
  match l with
  | [] => [r]
  | x :: xs =>
      if priority r <=? priority x then r :: x :: xs
      else x :: insert_by_priority r xs
  end.

Definition order_by_priority (f : list Row) : list Row :=
  foldr insert_by_priority [] f.

(** [LIMIT ?]: SQLite reads a negative bound as no bound. *)
Definition limit (n : Z) (l : list Row) : list Row :=
  if n <? 0 then l else take (Z.to_nat n) l.

(** [DELETE FROM frontier WHERE url=?] for one parameter tuple. *)
Definition delete_url (f : list Row) (u : string) : list Row :=
  filter (λ r, url r ≠ u) f.

(** [executemany('DELETE ...', [(u,) for u in urls])]. *)
Definition delete_urls (us : list string) (f : list Row) : list Row :=
  foldl delete_url f us.

(** [DB.pop_batch]. *)
Definition pop_batch (n : Z) (db : t) : list Row * t :=
  let rows := limit n (order_by_priority (frontier db)) in
  match rows with
  | [] => (rows, db)
  | _ :: _ => (rows, mkDB (delete_urls (urls rows) (frontier db)) (seen db))
  end.

(** [DB.mark_seen]: [INSERT OR IGNORE INTO seen], then the membership probe. *)
Definition mark_seen (u : string) (db : t) : bool * t :=
  let s := {[u]} ∪ seen db in
  (bool_decide (u ∈ s), mkDB (frontier db) s).

(** [DB.is_seen]. *)
Definition is_seen (u : string) (db : t) : bool := bool_decide (u ∈ seen db).

(** [DB.frontier_size]: [SELECT COUNT( * ) FROM frontier]. *)
Definition frontier_size (db : t) : Z := Z.of_nat (length (frontier db)).

(** The calls a client can make on the store, and a run of them.  [run]
    returns the batches handed out by the [Pop]s, oldest first. *)
Inductive op : Type :=
| Push (u : string) (prio dep : Z) (parent : option string)
| Pop (n : Z)
| MarkSeen (u : string).

Definition step (o : op) (db : t) : list (list Row) * t :=
  match o with
  | Push u p d par => ([], (push_url u p d par db).2)
  | Pop n => let '(rows, db') := pop_batch n db in ([rows], db')
  | MarkSeen u => ([], (mark_seen u db).2)
  end.

Fixpoint run (ops : list op) (db : t) : list (list Row) * t :=
  match ops with
  | [] => ([], db)
  | o :: rest =>
      let '(out1, db1) := step o db in
      let '(out2, db2) := run rest db1 in
      (out1 ++ out2, db2)
  end.

(** The PRIMARY KEY constraint on [frontier.url]. *)
Definition unique_urls (db : t) : Prop := NoDup (urls (frontier db)).

(** [o] is a push of [u]. *)
Definition pushes (u : string) (o : op) : Prop :=
  match o with Push u' _ _ _ => u' = u | _ => False end.

Definition ascending (l : list Row) : Prop :=
  StronglySorted (λ a b, priority a <= priority b) l.

(** *** Facts about the store *)

Lemma has_url_true (u : string) (f : list Row) :
  has_url u f = true ↔ u ∈ urls f.
Proof. unfold has_url. apply bool_decide_eq_true. Qed.

Lemma has_url_false (u : string) (f : list Row) :
  has_url u f = false ↔ u ∉ urls f.
Proof. unfold has_url. apply bool_decide_eq_false. Qed.

Lemma elem_of_urls (u : string) (f : list Row) :
  u ∈ urls f ↔ ∃ r, r ∈ f ∧ url r = u.
Proof.
  unfold urls. rewrite list_elem_of_fmap. split; intros (r & H1 & H2); eauto.
Qed.

(** A key names one row. *)
Lemma unique_urls_inj (f : list Row) (r1 r2 : Row) :
  NoDup (urls f) → r1 ∈ f → r2 ∈ f → url r1 = url r2 → r1 = r2.
Proof.
  induction f as [|x f IH]; intros Hnd H1 H2 Heq.
  - inversion H1.
  - simpl in Hnd. apply NoDup_cons in Hnd as [Hx Hnd].
    apply elem_of_cons in H1 as [->|H1]; apply elem_of_cons in H2 as [->|H2];
      auto.
    + exfalso. apply Hx. apply elem_of_urls. exists r2. auto.
    + exfalso. apply Hx. apply elem_of_urls. exists r1. auto.
Qed.

Lemma insert_by_priority_perm (r : Row) (l : list Row) :
  insert_by_priority r l ≡ₚ r :: l.
Proof.
  induction l as [|x xs IH]; simpl; [done|].
  destruct (priority r <=? priority x); [done|].
  rewrite IH. apply Permutation_swap.
Qed.

Lemma order_by_priority_perm (f : list Row) : order_by_priority f ≡ₚ f.
Proof.
  induction f as [|x xs IH]; simpl; [done|].
  rewrite insert_by_priority_perm. by rewrite IH.
Qed.

Lemma insert_by_priority_ascending (r : Row) (l : list Row) :
  ascending l → ascending (insert_by_priority r l).
Proof.
  unfold ascending. induction l as [|x xs IH]; simpl; intros Hs.
  - repeat constructor.
  - destruct (Z.leb_spec (priority r) (priority x)) as [Hle|Hgt].
    + constructor; [done|].
      apply StronglySorted_inv in Hs as [_ Hall].
      constructor; [done|].
      eapply Forall_impl; [exact Hall|]. simpl. intros; lia.
    + apply StronglySorted_inv in Hs as [Hs Hall].
      constructor; [auto|].
      rewrite insert_by_priority_perm. constructor; [lia|done].
Qed.

Lemma order_by_priority_ascending (f : list Row) :
  ascending (order_by_priority f).
Proof.
  induction f as [|x xs IH]; simpl.
  - constructor.
  - by apply insert_by_priority_ascending.
Qed.

(** [LIMIT] keeps a prefix. *)
Lemma limit_prefix (n : Z) (l : list Row) : ∃ rest, l = limit n l ++ rest.
Proof.
  unfold limit. destruct (n <? 0).
  - exists []. by rewrite app_nil_r.
  - exists (drop (Z.to_nat n) l). by rewrite take_drop.
Qed.

Lemma limit_length (n : Z) (l : list Row) :
  0 <= n → length (limit n l) = Nat.min (Z.to_nat n) (length l).
Proof.
  intros Hn. unfold limit. destruct (Z.ltb_spec n 0); [lia|].
  apply length_take.
Qed.

(** [executemany] of the deletes is one filter. *)
Lemma delete_urls_filter (us : list string) (f : list Row) :
  delete_urls us f = filter (λ r, url r ∉ us) f.
Proof.
  unfold delete_urls. revert f.
  induction us as [|u us IH]; intros f; simpl.
  - induction f as [|x f IHf]; [done|].
    rewrite filter_cons_True by apply not_elem_of_nil. by f_equal.
  - rewrite IH. unfold delete_url. rewrite list_filter_filter.
    apply list_filter_iff. intros r. rewrite not_elem_of_cons. tauto.
Qed.

Lemma elem_of_delete_urls (r : Row) (us : list string) (f : list Row) :
  r ∈ delete_urls us f ↔ r ∈ f ∧ url r ∉ us.
Proof. rewrite delete_urls_filter, list_elem_of_filter. tauto. Qed.

(** *** [push_url] case by case *)

Lemma push_url_rejected (u : string) (p d : Z) (par : option string) (db : t) :
  u = "" ∨ (2048 < String.length u)%nat → push_url u p d par db = (false, db).
Proof.
  intros [->|Hlen]; unfold push_url; [done|].
  apply Nat.ltb_lt in Hlen. rewrite Hlen. by rewrite orb_true_r.
Qed.

Lemma push_url_guard_passes (u : string) :
  u ≠ "" → (String.length u <= 2048)%nat →
  negb (truthy_str u) || (2048 <? String.length u)%nat = false.
Proof.
  intros Hne Hlen. apply truthy_str_true in Hne. rewrite Hne. simpl.
  apply Nat.ltb_ge. lia.
Qed.

Lemma push_url_fresh (u : string) (p d : Z) (par : option string) (db : t) :
  u ≠ "" → (String.length u <= 2048)%nat → u ∉ urls (frontier db) →
  push_url u p d par db = (true, mkDB (frontier db ++ [mkRow u p d par]) (seen db)).
Proof.
  intros Hne Hlen Hfresh. unfold push_url, insert_or_ignore.
  rewrite push_url_guard_passes by done. simpl.
  apply has_url_false in Hfresh. by rewrite Hfresh.
Qed.

Lemma push_url_duplicate (u : string) (p d : Z) (par : option string) (db : t) :
  u ∈ urls (frontier db) → push_url u p d par db = (false, db).
Proof.
  intros Hin. unfold push_url, insert_or_ignore.
  destruct (negb (truthy_str u) || (2048 <? String.length u)%nat); [done|].
  simpl. apply has_url_true in Hin. rewrite Hin. by destruct db.
Qed.

(** What [push_url] can do to the frontier: nothing, or one row at the end. *)
Lemma push_url_frontier (u : string) (p d : Z) (par : option string) (db : t) :
  snd (push_url u p d par db) = db ∨
  ((u ∉ urls (frontier db)) ∧
   snd (push_url u p d par db) = mkDB (frontier db ++ [mkRow u p d par]) (seen db)).
Proof.
  unfold push_url, insert_or_ignore.
  destruct (negb (truthy_str u) || (2048 <? String.length u)%nat); [by left|].
  simpl. destruct (has_url u (frontier db)) eqn:Hu; simpl.
  - left. by destruct db.
  - right. split; [by apply has_url_false|done].
Qed.

Lemma push_url_unique (u : string) (p d : Z) (par : option string) (db : t) :
  unique_urls db → unique_urls (push_url u p d par db).2.
Proof.
  intros Hnd. destruct (push_url_frontier u p d par db) as [->|[Hfresh ->]];
    [done|].
  unfold unique_urls, urls in *. simpl. rewrite fmap_app. simpl.
  apply NoDup_app. split_and!; [done| |apply NoDup_singleton].
  intros x Hx ->%list_elem_of_singleton. by apply Hfresh.
Qed.

(** *** [pop_batch] *)

Lemma pop_batch_rows (n : Z) (db : t) :
  (pop_batch n db).1 = limit n (order_by_priority (frontier db)).
Proof. unfold pop_batch. by destruct (limit n _). Qed.

Lemma pop_batch_frontier (n : Z) (db : t) :
  frontier (pop_batch n db).2 =
  delete_urls (urls (pop_batch n db).1) (frontier db).
Proof. unfold pop_batch. by destruct (limit n _). Qed.

Lemma pop_batch_seen (n : Z) (db : t) : seen (pop_batch n db).2 = seen db.
Proof. unfold pop_batch. by destruct (limit n _). Qed.

Lemma pop_batch_rows_stored (n : Z) (db : t) (r : Row) :
  r ∈ (pop_batch n db).1 → r ∈ frontier db.
Proof.
  rewrite pop_batch_rows. intros Hin.
  destruct (limit_prefix n (order_by_priority (frontier db))) as [rest Hrest].
  rewrite <- (order_by_priority_perm (frontier db)), Hrest.
  apply elem_of_app. by left.
Qed.

Lemma pop_batch_unique (n : Z) (db : t) :
  unique_urls db → unique_urls (pop_batch n db).2.
Proof.
  unfold unique_urls. rewrite pop_batch_frontier, delete_urls_filter.
  unfold urls. intros Hnd.
  eapply sublist_NoDup; [exact Hnd|].
  apply fmap_sublist, sublist_filter.
Qed.

(** The batch and what stays behind partition the table. *)
Lemma pop_batch_partition (n : Z) (db : t) :
  unique_urls db →
  frontier db ≡ₚ (pop_batch n db).1 ++ frontier (pop_batch n db).2.
Proof.
  intros Hnd. rewrite pop_batch_frontier, delete_urls_filter.
  set (rows := (pop_batch n db).1).
  rewrite <- (filter_app_complement (λ r, url r ∉ urls rows) (frontier db)) at 1.
  rewrite (comm (++)). apply Permutation_app_tail.
  assert (Hf : NoDup (frontier db)) by (eapply NoDup_fmap_1; exact Hnd).
  assert (Hrows : NoDup rows).
  { subst rows. rewrite pop_batch_rows.
    destruct (limit_prefix n (order_by_priority (frontier db))) as [rest Hrest].
    rewrite <- (order_by_priority_perm (frontier db)), Hrest in Hf.
    by apply NoDup_app in Hf as (? & _ & _). }
  apply NoDup_Permutation; [by apply NoDup_filter|done|].
  intros r. rewrite list_elem_of_filter. split.
  - intros [Hin Hr].
    destruct (decide (url r ∈ urls rows)) as [Hu|Hu]; [|done].
    apply elem_of_urls in Hu as (r' & Hr' & Heq).
    assert (r' = r) as <-; [|done].
    eapply unique_urls_inj; eauto using pop_batch_rows_stored.
  - intros Hin. split; [|by eapply pop_batch_rows_stored].
    intros Hno. apply Hno. apply elem_of_urls. eauto.
Qed.

(** *** Runs: a key that is absent stays absent until it is pushed *)

Lemma step_unique (o : op) (db : t) : unique_urls db → unique_urls (step o db).2.
Proof.
  destruct o as [u p d par|n|u]; simpl; intros Hnd.
  - by apply push_url_unique.
  - destruct (pop_batch n db) as [rows db'] eqn:Hpop. simpl.
    change db' with (rows, db').2. rewrite <- Hpop. by apply pop_batch_unique.
  - done.
Qed.

Lemma run_unique (ops : list op) (db : t) :
  unique_urls db → unique_urls (run ops db).2.
Proof.
  revert db. induction ops as [|o ops IH]; intros db Hnd; simpl; [done|].
  pose proof (step_unique o db Hnd) as H1.
  destruct (step o db) as [out1 db1]. simpl in H1.
  specialize (IH db1 H1). by destruct (run ops db1) as [out2 db2].
Qed.

Lemma step_absent (u : string) (o : op) (db : t) :
  u ∉ urls (frontier db) → ¬ pushes u o →
  (u ∉ urls (frontier (step o db).2)) ∧
  ∀ batch, batch ∈ (step o db).1 → u ∉ urls batch.
Proof.
  intros Habs Hop. destruct o as [u' p d par|n|u']; simpl in *.
  - split; [|intros ? []%elem_of_nil].
    destruct (push_url_frontier u' p d par db) as [->|[_ ->]]; [done|].
    simpl. unfold urls. rewrite fmap_app, elem_of_app. simpl.
    rewrite list_elem_of_singleton. intros [?|?]; [by apply Habs|by apply Hop].
  - pose proof (pop_batch_frontier n db) as Hf.
    pose proof (pop_batch_rows_stored n db) as Hsub.
    destruct (pop_batch n db) as [rows db']. simpl in *. split.
    + rewrite Hf. intros (r & Hr & <-)%elem_of_urls.
      apply elem_of_delete_urls in Hr as [Hr _].
      apply Habs, elem_of_urls. eauto.
    + intros batch ->%list_elem_of_singleton (r & Hr & <-)%elem_of_urls.
      apply Habs, elem_of_urls. eauto.
  - split; [done|intros ? []%elem_of_nil].
Qed.

Lemma run_absent (u : string) (ops : list op) (db : t) :
  u ∉ urls (frontier db) → Forall (λ o, ¬ pushes u o) ops →
  ∀ batch, batch ∈ (run ops db).1 → u ∉ urls batch.
Proof.
  revert db. induction ops as [|o ops IH]; intros db Habs Hops; simpl.
  - intros ? []%elem_of_nil.
  - apply Forall_cons in Hops as [Ho Hops].
    destruct (step_absent u o db Habs Ho) as [Habs1 Hout1].
    destruct (step o db) as [out1 db1]. simpl in *.
    specialize (IH db1 Habs1 Hops).
    destruct (run ops db1) as [out2 db2]. simpl in *.
    intros batch [?|?]%elem_of_app; auto.
Qed.

(** *** The seen set *)

Lemma mark_seen_is_seen (u : string) (db : t) :
  fst (mark_seen u db) = true ∧ is_seen u (snd (mark_seen u db)) = true.
Proof.
  unfold mark_seen, is_seen. simpl.
  split; apply bool_decide_eq_true; set_solver.
Qed.

Lemma is_seen_init (u : string) : is_seen u init = false.
Proof. unfold is_seen. simpl. apply bool_decide_eq_false. set_solver. Qed.

(** *** The two contracts of the frontier *)

(** C2.  [push_url] is an insert-if-absent keyed by URL.  For a non-empty
    URL of at most 2048 characters that the frontier does not hold, the
    call returns [True] and appends exactly one row for it (the table then
    holds one row with that key); a second push of the same URL, whatever
    priority, depth and parent it carries, returns [False] and leaves the
    store as it is.  An empty URL, or one longer than 2048 characters, is
    rejected: [False], store untouched.  Pushing keeps the keys distinct,
    and no run of store operations from the fresh tables ever yields two
    rows for one URL. *)
Theorem push_url_insert_if_absent
    (db : t) (u : string) (p d : Z) (par : option string) :
  (u ≠ "" → (String.length u <= 2048)%nat → u ∉ urls (frontier db) →
     push_url u p d par db
       = (true, mkDB (frontier db ++ [mkRow u p d par]) (seen db))
     ∧ length (filter (λ r, url r = u)
                 (frontier (snd (push_url u p d par db)))) = 1%nat
     ∧ ∀ p' d' par',
         push_url u p' d' par' (snd (push_url u p d par db))
         = (false, snd (push_url u p d par db)))
  ∧ (u = "" ∨ (2048 < String.length u)%nat →
       push_url u p d par db = (false, db))
  ∧ (unique_urls db → unique_urls (snd (push_url u p d par db)))
  ∧ (∀ ops, unique_urls (snd (run ops init))).
Proof.
  split_and!.
  - intros Hne Hlen Hfresh.
    rewrite (push_url_fresh u p d par db Hne Hlen Hfresh). simpl.
    split_and!; [done| |].
    + rewrite filter_app, length_app.
      rewrite filter_cons_True, filter_nil by done. simpl.
      assert (filter (λ r, url r = u) (frontier db) = []) as ->; [|done].
      destruct (filter _ (frontier db)) as [|r l] eqn:Hf; [done|].
      assert (Hr : r ∈ filter (λ r, url r = u) (frontier db))
        by (rewrite Hf; left).
      apply list_elem_of_filter in Hr as [Hr1 Hr2].
      exfalso. apply Hfresh, elem_of_urls. eauto.
    + intros p' d' par'. apply push_url_duplicate. simpl.
      unfold urls. rewrite fmap_app, elem_of_app. right. simpl. left.
  - apply push_url_rejected.
  - apply push_url_unique.
  - intros ops. apply run_unique. unfold unique_urls. simpl. constructor.
Qed.

Lemma push_url_insert_if_absent_witness :
  push_url "https://bama.ir/" 0 0 None init
    = (true, mkDB [mkRow "https://bama.ir/" 0 0 None] ∅)
  ∧ push_url "https://bama.ir/" 1 1 (Some "https://bama.ir/car")
      (mkDB [mkRow "https://bama.ir/" 0 0 None] ∅)
    = (false, mkDB [mkRow "https://bama.ir/" 0 0 None] ∅)
  ∧ push_url "" 0 0 None init = (false, init).
Proof.
  destruct (push_url_insert_if_absent init "https://bama.ir/" 0 0 None)
    as (Hfresh & _ & _ & _).
  destruct Hfresh as (Hfirst & _ & Hsecond).
  { discriminate. }
  { simpl. lia. }
  { simpl. apply not_elem_of_nil. }
  split_and!.
  - exact Hfirst.
  - rewrite Hfirst in Hsecond. apply Hsecond.
  - destruct (push_url_insert_if_absent init "" 0 0 None) as (_ & Hrej & _).
    apply Hrej. by left.
Defined.

(** C3.  For [n >= 0] and a frontier whose keys are distinct (the PRIMARY
    KEY constraint), [pop_batch n] returns [min n (size)] rows, so at most
    [n]; the rows come in ascending priority and none of the rows left
    behind has a lower priority than a returned one; the call removes
    exactly the returned rows (the old table is the batch plus the new
    table); and a returned row's URL is gone from the frontier, so that in
    any later run of store operations that does not push that URL again, no
    [pop_batch] hands out a row for it. *)
Theorem pop_batch_ascending_once (n : Z) (db : t) :
  0 <= n → unique_urls db →
  let rows := fst (pop_batch n db) in
  let db' := snd (pop_batch n db) in
  length rows = Nat.min (Z.to_nat n) (length (frontier db))
  ∧ Z.of_nat (length rows) <= n
  ∧ ascending rows
  ∧ frontier db ≡ₚ rows ++ frontier db'
  ∧ seen db' = seen db
  ∧ (∀ r r', r ∈ rows → r' ∈ frontier db' → priority r <= priority r')
  ∧ ∀ r, r ∈ rows →
      (url r ∉ urls (frontier db'))
      ∧ ∀ ops, Forall (λ o, ¬ pushes (url r) o) ops →
          ∀ batch, batch ∈ fst (run ops db') → url r ∉ urls batch.
Proof.
  intros Hn Hnd rows db'.
  pose proof (pop_batch_partition n db Hnd) as Hpart.
  fold rows db' in Hpart.
  assert (Hrows : rows = limit n (order_by_priority (frontier db)))
    by apply pop_batch_rows.
  destruct (limit_prefix n (order_by_priority (frontier db))) as [rest Hrest].
  rewrite <- Hrows in Hrest.
  assert (Hlen : length rows = Nat.min (Z.to_nat n) (length (frontier db))).
  { rewrite Hrows, limit_length by done.
    by rewrite (Permutation_length (order_by_priority_perm (frontier db))). }
  assert (Hsorted : ascending (rows ++ rest)).
  { rewrite <- Hrest. apply order_by_priority_ascending. }
  assert (Hgone : ∀ r, r ∈ rows → url r ∉ urls (frontier db')).
  { intros r Hr (r' & Hr' & Heq)%elem_of_urls. subst db'.
    rewrite pop_batch_frontier in Hr'.
    apply elem_of_delete_urls in Hr' as [_ Hno]. apply Hno.
    rewrite Heq. apply elem_of_urls. eauto. }
  split_and!.
  - done.
  - lia.
  - unfold ascending in *. by apply StronglySorted_app_1_l in Hsorted.
  - done.
  - apply pop_batch_seen.
  - intros r r' Hr Hr'.
    assert (Hperm : rows ++ rest ≡ₚ rows ++ frontier db').
    { rewrite <- Hrest, order_by_priority_perm. done. }
    apply Permutation_app_inv_l in Hperm.
    rewrite <- Hperm in Hr'.
    unfold ascending in Hsorted.
    exact (StronglySorted_app_1_elem_of
             (λ a b, priority a <= priority b) rows rest r r' Hsorted Hr Hr').
  - intros r Hr. split; [by apply Hgone|].
    intros ops Hops. apply run_absent; auto.
Qed.

Lemma pop_batch_ascending_once_witness :
  fst (pop_batch 2
         (mkDB [mkRow "c" 2 2 None; mkRow "a" 0 0 None; mkRow "b" 1 1 None] ∅))
  = [mkRow "a" 0 0 None; mkRow "b" 1 1 None]
  ∧ ascending [mkRow "a" 0 0 None; mkRow "b" 1 1 None]
  ∧ frontier (snd (pop_batch 2
         (mkDB [mkRow "c" 2 2 None; mkRow "a" 0 0 None; mkRow "b" 1 1 None] ∅)))
    = [mkRow "c" 2 2 None].
Proof.
  assert (Hn : 0 <= 2) by lia.
  assert (Hnd : unique_urls
    (mkDB [mkRow "c" 2 2 None; mkRow "a" 0 0 None; mkRow "b" 1 1 None] ∅)).
  { unfold unique_urls. simpl. apply (bool_decide_unpack _). vm_compute. exact I. }
  destruct (pop_batch_ascending_once 2 _ Hn Hnd) as (_ & _ & Hasc & _).
  split_and!; [reflexivity | exact Hasc | reflexivity].
Defined.

End DB.

(** * Wall clock

    [clock] is what [time.time()] returns; [time.sleep d] moves it forward by
    [d] (the least the call may take) and is logged in [slept], oldest first. *)
Module Time.

Record world : Type := mkWorld {
  clock : Q;
  slept : list Q
}.

Definition sleep (d : Q) (w : world) : world :=
  mkWorld (clock w + d) (slept w ++ [d]).

(** Time passing outside the modelled code. *)
Definition tick (d : Q) (w : world) : world :=
  mkWorld (clock w + d) (slept w).

(** [a > b] and [a <= b] on readings, as booleans. *)
Definition gtb (a b : Q) : bool := negb (Qle_bool a b).

Lemma gtb_true (a b : Q) : gtb a b = true ↔ (b < a)%Q.
Proof.
  unfold gtb. rewrite negb_true_iff, <- not_true_iff_false, Qle_bool_iff.
  split; [apply Qnot_le_lt | apply Qlt_not_le].
Qed.

Lemma gtb_false (a b : Q) : gtb a b = false ↔ (a <= b)%Q.
Proof. unfold gtb. rewrite negb_false_iff. apply Qle_bool_iff. Qed.

End Time.

(** * utils.py : the rate limiter *)
Module RateLimiter.
Import Time.

(** [self.min_delay], and [self.last]: the stamp kept per key. *)
Record t : Type := mkLimiter {
  min_delay : Q;
  last : gmap string Q
}.

(** [RateLimiter.__init__]: [max(0.0, float(min_delay))], no stamps. *)
Definition new (d : Q) : t :=
  mkLimiter (if Qle_bool 0 d then d else 0%Q) ∅.

(** [RateLimiter.wait].  The lock makes the body one step; it is run here
    against the clock of the calling thread. *)
Definition wait (key : string) (rl : t) (w : world) : t * world :=
  if Qle_bool (min_delay rl) 0 then (rl, w)
  else
    let now := clock w in
    let last_k := default 0%Q (last rl !! key) in
    let delay := (min_delay rl - (now - last_k))%Q in
    let w' := if gtb delay 0 then sleep delay w else w in
    (mkLimiter (min_delay rl) (<[key := (now + delay)%Q]> (last rl)), w').

(** The stamp [wait] leaves for [key]. *)
Definition stamp (key : string) (rl : t) : Q := default 0%Q (last rl !! key).

(** [k] calls of [wait key] in a row by one thread. *)
Fixpoint waits (k : nat) (key : string) (rl : t) (w : world) : t * world :=
  match k with
  | O => (rl, w)
  | S k' => let '(rl', w') := wait key rl w in waits k' key rl' w'
  end.

(** *** What [wait] does *)

(** With no minimum delay, [wait] returns at once and records nothing. *)
Lemma wait_disabled (key : string) (rl : t) (w : world) :
  (min_delay rl <= 0)%Q → wait key rl w = (rl, w).
Proof.
  intros H. unfold wait. apply Qle_bool_iff in H. by rewrite H.
Qed.

(** The stamp written is [now + delay], and that is the old stamp plus
    [min_delay], whatever the clock reads. *)
Lemma wait_stamp (key : string) (rl : t) (w : world) :
  (0 < min_delay rl)%Q →
  (stamp key (fst (wait key rl w)) == stamp key rl + min_delay rl)%Q.
Proof.
  intros H. unfold wait, stamp.
  destruct (Qle_bool (min_delay rl) 0) eqn:Hle.
  - apply Qle_bool_iff in Hle. exfalso. eapply Qlt_not_le; eauto.
  - simpl. rewrite lookup_insert_eq. simpl. ring.
Qed.

(** [wait] sleeps only when the old stamp plus [min_delay] lies ahead of
    the clock. *)
Lemma wait_returns_at_once (key : string) (rl : t) (w : world) :
  (0 < min_delay rl)%Q →
  (stamp key rl + min_delay rl <= clock w)%Q →
  snd (wait key rl w) = w.
Proof.
  intros H Hpast. unfold wait, stamp in *.
  destruct (Qle_bool (min_delay rl) 0) eqn:Hle.
  - done.
  - simpl. assert (Hd : gtb (min_delay rl -
        (clock w - default 0%Q (last rl !! key))) 0 = false).
    { apply gtb_false. lra. }
    by rewrite Hd.
Qed.

Lemma wait_min_delay (key : string) (rl : t) (w : world) :
  min_delay (fst (wait key rl w)) = min_delay rl.
Proof. unfold wait. by destruct (Qle_bool (min_delay rl) 0). Qed.

(** As long as the clock is ahead of the stamp by [k] times [min_delay],
    [k] calls in a row all return at once: the stamp, which starts at 0,
    only moves by [min_delay] per call and stays behind the clock. *)
Lemma waits_return_at_once (k : nat) (key : string) (rl : t) (w : world) :
  (0 < min_delay rl)%Q →
  (stamp key rl + inject_Z (Z.of_nat k) * min_delay rl <= clock w)%Q →
  snd (waits k key rl w) = w.
Proof.
  revert rl. induction k as [|k IH]; intros rl Hpos Hpast; [done|].
  simpl waits.
  assert (Hk : (inject_Z (Z.of_nat (S k)) == inject_Z (Z.of_nat k) + 1)%Q).
  { rewrite Nat2Z.inj_succ. unfold Z.succ. by rewrite inject_Z_plus. }
  rewrite Hk in Hpast.
  assert (Hk0 : (0 <= inject_Z (Z.of_nat k))%Q).
  { change 0%Q with (inject_Z 0). rewrite <- Zle_Qle. lia. }
  assert (Hnow : (stamp key rl + min_delay rl <= clock w)%Q) by nra.
  pose proof (wait_returns_at_once key rl w Hpos Hnow) as Hw.
  pose proof (wait_stamp key rl w Hpos) as Hst.
  pose proof (wait_min_delay key rl w) as Hmd.
  destruct (wait key rl w) as [rl' w']. simpl in *. subst w'.
  apply IH.
  - by rewrite Hmd.
  - rewrite Hmd, Hst. lra.
Qed.

(** C5.  A limiter with [min_delay = 1] is asked twice for the same key,
    the second time right after the first call returned, at clock reading
    1000.  The first call (no earlier stamp: [last.get(key, 0.0)] is 0)
    does not sleep and records the stamp [1000 + (1 - 1000) = 1], which is
    neither the time the call began nor the time it ended; the second call
    finds [delay = 1 - (1000 - 1) < 0], does not sleep either, and returns
    at 1000, with no second elapsed since the first call returned.  It
    records 2.  Every number here is a small integer, which a float holds
    exactly, so the float arithmetic of the source gives the same values. *)
Theorem wait_back_to_back_never_sleeps :
  let w0 := mkWorld 1000 [] in
  let rl1 := fst (wait "bama.ir" (new 1) w0) in
  let w1 := snd (wait "bama.ir" (new 1) w0) in
  let rl2 := fst (wait "bama.ir" rl1 w1) in
  let w2 := snd (wait "bama.ir" rl1 w1) in
  w1 = w0
  ∧ Qred (stamp "bama.ir" rl1) = 1%Q
  ∧ w2 = w0
  ∧ Qred (stamp "bama.ir" rl2) = 2%Q.
Proof. vm_compute. auto. Qed.

End RateLimiter.

(** * robots.py : the robots.txt cache over [urllib.robotparser] *)
Module Robots.

(** What [urllib.request.urlopen(robots_url)] followed by [f.read()] can
    do inside [RobotFileParser.read]. *)
Inductive urlopen_result : Type :=
| UrlError (msg : string)   (* URLError, timeout, ...: any exception but HTTPError *)
| HttpError (code : Z)      (* urllib.error.HTTPError with this status *)
| Body (raw : string).      (* the bytes of robots.txt *)

(** A result or a raised exception. *)
Inductive outcome (A : Type) : Type :=
| Returns (a : A)
| Raises.
Arguments Returns {A} a.
Arguments Raises {A}.

Section WithParser.

(** The parts of the Python standard library that the cache only calls:
    [urlsplit(url).netloc]; [raw.decode("utf-8").splitlines()] and the rule
    table that [RobotFileParser.parse] builds from it ([None]: the decode
    raises); and the rule matching at the end of [can_fetch], which may
    raise. *)
Variable Rules : Type.
Variable netloc : string → string.
Variable no_rules : Rules.
Variable decode_and_parse : string → option Rules.
Variable match_rules : Rules → string → string → outcome bool.

(** [urllib.robotparser.RobotFileParser]: the three fields [can_fetch]
    tests before it looks at any rule, and the rules. *)
Record RobotFileParser : Type := mkParser {
  disallow_all : bool;
  allow_all : bool;
  last_checked : Q;
  rules : Rules
}.

(** [RobotFileParser()]. *)
Definition new_parser : RobotFileParser := mkParser false false 0 no_rules.

(** [RobotFileParser.read] at clock reading [now].  Only an [HTTPError] is
    handled inside; [parse] starts with [self.modified()], which is the
    one place [last_checked] is set. *)
Definition read (net : urlopen_result) (now : Q) (rfp : RobotFileParser)
    : outcome RobotFileParser :=
  match net with
  | UrlError _ => Raises
  | HttpError code =>
      if (code =? 401) || (code =? 403) then
        Returns (mkParser true (allow_all rfp) (last_checked rfp) (rules rfp))
      else if (400 <=? code) && (code <? 500) then
        Returns (mkParser (disallow_all rfp) true (last_checked rfp) (rules rfp))
      else Returns rfp
  | Body raw =>
      match decode_and_parse raw with
      | None => Raises
      | Some rs =>
          Returns (mkParser (disallow_all rfp) (allow_all rfp) now rs)
      end
  end.

(** [RobotFileParser.can_fetch]. *)
Definition can_fetch (rfp : RobotFileParser) (useragent url : string)
    : outcome bool :=
  if disallow_all rfp then Returns false
  else if allow_all rfp then Returns true
  else if Qeq_bool (last_checked rfp) 0 then Returns false
  else match_rules (rules rfp) useragent url.

(** [RobotsEntry]. *)
Record RobotsEntry : Type := mkEntry {
  parser : RobotFileParser;
  fetched_at : Q
}.

(** [RobotsCache]: [user_agent], [ttl] and the [cache] dict keyed by host. *)
Record t : Type := mkCache {
  user_agent : string;
  ttl : Q;
  cache : gmap string RobotsEntry
}.

Definition new (ua : string) (ttl_sec : Q) : t := mkCache ua ttl_sec ∅.

(** [RobotsCache._get_entry]: [net host] is what fetching
    [https://{host}/robots.txt] does at that moment. *)
Definition refetch (c : t) (host : string) (now : Q)
    (net : string → urlopen_result) : RobotsEntry * t :=
  let rfp0 := new_parser in
  let rfp :=
    match read (net host) now rfp0 with
    | Returns rfp' => rfp'
    | Raises => mkParser false (allow_all rfp0) (last_checked rfp0) (rules rfp0)
    end in
  let entry := mkEntry rfp now in
  (entry, mkCache (user_agent c) (ttl c) (<[host := entry]> (cache c))).

Definition _get_entry (c : t) (url : string) (now : Q)
    (net : string → urlopen_result) : RobotsEntry * t :=
  let host := netloc url in
  match cache c !! host with
  | None => refetch c host now net
  | Some entry =>
      if Time.gtb (now - fetched_at entry) (ttl c) then refetch c host now net
      else (entry, c)
  end.

(** The entry for [host] is missing or older than [ttl]. *)
Definition stale (c : t) (host : string) (now : Q) : Prop :=
  match cache c !! host with
  | None => True
  | Some entry => (ttl c < now - fetched_at entry)%Q
  end.

(** [RobotsCache.allowed]. *)
Definition allowed (c : t) (url : string) (now : Q)
    (net : string → urlopen_result) : bool * t :=
  let '(entry, c') := _get_entry c url now net in
  match can_fetch (parser entry) (user_agent c) url with
  | Returns b => (b, c')
  | Raises => (true, c')
  end.

(** *** The two failure paths *)

(** An exception inside [can_fetch] is answered with [True]. *)
Lemma allowed_parser_error (c : t) (url : string) (now : Q)
    (net : string → urlopen_result) :
  can_fetch (parser (fst (_get_entry c url now net))) (user_agent c) url
    = Raises →
  fst (allowed c url now net) = true.
Proof.
  unfold allowed. destruct (_get_entry c url now net) as [e c']. simpl.
  by intros ->.
Qed.

(** After a failed [read], the parser kept is the fresh one: nothing in it
    says the file was ever checked. *)
Lemma failed_read_entry (c : t) (url : string) (now : Q)
    (net : string → urlopen_result) :
  stale c (netloc url) now →
  read (net (netloc url)) now new_parser = Raises →
  fst (_get_entry c url now net) = mkEntry new_parser now.
Proof.
  intros Hst Hrd. unfold _get_entry, stale in *.
  destruct (cache c !! netloc url) as [e|].
  - apply Time.gtb_true in Hst. rewrite Hst. unfold refetch. by rewrite Hrd.
  - unfold refetch. by rewrite Hrd.
Qed.

(** So when the fetch of robots.txt, or its decoding, raises, [allowed]
    answers [False]: *)
Lemma allowed_after_failed_read (c : t) (url : string) (now : Q)
    (net : string → urlopen_result) :
  stale c (netloc url) now →
  read (net (netloc url)) now new_parser = Raises →
  fst (allowed c url now net) = false.
Proof.
  intros Hst Hrd. pose proof (failed_read_entry c url now net Hst Hrd) as He.
  unfold allowed. destruct (_get_entry c url now net) as [e c']. simpl in *.
  subst e. reflexivity.
Qed.

(** and the verdict is cached: until the entry is older than [ttl], every
    URL of the host is refused without another fetch. *)
Lemma allowed_while_failed_entry_cached (c : t) (url : string) (now : Q)
    (net : string → urlopen_result) (t0 : Q) :
  cache c !! netloc url = Some (mkEntry new_parser t0) →
  (now - t0 <= ttl c)%Q →
  allowed c url now net = (false, c).
Proof.
  intros Hc Hfresh. unfold allowed, _get_entry. rewrite Hc. simpl.
  apply Time.gtb_false in Hfresh. rewrite Hfresh. reflexivity.
Qed.

(** The same for a body that does not decode, and for an HTTP error that
    is neither 401/403 nor another 4xx (a 5xx): [read] leaves
    [last_checked] at 0 either way. *)
Lemma allowed_after_undecodable_body (c : t) (url : string) (now : Q)
    (net : string → urlopen_result) (raw : string) :
  stale c (netloc url) now →
  net (netloc url) = Body raw → decode_and_parse raw = None →
  fst (allowed c url now net) = false.
Proof.
  intros Hst Hnet Hdec. apply allowed_after_failed_read; [done|].
  by rewrite Hnet; simpl; rewrite Hdec.
Qed.

Lemma allowed_after_server_error (ua : string) (ttl_sec : Q) (url : string)
    (now : Q) (code : Z) :
  500 <= code →
  fst (allowed (new ua ttl_sec) url now (λ _, HttpError code)) = false.
Proof.
  intros Hcode. unfold allowed, _get_entry, refetch, read. simpl.
  replace ((code =? 401) || (code =? 403)) with false
    by (symmetry; apply orb_false_iff; split; apply Z.eqb_neq; lia).
  replace ((400 <=? code) && (code <? 500)) with false
    by (symmetry; apply andb_false_iff; right; apply Z.ltb_ge; lia).
  reflexivity.
Qed.

(** A missing robots.txt (404 and the like) does allow everything. *)
Lemma allowed_after_not_found (ua : string) (ttl_sec : Q) (url : string)
    (now : Q) :
  fst (allowed (new ua ttl_sec) url now (λ _, HttpError 404)) = true.
Proof. reflexivity. Qed.

End WithParser.

(** C4.  The robots.txt of the host cannot be fetched (the network call
    raises, as on a timeout or a refused connection).  [_get_entry] catches
    the exception and sets [disallow_all = False] on the parser, which it
    already was; [last_checked] is still 0, so [can_fetch] returns [False]
    before it reads any rule, no exception reaches [allowed], and
    [allowed(url)] is [False]: the host is blocked, not allowed.  This holds
    for every user agent, TTL, URL, clock reading and error message, on an
    empty cache. *)
Theorem allowed_fetch_failure_blocks
    (Rules : Type) (netloc : string → string) (no_rules : Rules)
    (decode_and_parse : string → option Rules)
    (match_rules : Rules → string → string → outcome bool)
    (ua : string) (ttl_sec : Q) (url : string) (now : Q) (msg : string) :
  fst (allowed Rules netloc no_rules decode_and_parse match_rules
         (new Rules ua ttl_sec) url now (λ _, UrlError msg)) = false.
Proof.
  apply allowed_after_failed_read; [exact I | reflexivity].
Qed.

End Robots.

(** * Python [str] methods used by the fetcher and the parser *)
Module Str.

Definition code (c : ascii) : N := N_of_ascii c.

(** [c.isspace()] for a code point below 256. *)
Definition isspace (c : ascii) : bool :=
  let n := code c in
  ((9 <=? n) && (n <=? 13) || (28 <=? n) && (n <=? 32)
   || (n =? 133) || (n =? 160))%N.

Fixpoint lstrip (s : string) : string :=
  match s with
  | EmptyString => EmptyString
  | String c rest => if isspace c then lstrip rest else s
  end.

(** Drops the trailing whitespace: a character stays when it is not a
    space or something stays after it. *)
Fixpoint rstrip (s : string) : string :=
  match s with
  | EmptyString => EmptyString
  | String c rest =>
      match rstrip rest with
      | EmptyString => if isspace c then EmptyString else String c EmptyString
      | kept => String c kept
      end
  end.

(** [s.strip()]. *)
Definition strip (s : string) : string := rstrip (lstrip s).

Definition is_ascii_digit (c : ascii) : bool :=
  ((48 <=? code c) && (code c <=? 57))%N.

(** [c.isdigit()]: the ASCII digits and the superscripts two, three, one. *)
Definition isdigit_char (c : ascii) : bool :=
  is_ascii_digit c || (code c =? 178)%N || (code c =? 179)%N || (code c =? 185)%N.

Fixpoint all_chars (p : ascii → bool) (s : string) : bool :=
  match s with
  | EmptyString => true
  | String c rest => p c && all_chars p rest
  end.

(** [s.isdigit()]: false on the empty string. *)
Definition isdigit (s : string) : bool := truthy_str s && all_chars isdigit_char s.

Fixpoint digits_value (acc : Z) (s : string) : Z :=
  match s with
  | EmptyString => acc
  | String c rest => digits_value (10 * acc + Z.of_N (code c - 48)) rest
  end.

(** [int(s)] on a string that passed [isdigit]: [None] stands for the
    [ValueError] raised on a superscript digit, or on more than 4300 digits
    (the interpreter's default limit on int conversion). *)
Definition int (s : string) : option Z :=
  if truthy_str s && all_chars is_ascii_digit s
     && (String.length s <=? 4300)%nat
  then Some (digits_value 0 s) else None.

(** [c.lower()] for a code point below 256. *)
Definition lower_char (c : ascii) : ascii :=
  let n := code c in
  if ((65 <=? n) && (n <=? 90) || (192 <=? n) && (n <=? 222) && negb (n =? 215))%N
  then ascii_of_N (n + 32) else c.

Fixpoint lower (s : string) : string :=
  match s with
  | EmptyString => EmptyString
  | String c rest => String (lower_char c) (lower rest)
  end.

(** [needle in hay]. *)
Fixpoint contains (needle hay : string) : bool :=
  String.prefix needle hay ||
  match hay with
  | EmptyString => false
  | String _ rest => contains needle rest
  end.

(** [s.endswith(suffix)]. *)
Fixpoint endswith (s suffix : string) : bool :=
  String.eqb s suffix ||
  match s with
  | EmptyString => false
  | String _ rest => endswith rest suffix
  end.

(** [s.encode("utf-8")]: one byte below 128, two bytes from 128 to 255. *)
Fixpoint utf8 (s : string) : string :=
  match s with
  | EmptyString => EmptyString
  | String c rest =>
      let n := code c in
      if (n <? 128)%N then String c (utf8 rest)
      else String (ascii_of_N (192 + n / 64)) (String (ascii_of_N (128 + n mod 64)) (utf8 rest))
  end.

Lemma utf8_empty (s : string) : utf8 s = "" ↔ s = "".
Proof.
  destruct s as [|c rest]; simpl; [done|].
  destruct (code c <? 128)%N; split; discriminate.
Qed.

End Str.

(** * fetcher.py : one logical fetch *)
Module Fetcher.
Import Time.

(** Response headers: [requests]' case-insensitive dict, as the list of
    its items; [{}] is [[]]. *)
Definition Headers : Type := list (string * string).

Fixpoint hget (name : string) (h : Headers) : option string :=
  match h with
  | [] => None
  | (k, v) :: rest =>
      if String.eqb (Str.lower k) (Str.lower name) then Some v else hget name rest
  end.

(** [h.get(name, "")]. *)
Definition hget_or_empty (name : string) (h : Headers) : string :=
  default "" (hget name h).

(** What [self.session.get(url, timeout=...)] does on one attempt. *)
Inductive get_outcome : Type :=
| RequestException (msg : string)   (* or its subclasses Timeout, ProxyError, SSLError *)
| Response (status : Z) (headers : Headers) (text : string).

(** The 5-tuple [fetch] returns. *)
Record FetchResult : Type := mkResult {
  status : option Z;
  headers : Headers;
  content : string;
  elapsed : Q;
  error : option string
}.

(** The fields of [Fetcher] that [fetch] reads. *)
Record t : Type := mkFetcher {
  retries : Z;
  enable_render : bool
}.

(** What a fetch changes: the limiter [self._rate], the clock, and the
    number of requests sent. *)
Record state : Type := mkState {
  limiter : RateLimiter.t;
  world : Time.world;
  requests : nat
}.

(** [Fetcher._detect_captcha]. *)
Definition captcha_keys : list string :=
  [ "captcha"; "g-recaptcha"; "hcaptcha";
    "cf-challenge"; "cf-turnstile";
    "are you human"; "bot verification"; "attention required" ].

Definition _detect_captcha (html : string) : bool :=
  if negb (truthy_str html) then false
  else existsb (λ k, Str.contains k (Str.lower html)) captcha_keys.

(** The double-quote character (code 34). *)
Definition dq : string := String (ascii_of_nat 34) EmptyString.

(** [Fetcher._looks_js_page]. *)
Definition _looks_js_page (html : string) : bool :=
  let lower := Str.lower html in
  Str.contains ("<div id=" +:+ dq +:+ "app" +:+ dq) lower
  || Str.contains "<div id='app'" lower
  || Str.contains ("id=" +:+ dq +:+ "__next" +:+ dq) lower
  || Str.contains "window.__INITIAL_STATE__" lower
  || (String.length (Str.strip html) <? 1000)%nat.

(** [int(x)] on a float: towards zero. *)
Definition trunc (q : Q) : Z := (Qnum q ÷ Z.pos (Qden q))%Z.

(** [min(wait, 120)] and [1.0 * attempt] as sleep arguments. *)
Definition capped (wait : Z) : Q := inject_Z (Z.min wait 120).
Definition backoff (attempt : nat) : Q := inject_Z (Z.of_nat attempt).

(** One pass through the body of [for attempt in ...]: the function
    returns, or the [except] clause ran and left [last_err]. *)
Inductive pass : Type :=
| Return (r : FetchResult)
| Caught (last_err : string).

Section WithLibraries.

(** Library calls: [urlsplit(url).netloc];
    [email.utils.parsedate_to_datetime(v)], the instant it denotes in
    seconds since the epoch, a naive datetime read as UTC ([None]: it
    raises); and [_render_with_playwright], the rendered page or [None];
    and what the network does on the [k]-th attempt, with the time that
    took. *)
Variable netloc : string → string.
Variable parsedate_to_datetime : string → option Q.
Variable render : string → option string.
Variable net : nat → Q * get_outcome.

(** [Fetcher._parse_retry_after], with [now = datetime.now(timezone.utc)]. *)
Definition _parse_retry_after (value : string) (now : Q) : Z :=
  if negb (truthy_str value) then 0
  else
    let v := Str.strip value in
    if Str.isdigit v then
      match Str.int v with
      | Some n => Z.max 0 n
      | None => 0
      end
    else
      match parsedate_to_datetime v with
      | Some dt => Z.max 0 (trunc (dt - now))
      | None => 0
      end.

(** The body of the [try] after [resp] is in hand and is no 429/503. *)
Definition finish (f : t) (url : string) (start : Q) (st : Z) (h : Headers)
    (text : string) (s : state) : FetchResult :=
  let ct := hget_or_empty "Content-Type" h in
  let rendered :=
    if enable_render f && Str.contains "text/html" ct && _looks_js_page text
    then match render url with
         | Some html => if truthy_str html then Some html else None
         | None => None
         end
    else None in
  let content := default text rendered in
  let status := match rendered with Some _ => 200 | None => st end in
  let elapsed := (clock (world s) - start)%Q in
  if Str.contains "text/html" ct && _detect_captcha content
  then mkResult (Some status) h (Str.utf8 content) elapsed (Some "CAPTCHA_DETECTED")
  else mkResult (Some status) h (Str.utf8 content) elapsed None.

(** The loop body for attempt number [attempt]. *)
Definition attempt_body (f : t) (url host : string) (start : Q)
    (attempt : nat) (s : state) : pass * state :=
  let '(rl, w1) := RateLimiter.wait host (limiter s) (world s) in
  let '(took, out) := net attempt in
  let s1 := mkState rl (tick took w1) (S (requests s)) in
  match out with
  | RequestException msg =>
      (Caught msg,
       mkState rl (sleep (backoff attempt) (world s1)) (requests s1))
  | Response st h text =>
      if (st =? 429) || (st =? 503) then
        let ra := hget_or_empty "Retry-After" h in
        let wait := _parse_retry_after ra (clock (world s1)) in
        let w2 := if 0 <? wait then sleep (capped wait) (world s1)
                  else world s1 in
        (Caught ("retryable status " +:+ pretty st),
         mkState rl (sleep (backoff attempt) w2) (requests s1))
      else (Return (finish f url start st h text s1), s1)
  end.

Fixpoint attempts_loop (f : t) (url host : string) (start : Q)
    (attempts : list nat) (last_err : option string) (s : state)
    : FetchResult * state :=
  match attempts with
  | [] =>
      (mkResult None [] "" (clock (world s) - start)%Q last_err, s)
  | attempt :: rest =>
      match attempt_body f url host start attempt s with
      | (Return r, s') => (r, s')
      | (Caught msg, s') => attempts_loop f url host start rest (Some msg) s'
      end
  end.

(** [range(1, self.retries + 2)]. *)
Definition attempt_numbers (f : t) : list nat :=
  seq 1 (Z.to_nat (retries f + 1)).

(** [Fetcher.fetch]. *)
Definition fetch (f : t) (url : string) (s : state) : FetchResult * state :=
  let start := clock (world s) in
  let host := netloc url in
  attempts_loop f url host start (attempt_numbers f) None s.

(** *** Truncation *)

Lemma trunc_floor (q : Q) : (0 <= q)%Q → trunc q = Qfloor q.
Proof.
  destruct q as [n d]. unfold Qle, trunc, Qfloor. simpl. intros H.
  apply Z.quot_div_nonneg; lia.
Qed.

Lemma trunc_bounds (q : Q) :
  (0 <= q)%Q → (inject_Z (trunc q) <= q < inject_Z (trunc q) + 1)%Q.
Proof.
  intros H. rewrite (trunc_floor q H). split; [apply Qfloor_le|].
  pose proof (Qlt_floor q) as Hlt. rewrite inject_Z_plus in Hlt. exact Hlt.
Qed.

Lemma trunc_nonneg (q : Q) : (0 <= q)%Q → 0 <= trunc q.
Proof.
  intros H. rewrite (trunc_floor q H).
  change 0 with (Qfloor 0). by apply Qfloor_resp_le.
Qed.

Lemma trunc_integer (q : Q) (n : Z) : 0 <= n → (q == inject_Z n)%Q → trunc q = n.
Proof.
  intros Hn Hq.
  assert (Hn' : (inject_Z 0 <= inject_Z n)%Q) by (by rewrite <- Zle_Qle).
  assert (H0 : (0 <= q)%Q) by (change 0%Q with (inject_Z 0); lra).
  destruct (trunc_bounds q H0) as [Hlo Hhi].
  assert (Hlo' : (inject_Z (trunc q) <= inject_Z n)%Q) by lra.
  assert (Hhi' : (inject_Z n < inject_Z (trunc q + 1))%Q)
    by (rewrite inject_Z_plus; change (inject_Z 1) with 1%Q; lra).
  rewrite <- Zle_Qle in Hlo'. rewrite <- Zlt_Qlt in Hhi'. lia.
Qed.

(** *** [_parse_retry_after] by the shape of the header *)

Lemma parse_retry_after_missing (now : Q) : _parse_retry_after "" now = 0.
Proof. reflexivity. Qed.

Lemma parse_retry_after_date (v : string) (dt now : Q) :
  v ≠ "" → Str.isdigit (Str.strip v) = false →
  parsedate_to_datetime (Str.strip v) = Some dt →
  _parse_retry_after v now = Z.max 0 (trunc (dt - now)).
Proof.
  intros Hv Hd Hp. unfold _parse_retry_after.
  apply truthy_str_true in Hv. rewrite Hv. simpl. by rewrite Hd, Hp.
Qed.

Lemma parse_retry_after_malformed (v : string) (now : Q) :
  Str.isdigit (Str.strip v) = false →
  parsedate_to_datetime (Str.strip v) = None →
  _parse_retry_after v now = 0.
Proof.
  intros Hd Hp. unfold _parse_retry_after.
  destruct (negb (truthy_str v)); [done|]. by rewrite Hd, Hp.
Qed.

Lemma parse_retry_after_nonneg (v : string) (now : Q) :
  0 <= _parse_retry_after v now.
Proof.
  unfold _parse_retry_after.
  destruct (negb (truthy_str v)); [lia|].
  destruct (Str.isdigit _).
  - destruct (Str.int _); lia.
  - destruct (parsedate_to_datetime _); lia.
Qed.

(** *** The loop when every request raises *)

Definition message (o : get_outcome) : option string :=
  match o with
  | RequestException msg => Some msg
  | Response _ _ _ => None
  end.

Definition raises (k : nat) : Prop := is_Some (message (snd (net k))).

Lemma attempt_body_raises (f : t) (url host : string) (start : Q)
    (k : nat) (s : state) :
  raises k →
  ∃ msg, message (snd (net k)) = Some msg ∧
    fst (attempt_body f url host start k s) = Caught msg ∧
    requests (snd (attempt_body f url host start k s)) = S (requests s).
Proof.
  intros [msg Hmsg]. exists msg. split; [done|].
  unfold attempt_body.
  destruct (RateLimiter.wait host (limiter s) (world s)) as [rl w1].
  destruct (net k) as [took out]. simpl in Hmsg.
  destruct out as [m|st h text]; [|discriminate].
  simpl in *. by inversion Hmsg.
Qed.

Lemma attempts_loop_all_raise (f : t) (url host : string) (start : Q)
    (attempts : list nat) (last_err : option string) (s : state) :
  Forall raises attempts →
  let r := fst (attempts_loop f url host start attempts last_err s) in
  let s' := snd (attempts_loop f url host start attempts last_err s) in
  requests s' = (requests s + length attempts)%nat
  ∧ status r = None ∧ headers r = [] ∧ content r = ""
  ∧ error r = foldl (λ _ k, message (snd (net k))) last_err attempts.
Proof.
  revert last_err s.
  induction attempts as [|k rest IH]; intros last_err s Hall; simpl.
  - split_and!; auto with lia.
  - apply Forall_cons in Hall as [Hk Hrest].
    destruct (attempt_body_raises f url host start k s Hk)
      as (msg & Hmsg & Hpass & Hreq).
    destruct (attempt_body f url host start k s) as [p s1]. simpl in *.
    subst p. rewrite Hmsg.
    destruct (IH (Some msg) s1 Hrest) as (H1 & H2 & H3 & H4 & H5).
    split_and!; auto. rewrite H1, Hreq. lia.
Qed.

Lemma foldl_message_last (n : nat) (last_err : option string) :
  foldl (λ _ k, message (snd (net k))) last_err (seq 1 (S n))
  = message (snd (net (S n))).
Proof.
  rewrite seq_S, foldl_app. reflexivity.
Qed.

(** C7.  [_parse_retry_after] returns 120 for ["120"]; for a header that
    is a date ([parsedate_to_datetime] reads it as the instant [dt]) it
    returns the whole seconds left until [dt], so 60 when [dt] is exactly
    60 seconds ahead, a value between 59 and 61 when [dt] is within one
    second of that, and in general a value within one second below the
    time left; it returns 0 for a missing (empty) value and for a value
    that is neither digits nor a date.  On a response with status 429 or
    503, one pass of the retry loop sends the request, sleeps
    [min(wait, 120)] seconds when the parsed [wait] is positive (and not at
    all for [wait = 0]), then ends in the [except] clause with the message
    "retryable status <status>", sleeps the backoff [attempt] seconds, and
    the loop goes on with the remaining attempts. *)
Theorem retry_after_parsing_and_sleep
    (f : t) (url host : string) (start now : Q) (k : nat) (s : state) :
  _parse_retry_after "120" now = 120
  ∧ (∀ v dt, v ≠ "" → Str.isdigit (Str.strip v) = false →
       parsedate_to_datetime (Str.strip v) = Some dt →
       ((dt - now == 60)%Q → _parse_retry_after v now = 60)
       ∧ ((59 <= dt - now)%Q → (dt - now <= 61)%Q →
            59 <= _parse_retry_after v now <= 61)
       ∧ ((0 <= dt - now)%Q →
            (inject_Z (_parse_retry_after v now) <= dt - now)%Q
            ∧ (dt - now < inject_Z (_parse_retry_after v now) + 1)%Q))
  ∧ _parse_retry_after "" now = 0
  ∧ (∀ v, Str.isdigit (Str.strip v) = false →
       parsedate_to_datetime (Str.strip v) = None →
       _parse_retry_after v now = 0)
  ∧ (∀ took st h text rest last_err,
       net k = (took, Response st h text) → st = 429 ∨ st = 503 →
       let w1 := tick took (snd (RateLimiter.wait host (limiter s) (world s))) in
       let wait := _parse_retry_after (hget_or_empty "Retry-After" h) (clock w1) in
       let p := attempt_body f url host start k s in
       fst p = Caught ("retryable status " +:+ pretty st)
       ∧ requests (snd p) = S (requests s)
       ∧ (0 < wait →
            slept (world (snd p))
            = slept w1 ++ [inject_Z (Z.min wait 120); inject_Z (Z.of_nat k)])
       ∧ (wait = 0 →
            slept (world (snd p)) = slept w1 ++ [inject_Z (Z.of_nat k)])
       ∧ attempts_loop f url host start (k :: rest) last_err s
         = attempts_loop f url host start rest
             (Some ("retryable status " +:+ pretty st)) (snd p)).
Proof.
  split_and!.
  - reflexivity.
  - intros v dt Hv Hd Hp.
    rewrite (parse_retry_after_date v dt now Hv Hd Hp). split_and!.
    + intros H60. rewrite (trunc_integer (dt - now) 60); [lia|lia|exact H60].
    + intros Hlo Hhi.
      assert (H0 : (0 <= dt - now)%Q) by lra.
      destruct (trunc_bounds _ H0) as [Ha Hb].
      pose proof (trunc_nonneg _ H0) as Hn.
      rewrite Z.max_r by done.
      assert (H1 : (inject_Z (trunc (dt - now)) <= inject_Z 61)%Q)
        by (change (inject_Z 61) with 61%Q; lra).
      assert (H2 : (inject_Z 58 < inject_Z (trunc (dt - now)))%Q)
        by (change (inject_Z 58) with 58%Q; lra).
      rewrite <- Zle_Qle in H1. rewrite <- Zlt_Qlt in H2. lia.
    + intros H0. pose proof (trunc_nonneg _ H0) as Hn.
      rewrite Z.max_r by done. apply trunc_bounds, H0.
  - reflexivity.
  - intros v. apply parse_retry_after_malformed.
  - intros took st h text rest last_err Hnet Hst w1 wait p.
    assert (Hcode : (st =? 429) || (st =? 503) = true).
    { destruct Hst as [->| ->]; reflexivity. }
    assert (Hp : p = (Caught ("retryable status " +:+ pretty st),
      mkState (fst (RateLimiter.wait host (limiter s) (world s)))
        (sleep (backoff k) (if 0 <? wait then sleep (capped wait) w1 else w1))
        (S (requests s)))).
    { subst p wait w1. unfold attempt_body.
      destruct (RateLimiter.wait host (limiter s) (world s)) as [rl w].
      rewrite Hnet. simpl. by rewrite Hcode. }
    split_and!.
    + by rewrite Hp.
    + by rewrite Hp.
    + intros Hw. rewrite Hp. simpl.
      apply Z.ltb_lt in Hw. rewrite Hw. simpl. by rewrite <- app_assoc.
    + intros Hw. rewrite Hp. simpl. by rewrite Hw.
    + simpl. fold p. by rewrite Hp.
Qed.

(** C8.  With [retries >= 0], if each of the [retries + 1] requests raises
    a [RequestException] (or a subclass), [fetch] sends exactly
    [retries + 1] requests and returns status [None], headers [{}], content
    [b""] and, as error, the message of the last request's exception. *)
Theorem fetch_exhausts_retries (f : t) (url : string) (s : state) :
  0 <= retries f →
  (∀ k, (1 <= k <= Z.to_nat (retries f + 1))%nat → raises k) →
  let r := fst (fetch f url s) in
  let s' := snd (fetch f url s) in
  Z.of_nat (requests s') = Z.of_nat (requests s) + (retries f + 1)
  ∧ status r = None ∧ headers r = [] ∧ content r = ""
  ∧ ∃ msg, snd (net (Z.to_nat (retries f + 1))) = RequestException msg
           ∧ error r = Some msg.
Proof.
  intros Hr Hall r s'.
  assert (Hforall : Forall raises (attempt_numbers f)).
  { apply Forall_forall. intros k Hk%list_elem_of_In%in_seq. apply Hall. lia. }
  destruct (attempts_loop_all_raise f url (netloc url) (clock (world s))
              (attempt_numbers f) None s Hforall) as (H1 & H2 & H3 & H4 & H5).
  fold (fetch f url s) in H1, H2, H3, H4, H5. fold r s' in H1, H2, H3, H4, H5.
  unfold attempt_numbers in *. rewrite length_seq in H1.
  split_and!; [lia|done|done|done|].
  destruct (Z.to_nat (retries f + 1)) as [|n] eqn:Hn; [lia|].
  rewrite foldl_message_last in H5.
  destruct (Hall (S n)) as [msg Hmsg]; [lia|].
  exists msg. split; [|by rewrite H5].
  destruct (snd (net (S n))); simpl in Hmsg; [by inversion Hmsg|discriminate].
Qed.

End WithLibraries.

(** *** A server that answers 503 with [Retry-After: 2], then 200 *)

Definition http_date : string := "Wed, 21 Oct 2015 07:28:00 GMT".

(** The one date this reader knows: 2015-10-21T07:28:00Z. *)
Definition parsedate_example (v : string) : option Q :=
  if String.eqb v http_date then Some 1445412480%Q else None.

Definition no_render (url : string) : option string := None.

Definition net_503_then_200 (k : nat) : Q * get_outcome :=
  match k with
  | 1%nat => ((1 # 2)%Q, Response 503 [("Retry-After", "2")] "")
  | _ => ((1 # 2)%Q, Response 200 [("Content-Type", "text/plain")] "ok")
  end.

(** A server that answers 503 with [Retry-After: 300]. *)
Definition net_503_long (k : nat) : Q * get_outcome :=
  ((1 # 2)%Q, Response 503 [("Retry-After", "300")] "").

Definition net_down (k : nat) : Q * get_outcome :=
  (1%Q, RequestException (if (k =? 3)%nat then "timed out" else "connection reset")).

(** An idle fetcher state at clock reading 1000, no rate limit. *)
Definition idle : state := mkState (RateLimiter.new 0) (mkWorld 1000 []) 0.

Lemma retry_after_parsing_and_sleep_witness :
  _parse_retry_after parsedate_example http_date 1445412420 = 60
  ∧ slept (world (snd (attempt_body parsedate_example no_render net_503_then_200
                         (mkFetcher 2 false) "https://bama.ir/" "bama.ir"
                         1000 1 idle)))
    = [inject_Z 2; inject_Z 1]
  ∧ slept (world (snd (attempt_body parsedate_example no_render net_503_long
                         (mkFetcher 2 false) "https://bama.ir/" "bama.ir"
                         1000 1 idle)))
    = [inject_Z 120; inject_Z 1].
Proof.
  destruct (retry_after_parsing_and_sleep parsedate_example no_render
              net_503_then_200 (mkFetcher 2 false) "https://bama.ir/" "bama.ir"
              1000 1445412420 1 idle) as (_ & Hdate & _ & _ & Hsleep).
  destruct (retry_after_parsing_and_sleep parsedate_example no_render
              net_503_long (mkFetcher 2 false) "https://bama.ir/" "bama.ir"
              1000 1445412420 1 idle) as (_ & _ & _ & _ & Hlong).
  split; [|split].
  - destruct (Hdate http_date 1445412480%Q) as (H60 & _ & _).
    + discriminate.
    + vm_compute. reflexivity.
    + vm_compute. reflexivity.
    + apply H60. vm_compute. reflexivity.
  - destruct (Hsleep (1 # 2)%Q 503 [("Retry-After", "2")] "" [] None)
      as (_ & _ & Hpos & _).
    + reflexivity.
    + right. reflexivity.
    + apply Hpos. vm_compute. reflexivity.
  - destruct (Hlong (1 # 2)%Q 503 [("Retry-After", "300")] "" [] None)
      as (_ & _ & Hpos & _).
    + reflexivity.
    + right. reflexivity.
    + apply Hpos. vm_compute. reflexivity.
Defined.

Lemma fetch_exhausts_retries_witness :
  requests (snd (fetch (λ _, "bama.ir") parsedate_example no_render net_down
                   (mkFetcher 2 false) "https://bama.ir/" idle)) = 3%nat
  ∧ error (fst (fetch (λ _, "bama.ir") parsedate_example no_render net_down
                  (mkFetcher 2 false) "https://bama.ir/" idle)) = Some "timed out".
Proof.
  destruct (fetch_exhausts_retries (λ _, "bama.ir") parsedate_example no_render
              net_down (mkFetcher 2 false) "https://bama.ir/" idle)
    as (Hreq & _ & _ & _ & msg & Hmsg & Herr).
  - simpl. lia.
  - intros k _. unfold raises, net_down. simpl. eexists. reflexivity.
  - split.
    + apply Nat2Z.inj. rewrite Hreq. reflexivity.
    + rewrite Herr. vm_compute in Hmsg. congruence.
Defined.

(** The scenario end to end: the first answer is 503 with
    [Retry-After: 2]; [fetch] sleeps 2 seconds, then the 1 second backoff,
    and returns the 200 of the second request. *)
Example fetch_503_then_200 :
  let r := fetch (λ _, "bama.ir") parsedate_example no_render net_503_then_200
             (mkFetcher 2 false) "https://bama.ir/" idle in
  status (fst r) = Some 200 ∧ error (fst r) = None
  ∧ requests (snd r) = 2%nat
  ∧ slept (world (snd r)) = [capped 2; backoff 1].
Proof. vm_compute. auto. Qed.

(** A page of type text/html whose body carries "g-recaptcha": [fetch]
    returns it with [error = "CAPTCHA_DETECTED"] and a non-null status. *)
Definition net_challenge (k : nat) : Q * get_outcome :=
  ((1 # 2)%Q,
   Response 200 [("Content-Type", "text/html; charset=utf-8")]
     "<html><div class='G-Recaptcha' data-sitekey='k'></div></html>").

Example fetch_detects_captcha :
  let r := fst (fetch (λ _, "bama.ir") parsedate_example no_render
                  net_challenge (mkFetcher 2 false) "https://bama.ir/" idle) in
  error r = Some "CAPTCHA_DETECTED" ∧ status r = Some 200.
Proof. vm_compute. auto. Qed.

End Fetcher.

(** * storage.py : the audit log, the edge log and the page store *)
Module Storage.

Record CrawlRecord : Type := mkRecord {
  url : string;
  parent_url : option string;
  depth : Z;
  status : option Z;
  content_type : string;
  size_bytes : option Z;
  fetch_sec : Q;
  error : option string
}.

(** What has been appended so far, oldest first. *)
Record t : Type := mkStorage {
  records : list CrawlRecord;         (* crawled.csv / crawled.jsonl *)
  edges : list (string * string);     (* graph_edges.csv *)
  pages : list (string * string)      (* repository: key and bytes written *)
}.

Definition save_record (rec : CrawlRecord) (st : t) : t :=
  mkStorage (records st ++ [rec]) (edges st) (pages st).

Definition save_edge (src dst : string) (st : t) : t :=
  mkStorage (records st) (edges st ++ [(src, dst)]) (pages st).

(** [Storage.save_html]: content beyond 10 MiB is cut; returns the number
    of bytes written. *)
Definition max_size : nat := 10 * 1024 * 1024.

Definition save_html (key content : string) (st : t) : Z * t :=
  let written := String.substring 0 max_size content in
  (Z.of_nat (String.length written),
   mkStorage (records st) (edges st) (pages st ++ [(key, written)])).

End Storage.

(** * parser.py : content type and domain tests *)
Module Parser.

(** [is_html_content]. *)
Definition is_html_content (h : Fetcher.Headers) : bool :=
  let ct :=
    match Fetcher.hget "Content-Type" h with
    | Some v => if truthy_str v then v else
        match Fetcher.hget "content-type" h with
        | Some v' => v'
        | None => ""
        end
    | None =>
        match Fetcher.hget "content-type" h with
        | Some v' => v'
        | None => ""
        end
    end in
  Str.contains "text/html" (Str.lower ct).

(** [same_reg_domain] for a single allowed domain (a [str]). *)
Definition same_reg_domain (netloc : string → string) (url allowed : string)
    (follow_subdomains : bool) : bool :=
  let host := Str.lower (netloc url) in
  if follow_subdomains then Str.endswith host allowed
  else String.eqb host allowed.

End Parser.

(** * frontier.py : the crawl orchestrator *)
Module Crawler.

(** The settings [Crawler.__init__] reads from [cfg]. *)
Record Config : Type := mkConfig {
  allowed_domain : string;
  max_pages : Z;
  max_depth : Z;
  store_html : bool;
  follow_subdomains : bool;
  captcha_quarantine_sec : Z;
  ad_min : Z;
  ad_max : Z;
  ad_step : Z;
  ad_low : Q;
  ad_high : Q;
  ad_err_high : Q
}.

(** The mutable fields of [Crawler] that the worker task and the adaptive
    controller touch. *)
Record t : Type := mkCrawler {
  db : DB.t;
  storage : Storage.t;
  pages_ok : Z;
  error_count : Z;
  non_html_count : Z;
  dup_insert_ignored : Z;
  total_bytes_saved : Z;
  timings : list (string * Q);
  unique_internal : gset string;
  unique_external : gset string;
  internal_links_unique : Z;
  external_links_unique : Z;
  quarantine : gmap string Q;
  stop_flag : bool;
  inflight_limit : Z;
  lat_window : list Q;
  err_window : list Q
}.

(** [Crawler.__init__] on an empty data directory (no checkpoint). *)
Definition init (cfg : Config) : t :=
  mkCrawler DB.init (Storage.mkStorage [] [] []) 0 0 0 0 0 [] ∅ ∅ 0 0 ∅ false
    (ad_min cfg) [] [].

(** Field updates. *)
Definition set_db (x : DB.t) (s : t) : t :=
  mkCrawler x (storage s) (pages_ok s) (error_count s) (non_html_count s)
    (dup_insert_ignored s) (total_bytes_saved s) (timings s)
    (unique_internal s) (unique_external s) (internal_links_unique s)
    (external_links_unique s) (quarantine s) (stop_flag s) (inflight_limit s)
    (lat_window s) (err_window s).

Definition set_storage (x : Storage.t) (s : t) : t :=
  mkCrawler (db s) x (pages_ok s) (error_count s) (non_html_count s)
    (dup_insert_ignored s) (total_bytes_saved s) (timings s)
    (unique_internal s) (unique_external s) (internal_links_unique s)
    (external_links_unique s) (quarantine s) (stop_flag s) (inflight_limit s)
    (lat_window s) (err_window s).

Definition set_pages_ok (x : Z) (s : t) : t :=
  mkCrawler (db s) (storage s) x (error_count s) (non_html_count s)
    (dup_insert_ignored s) (total_bytes_saved s) (timings s)
    (unique_internal s) (unique_external s) (internal_links_unique s)
    (external_links_unique s) (quarantine s) (stop_flag s) (inflight_limit s)
    (lat_window s) (err_window s).

Definition set_error_count (x : Z) (s : t) : t :=
  mkCrawler (db s) (storage s) (pages_ok s) x (non_html_count s)
    (dup_insert_ignored s) (total_bytes_saved s) (timings s)
    (unique_internal s) (unique_external s) (internal_links_unique s)
    (external_links_unique s) (quarantine s) (stop_flag s) (inflight_limit s)
    (lat_window s) (err_window s).

Definition set_non_html_count (x : Z) (s : t) : t :=
  mkCrawler (db s) (storage s) (pages_ok s) (error_count s) x
    (dup_insert_ignored s) (total_bytes_saved s) (timings s)
    (unique_internal s) (unique_external s) (internal_links_unique s)
    (external_links_unique s) (quarantine s) (stop_flag s) (inflight_limit s)
    (lat_window s) (err_window s).

Definition set_dup_insert_ignored (x : Z) (s : t) : t :=
  mkCrawler (db s) (storage s) (pages_ok s) (error_count s) (non_html_count s)
    x (total_bytes_saved s) (timings s)
    (unique_internal s) (unique_external s) (internal_links_unique s)
    (external_links_unique s) (quarantine s) (stop_flag s) (inflight_limit s)
    (lat_window s) (err_window s).

Definition set_total_bytes_saved (x : Z) (s : t) : t :=
  mkCrawler (db s) (storage s) (pages_ok s) (error_count s) (non_html_count s)
    (dup_insert_ignored s) x (timings s)
    (unique_internal s) (unique_external s) (internal_links_unique s)
    (external_links_unique s) (quarantine s) (stop_flag s) (inflight_limit s)
    (lat_window s) (err_window s).

Definition set_metrics (tm : list (string * Q)) (lat err : list Q) (s : t) : t :=
  mkCrawler (db s) (storage s) (pages_ok s) (error_count s) (non_html_count s)
    (dup_insert_ignored s) (total_bytes_saved s) tm
    (unique_internal s) (unique_external s) (internal_links_unique s)
    (external_links_unique s) (quarantine s) (stop_flag s) (inflight_limit s)
    lat err.

Definition set_internal (x : gset string) (n : Z) (s : t) : t :=
  mkCrawler (db s) (storage s) (pages_ok s) (error_count s) (non_html_count s)
    (dup_insert_ignored s) (total_bytes_saved s) (timings s)
    x (unique_external s) n
    (external_links_unique s) (quarantine s) (stop_flag s) (inflight_limit s)
    (lat_window s) (err_window s).

Definition set_external (x : gset string) (n : Z) (s : t) : t :=
  mkCrawler (db s) (storage s) (pages_ok s) (error_count s) (non_html_count s)
    (dup_insert_ignored s) (total_bytes_saved s) (timings s)
    (unique_internal s) x (internal_links_unique s)
    n (quarantine s) (stop_flag s) (inflight_limit s)
    (lat_window s) (err_window s).

Definition set_quarantine (x : gmap string Q) (s : t) : t :=
  mkCrawler (db s) (storage s) (pages_ok s) (error_count s) (non_html_count s)
    (dup_insert_ignored s) (total_bytes_saved s) (timings s)
    (unique_internal s) (unique_external s) (internal_links_unique s)
    (external_links_unique s) x (stop_flag s) (inflight_limit s)
    (lat_window s) (err_window s).

Definition set_stop_flag (x : bool) (s : t) : t :=
  mkCrawler (db s) (storage s) (pages_ok s) (error_count s) (non_html_count s)
    (dup_insert_ignored s) (total_bytes_saved s) (timings s)
    (unique_internal s) (unique_external s) (internal_links_unique s)
    (external_links_unique s) (quarantine s) x (inflight_limit s)
    (lat_window s) (err_window s).

Definition set_inflight_limit (x : Z) (s : t) : t :=
  mkCrawler (db s) (storage s) (pages_ok s) (error_count s) (non_html_count s)
    (dup_insert_ignored s) (total_bytes_saved s) (timings s)
    (unique_internal s) (unique_external s) (internal_links_unique s)
    (external_links_unique s) (quarantine s) (stop_flag s) x
    (lat_window s) (err_window s).

(** [deque(maxlen=200).append]: the oldest sample leaves when full. *)
Definition window_append (x : Q) (w : list Q) : list Q :=
  let w' := w ++ [x] in
  drop (length w' - 200) w'.

(** [1.0 if err else 0.0]. *)
Definition error_flag (err : option string) : Q :=
  if truthy_ostr err then 1%Q else 0%Q.

(** [status and 200 <= status < 300]. *)
Definition is_2xx (status : option Z) : bool :=
  match status with
  | Some n => negb (n =? 0) && (200 <=? n) && (n <? 300)
  | None => false
  end.

Section WithLibraries.

(** Library calls: [urlsplit(url).netloc]; the link extraction of
    [extract_links] (BeautifulSoup and URL normalisation); [sha256_hex]
    with the path [os.path.join] builds from it. *)
Variable netloc : string → string.
Variable extract_links : string → string → list string.
Variable sha_path : string → string.

(** One turn of [for discovered_url in links:] in a page at [depth]. *)
Definition process_link (cfg : Config) (url : string) (depth : Z)
    (discovered_url : string) (s : t) : t :=
  let is_internal :=
    Parser.same_reg_domain netloc discovered_url (allowed_domain cfg)
      (follow_subdomains cfg) in
  let s1 :=
    if is_internal then
      if bool_decide (discovered_url ∈ unique_internal s) then s
      else
        let u := {[discovered_url]} ∪ unique_internal s in
        set_internal u (Z.of_nat (size u)) s
    else
      if bool_decide (discovered_url ∈ unique_external s) then s
      else
        let u := {[discovered_url]} ∪ unique_external s in
        set_external u (Z.of_nat (size u)) s in
  let s2 := set_storage (Storage.save_edge url discovered_url (storage s1)) s1 in
  if is_internal then
    let '(inserted, db') :=
      DB.push_url discovered_url (depth + 1) (depth + 1) (Some url) (db s2) in
    let s3 := set_db db' s2 in
    if inserted then s3
    else set_dup_insert_ignored (dup_insert_ignored s3 + 1) s3
  else s2.

(** [with self._ok_lock:] around the guarded increment, as one step. *)
Definition count_page (cfg : Config) (s : t) : bool * t :=
  if (pages_ok s <? max_pages cfg) && negb (stop_flag s) then
    let s1 := set_pages_ok (pages_ok s + 1) s in
    (true, if max_pages cfg <=? pages_ok s1 then set_stop_flag true s1 else s1)
  else (false, s).

Definition record_of (url : string) (parent : option string) (depth : Z)
    (r : Fetcher.FetchResult) (ct : string) (size : option Z)
    (err : option string) : Storage.CrawlRecord :=
  Storage.mkRecord url parent depth (Fetcher.status r) ct size
    (Fetcher.elapsed r) err.

Definition save_record (rec : Storage.CrawlRecord) (s : t) : t :=
  set_storage (Storage.save_record rec (storage s)) s.

Definition mark_seen (url : string) (s : t) : t :=
  set_db (snd (DB.mark_seen url (db s))) s.

(** [Crawler._fetch_and_process], from the point where the fetch has
    returned [r]; [now] is the clock reading taken on the CAPTCHA path. *)
Definition process_result (cfg : Config) (url : string) (depth : Z)
    (parent : option string) (r : Fetcher.FetchResult) (now : Q) (s : t) : t :=
  let host := netloc url in
  let ct := match Fetcher.headers r with
            | [] => ""
            | h => Fetcher.hget_or_empty "Content-Type" h
            end in
  let size := if truthy_str (Fetcher.content r)
              then Some (Z.of_nat (String.length (Fetcher.content r)))
              else None in
  let err := Fetcher.error r in
  let s := set_metrics (timings s ++ [(url, Fetcher.elapsed r)])
             (window_append (Fetcher.elapsed r) (lat_window s))
             (window_append (error_flag err) (err_window s)) s in
  if bool_decide (err = Some "CAPTCHA_DETECTED") then
    let s := set_quarantine
               (<[host := (now + inject_Z (captcha_quarantine_sec cfg))%Q]>
                  (quarantine s)) s in
    let s := set_db (snd (DB.push_url url depth depth parent (db s))) s in
    let s := save_record (record_of url parent depth r ct size err) s in
    set_error_count (error_count s + 1) s
  else if truthy_ostr err then
    let s := save_record (record_of url parent depth r ct size err) s in
    let s := set_error_count (error_count s + 1) s in
    mark_seen url s
  else
    let ok_html :=
      is_2xx (Fetcher.status r)
      && Parser.is_html_content (Fetcher.headers r)
      && truthy_str (Fetcher.content r) in
    let s :=
      if ok_html then
        let s :=
          if store_html cfg then
            let '(n, st) :=
              Storage.save_html (sha_path url) (Fetcher.content r) (storage s) in
            set_total_bytes_saved (total_bytes_saved s + n) (set_storage st s)
          else s in
        let s := foldl (λ acc link, process_link cfg url depth link acc) s
                   (extract_links url (Fetcher.content r)) in
        let s := snd (count_page cfg s) in
        save_record (record_of url parent depth r ct size None) s
      else
        let s := if is_2xx (Fetcher.status r)
                 then set_non_html_count (non_html_count s + 1) s else s in
        save_record (record_of url parent depth r ct size None) s in
    mark_seen url s.

(** [Crawler._fetch_and_process]: the early exit under [_ok_lock], then the
    fetch (its result is [r]) and the processing above. *)
Definition _fetch_and_process (cfg : Config) (url : string) (depth : Z)
    (parent : option string) (r : Fetcher.FetchResult) (now : Q) (s : t) : t :=
  if (max_pages cfg <=? pages_ok s) || stop_flag s then s
  else process_result cfg url depth parent r now s.

(** The test of the scheduling loop on a popped URL:
    [until and time.time() < until]. *)
Definition quarantined (host : string) (now : Q) (s : t) : bool :=
  match quarantine s !! host with
  | Some until => negb (Qeq_bool until 0) && Time.gtb until now
  | None => false
  end.

(** [sum(w) / len(w)]. *)
Definition mean (w : list Q) : Q :=
  (foldr Qplus 0 w / inject_Z (Z.of_nat (length w)))%Q.

(** [Crawler._maybe_adapt]. *)
Definition _maybe_adapt (cfg : Config) (s : t) : t :=
  if (length (lat_window s) <? 10)%nat then s
  else
    let avg_lat := mean (lat_window s) in
    let err_rate := match err_window s with
                    | [] => 0%Q
                    | w => mean w
                    end in
    let q := DB.frontier_size (db s) in
    let s1 :=
      if Time.gtb (ad_low cfg) avg_lat
         && Time.gtb (ad_err_high cfg / 2) err_rate
         && (inflight_limit s <? q)
      then set_inflight_limit (Z.min (ad_max cfg) (inflight_limit s + ad_step cfg)) s
      else s in
    if Time.gtb avg_lat (ad_high cfg) || Time.gtb err_rate (ad_err_high cfg)
    then set_inflight_limit (Z.max (ad_min cfg) (inflight_limit s1 - ad_step cfg)) s1
    else s1.

(** *** The worker task, branch by branch *)

Lemma task_runs (cfg : Config) (url : string) (depth : Z)
    (parent : option string) (r : Fetcher.FetchResult) (now : Q) (s : t) :
  pages_ok s < max_pages cfg → stop_flag s = false →
  _fetch_and_process cfg url depth parent r now s
  = process_result cfg url depth parent r now s.
Proof.
  intros Hp Hs. unfold _fetch_and_process. rewrite Hs, orb_false_r.
  by destruct (Z.leb_spec (max_pages cfg) (pages_ok s)); [lia|].
Qed.

Lemma task_cancelled (cfg : Config) (url : string) (depth : Z)
    (parent : option string) (r : Fetcher.FetchResult) (now : Q) (s : t) :
  max_pages cfg <= pages_ok s ∨ stop_flag s = true →
  _fetch_and_process cfg url depth parent r now s = s.
Proof.
  intros [Hp|Hs]; unfold _fetch_and_process.
  - apply Z.leb_le in Hp. by rewrite Hp.
  - by rewrite Hs, orb_true_r.
Qed.

(** The links of a page change neither the error and non-HTML counters,
    nor the page counter, nor the seen set. *)
Lemma process_link_counters (cfg : Config) (url : string) (depth : Z)
    (link : string) (s : t) :
  let s' := process_link cfg url depth link s in
  error_count s' = error_count s ∧ non_html_count s' = non_html_count s
  ∧ pages_ok s' = pages_ok s ∧ stop_flag s' = stop_flag s.
Proof.
  unfold process_link.
  destruct (Parser.same_reg_domain _ _ _ _).
  - destruct (bool_decide _); simpl;
      destruct (DB.push_url _ _ _ _ _) as [[] ?]; simpl; auto.
  - destruct (bool_decide _); simpl; auto.
Qed.

Lemma process_links_counters (cfg : Config) (url : string) (depth : Z)
    (links : list string) (s : t) :
  let s' := foldl (λ acc link, process_link cfg url depth link acc) s links in
  error_count s' = error_count s ∧ non_html_count s' = non_html_count s
  ∧ pages_ok s' = pages_ok s ∧ stop_flag s' = stop_flag s.
Proof.
  revert s. induction links as [|l links IH]; intros s; simpl; [auto|].
  destruct (IH (process_link cfg url depth l s)) as (H1 & H2 & H3 & H4).
  destruct (process_link_counters cfg url depth l s) as (G1 & G2 & G3 & G4).
  simpl in *. split_and!; congruence.
Qed.

Lemma count_page_counters (cfg : Config) (s : t) :
  error_count (snd (count_page cfg s)) = error_count s
  ∧ non_html_count (snd (count_page cfg s)) = non_html_count s.
Proof.
  unfold count_page.
  destruct ((pages_ok s <? max_pages cfg) && negb (stop_flag s)); simpl; [|auto].
  destruct (max_pages cfg <=? pages_ok s + 1); simpl; auto.
Qed.

(** How [non_html_count] moves in one task, for every fetch result. *)
Lemma non_html_count_step (cfg : Config) (url : string) (depth : Z)
    (parent : option string) (r : Fetcher.FetchResult) (now : Q) (s : t) :
  non_html_count (process_result cfg url depth parent r now s)
  = if negb (truthy_ostr (Fetcher.error r))
       && is_2xx (Fetcher.status r)
       && negb (Parser.is_html_content (Fetcher.headers r)
                && truthy_str (Fetcher.content r))
    then non_html_count s + 1 else non_html_count s.
Proof.
  unfold process_result.
  destruct (bool_decide (Fetcher.error r = Some "CAPTCHA_DETECTED")) eqn:Hc.
  - apply bool_decide_eq_true in Hc. rewrite Hc. reflexivity.
  - destruct (truthy_ostr (Fetcher.error r)); [reflexivity|]. simpl.
    destruct (is_2xx (Fetcher.status r)); simpl; [|reflexivity].
    destruct (Parser.is_html_content (Fetcher.headers r)); simpl;
      [|reflexivity].
    destruct (truthy_str (Fetcher.content r)); simpl; [|reflexivity].
    match goal with
    | |- context [count_page cfg ?x] =>
        destruct (count_page_counters cfg x) as [_ ->]
    end.
    match goal with
    | |- context [foldl ?f ?x ?l] =>
        destruct (process_links_counters cfg url depth l x) as (_ & -> & _)
    end.
    destruct (store_html cfg); reflexivity.
Qed.

Lemma is_2xx_true (o : option Z) :
  is_2xx o = true → ∃ st, o = Some st ∧ 200 <= st < 300.
Proof.
  destruct o as [st|]; simpl; [|done].
  intros [[_ H1%Z.leb_le]%andb_true_iff H2%Z.ltb_lt]%andb_true_iff. eauto.
Qed.

Lemma push_url_keeps_seen (u : string) (p d : Z) (par : option string)
    (x : DB.t) :
  DB.seen (snd (DB.push_url u p d par x)) = DB.seen x.
Proof.
  destruct (DB.push_url_frontier u p d par x) as [->|[_ ->]]; reflexivity.
Qed.

(** C6.  A task that was not cancelled at entry and whose fetch came back
    with [error == "CAPTCHA_DETECTED"] for a URL at depth [d]: it sets the
    host's quarantine stamp to [now + captcha_quarantine_sec] and leaves the
    other hosts' stamps alone, so the scheduling loop's test finds the host
    quarantined at every time before that stamp and not from it on; it
    calls [push_url(url, d, d, parent)], which for a URL the frontier does
    not hold (the usual case, the URL was popped) appends the row with
    priority [d] and depth [d]; it adds 1 to [error_count]; it appends one
    audit record carrying the status and the error; and it leaves the seen
    set, [pages_ok] and [non_html_count] as they were. *)
Theorem captcha_requeues_and_quarantines
    (cfg : Config) (url : string) (d : Z) (parent : option string)
    (r : Fetcher.FetchResult) (now : Q) (s : t) :
  pages_ok s < max_pages cfg → stop_flag s = false →
  Fetcher.error r = Some "CAPTCHA_DETECTED" →
  let s' := _fetch_and_process cfg url d parent r now s in
  let until := (now + inject_Z (captcha_quarantine_sec cfg))%Q in
  quarantine s' !! netloc url = Some until
  ∧ (∀ host, host ≠ netloc url → quarantine s' !! host = quarantine s !! host)
  ∧ (∀ t, (t < until)%Q → ¬ (until == 0)%Q →
       quarantined (netloc url) t s' = true)
  ∧ (∀ t, (until <= t)%Q → quarantined (netloc url) t s' = false)
  ∧ db s' = snd (DB.push_url url d d parent (db s))
  ∧ (url ≠ "" → (String.length url <= 2048)%nat →
     url ∉ DB.urls (DB.frontier (db s)) →
       DB.frontier (db s') = DB.frontier (db s) ++ [DB.mkRow url d d parent])
  ∧ error_count s' = error_count s + 1
  ∧ (∃ ct size,
       Storage.records (storage s')
       = Storage.records (storage s)
         ++ [Storage.mkRecord url parent d (Fetcher.status r) ct size
               (Fetcher.elapsed r) (Some "CAPTCHA_DETECTED")])
  ∧ DB.seen (db s') = DB.seen (db s)
  ∧ pages_ok s' = pages_ok s
  ∧ non_html_count s' = non_html_count s.
Proof.
  intros Hp Hs Herr s' until.
  assert (Hs' : s' = process_result cfg url d parent r now s)
    by (by apply task_runs).
  unfold process_result in Hs'. rewrite Herr in Hs'. simpl in Hs'.
  fold until in Hs'.
  assert (Hq : quarantine s' = <[netloc url := until]> (quarantine s))
    by (by rewrite Hs').
  assert (Hdb : db s' = snd (DB.push_url url d d parent (db s)))
    by (by rewrite Hs').
  split_and!.
  - rewrite Hq. apply lookup_insert_eq.
  - intros host Hne. rewrite Hq. by apply lookup_insert_ne.
  - intros t Ht Hnz. unfold quarantined. rewrite Hq, lookup_insert_eq.
    apply andb_true_iff. split.
    + apply negb_true_iff, not_true_iff_false. intros H%Qeq_bool_iff. auto.
    + by apply Time.gtb_true.
  - intros t Ht. unfold quarantined. rewrite Hq, lookup_insert_eq.
    apply andb_false_iff. right. by apply Time.gtb_false.
  - done.
  - intros Hne Hlen Hfresh. rewrite Hdb.
    by rewrite (DB.push_url_fresh url d d parent (db s) Hne Hlen Hfresh).
  - by rewrite Hs'.
  - eexists _, _. rewrite Hs'. simpl. reflexivity.
  - rewrite Hdb. apply push_url_keeps_seen.
  - by rewrite Hs'.
  - by rewrite Hs'.
Qed.

(** C10 (as amended).  A task that was not cancelled at entry and whose
    fetch returned no error and a status outside 200..299 changes neither
    [error_count] nor [non_html_count] nor [pages_ok]; it appends one
    audit record with that status and no error, and marks the URL seen.
    Whatever the fetch returned, [non_html_count] moves only by +1, and
    only when there is no error, the status is 2xx, and the response is not
    an HTML page in the sense of [ok_html]: its content type is not HTML,
    or its body is empty. *)
Theorem non_2xx_counts_nothing
    (cfg : Config) (url : string) (d : Z) (parent : option string)
    (r : Fetcher.FetchResult) (now : Q) (s : t) :
  let s' := _fetch_and_process cfg url d parent r now s in
  (pages_ok s < max_pages cfg → stop_flag s = false →
   truthy_ostr (Fetcher.error r) = false →
   ∀ st, Fetcher.status r = Some st → ¬ (200 <= st < 300) →
     error_count s' = error_count s
     ∧ non_html_count s' = non_html_count s
     ∧ pages_ok s' = pages_ok s
     ∧ (∃ ct size,
          Storage.records (storage s')
          = Storage.records (storage s)
            ++ [Storage.mkRecord url parent d (Some st) ct size
                  (Fetcher.elapsed r) None])
     ∧ DB.is_seen url (db s') = true
     ∧ DB.frontier (db s') = DB.frontier (db s))
  ∧ (non_html_count s' ≠ non_html_count s →
       non_html_count s' = non_html_count s + 1
       ∧ truthy_ostr (Fetcher.error r) = false
       ∧ (∃ st, Fetcher.status r = Some st ∧ 200 <= st < 300)
       ∧ (Parser.is_html_content (Fetcher.headers r) = false
          ∨ Fetcher.content r = "")).
Proof.
  intros s'. split.
  - intros Hp Hs Herr st Hst Hnot.
    assert (Hs' : s' = process_result cfg url d parent r now s)
      by (by apply task_runs).
    assert (H2xx : is_2xx (Fetcher.status r) = false).
    { rewrite Hst. simpl. apply not_true_iff_false.
      intros [[_ H1%Z.leb_le]%andb_true_iff H2%Z.ltb_lt]%andb_true_iff. lia. }
    unfold process_result in Hs'.
    assert (Hc : bool_decide (Fetcher.error r = Some "CAPTCHA_DETECTED") = false).
    { apply bool_decide_eq_false. intros He. by rewrite He in Herr. }
    rewrite Hc, Herr, H2xx in Hs'. simpl in Hs'.
    split_and!; try (by rewrite Hs').
    + eexists _, _. rewrite Hs'. simpl. unfold record_of. rewrite Hst.
      reflexivity.
    + rewrite Hs'. simpl. unfold DB.is_seen. simpl.
      apply bool_decide_eq_true. set_solver.
  - intros Hmoved.
    destruct (decide (pages_ok s < max_pages cfg ∧ stop_flag s = false))
      as [[Hp Hs]|Hcancel].
    + assert (Hs' : s' = process_result cfg url d parent r now s)
        by (by apply task_runs).
      rewrite Hs' in *. rewrite non_html_count_step in *.
      destruct (truthy_ostr (Fetcher.error r)); simpl in *; [done|].
      destruct (is_2xx (Fetcher.status r)) eqn:H2xx; simpl in *; [|done].
      apply is_2xx_true in H2xx.
      destruct (Parser.is_html_content (Fetcher.headers r)); simpl in *.
      * destruct (truthy_str (Fetcher.content r)) eqn:Hcontent; simpl in *;
          [done|].
        apply truthy_str_false in Hcontent. auto.
      * auto.
    + exfalso. apply Hmoved. subst s'. rewrite task_cancelled; [done|].
      destruct (stop_flag s); [by right|].
      left. destruct (Z.le_gt_cases (max_pages cfg) (pages_ok s)); [done|].
      exfalso. apply Hcancel. split; [lia|done].
Qed.

End WithLibraries.

(** C9 (as amended).  With [ad_min <= ad_max], a step [ad_step >= 0] and
    [inflight_limit] in [[ad_min, ad_max]], one call of [_maybe_adapt]
    leaves [inflight_limit] in [[ad_min, ad_max]]; and with fewer than 10
    latency samples the call changes nothing at all. *)
Theorem maybe_adapt_within_bounds (cfg : Config) (s : t) :
  ad_min cfg <= ad_max cfg → 0 <= ad_step cfg →
  ad_min cfg <= inflight_limit s <= ad_max cfg →
  ad_min cfg <= inflight_limit (_maybe_adapt cfg s) <= ad_max cfg
  ∧ ((length (lat_window s) < 10)%nat → _maybe_adapt cfg s = s).
Proof.
  intros Hmm Hstep Hin. split.
  - unfold _maybe_adapt.
    destruct (length (lat_window s) <? 10)%nat; [done|].
    destruct (_ && _ && (inflight_limit s <? _));
      destruct (_ || _); simpl; lia.
  - intros Hlen. unfold _maybe_adapt.
    apply Nat.ltb_lt in Hlen. by rewrite Hlen.
Qed.

(** *** Concrete runs *)

Definition netloc_example (url : string) : string := "bama.ir".
Definition no_links (base html : string) : list string := [].
Definition sha_path_example (url : string) : string := "ab/cd/abcd.html".

Definition cfg_example : Config :=
  mkConfig "bama.ir" 100 3 true true 900 4 32 2 (1 # 2) 2 (15 # 100).

(** The same settings with [adaptive_step: -2]. *)
Definition cfg_negative_step : Config :=
  mkConfig "bama.ir" 100 3 true true 900 4 32 (-2) (1 # 2) 2 (15 # 100).

Definition captcha_page : Fetcher.FetchResult :=
  Fetcher.mkResult (Some 200) [("Content-Type", "text/html")]
    "<div class='g-recaptcha'></div>" (3 # 10) (Some "CAPTCHA_DETECTED").

Definition not_found : Fetcher.FetchResult :=
  Fetcher.mkResult (Some 404) [("Content-Type", "text/html")]
    "<h1>not found</h1>" (1 # 10) None.

(** A 200 answer of content type [text/html] with an empty body. *)
Definition empty_html : Fetcher.FetchResult :=
  Fetcher.mkResult (Some 200) [("Content-Type", "text/html")] "" (1 # 10) None.

(** Ten fast, error-free samples and five URLs waiting. *)
Definition busy (cfg : Config) : t :=
  set_metrics [] (replicate 10 (1 # 10)%Q) (replicate 10 0%Q)
    (set_db (DB.mkDB (map (λ u, DB.mkRow u 1 1 None) ["a"; "b"; "c"; "d"; "e"]) ∅)
       (init cfg)).

Lemma captcha_requeues_and_quarantines_witness :
  let s' := _fetch_and_process netloc_example no_links sha_path_example
              cfg_example "https://bama.ir/car" 2 (Some "https://bama.ir/")
              captcha_page 1000 (init cfg_example) in
  quarantine s' !! "bama.ir" = Some (1000 + inject_Z 900)%Q
  ∧ DB.frontier (db s')
    = [DB.mkRow "https://bama.ir/car" 2 2 (Some "https://bama.ir/")]
  ∧ error_count s' = 1
  ∧ DB.seen (db s') = ∅.
Proof.
  destruct (captcha_requeues_and_quarantines netloc_example no_links
              sha_path_example cfg_example "https://bama.ir/car" 2
              (Some "https://bama.ir/") captcha_page 1000 (init cfg_example))
    as (Hq & _ & _ & _ & _ & Hrow & Herr & _ & Hseen & _).
  - reflexivity.
  - reflexivity.
  - reflexivity.
  - split_and!.
    + exact Hq.
    + apply Hrow; [discriminate | simpl; lia | apply not_elem_of_nil].
    + exact Herr.
    + exact Hseen.
Defined.

Lemma non_2xx_counts_nothing_witness :
  let s' := _fetch_and_process netloc_example no_links sha_path_example
              cfg_example "https://bama.ir/gone" 1 (Some "https://bama.ir/")
              not_found 1000 (init cfg_example) in
  error_count s' = 0 ∧ non_html_count s' = 0
  ∧ DB.is_seen "https://bama.ir/gone" (db s') = true.
Proof.
  destruct (non_2xx_counts_nothing netloc_example no_links sha_path_example
              cfg_example "https://bama.ir/gone" 1 (Some "https://bama.ir/")
              not_found 1000 (init cfg_example)) as [Hnon2xx _].
  destruct (Hnon2xx ltac:(reflexivity) eq_refl eq_refl 404 eq_refl)
    as (He & Hn & _ & _ & Hseen & _).
  - lia.
  - split_and!; [exact He | exact Hn | exact Hseen].
Defined.

(** C10, the case the claim misses: a 200 answer whose content type is
    HTML and whose body is empty is counted in [non_html_count]. *)
Lemma empty_html_counted_as_non_html :
  Parser.is_html_content (Fetcher.headers empty_html) = true
  ∧ non_html_count
      (_fetch_and_process netloc_example no_links sha_path_example
         cfg_example "https://bama.ir/empty" 1 (Some "https://bama.ir/")
         empty_html 1000 (init cfg_example))
    = non_html_count (init cfg_example) + 1.
Proof. split; reflexivity. Qed.

Lemma maybe_adapt_within_bounds_witness :
  4 <= inflight_limit (_maybe_adapt cfg_example (busy cfg_example)) <= 32.
Proof.
  apply (maybe_adapt_within_bounds cfg_example (busy cfg_example)).
  - simpl. lia.
  - simpl. lia.
  - simpl. lia.
Defined.

(** C9, the case the claim misses: with a negative step the "increase"
    branch lowers the limit below [ad_min]. *)
Lemma maybe_adapt_negative_step_leaves_bounds :
  ad_min cfg_negative_step <= ad_max cfg_negative_step
  ∧ ad_min cfg_negative_step <= inflight_limit (busy cfg_negative_step)
      <= ad_max cfg_negative_step
  ∧ inflight_limit (_maybe_adapt cfg_negative_step (busy cfg_negative_step)) = 2
  ∧ ¬ (ad_min cfg_negative_step
       <= inflight_limit (_maybe_adapt cfg_negative_step (busy cfg_negative_step))).
Proof.
  assert (H : inflight_limit (_maybe_adapt cfg_negative_step (busy cfg_negative_step)) = 2)
    by reflexivity.
  rewrite H. simpl. lia.
Qed.

End Crawler.

(** * The page counter under [_ok_lock]

    Lines 592-598 of [_fetch_and_process], run by several workers at once.
    Each worker goes through the statements one at a time, and the
    scheduler may switch workers between any two of them; [pages_ok += 1]
    is a read followed by a write.  [ok_lock] records which worker holds
    [self._ok_lock]. *)
Module OkLock.

(** The statement a worker is about to execute. *)
Inductive pc : Type :=
| Acquire      (* with self._ok_lock: *)
| Guard        (* if self.pages_ok < self.max_pages and not self.stop_flag: *)
| Load         (* self.pages_ok += 1   (read) *)
| Store        (* self.pages_ok += 1   (write) *)
| SetCounted   (* counted = True *)
| Ceiling      (* if self.pages_ok >= self.max_pages: *)
| SetStop      (* self.stop_flag = True *)
| Release      (* end of the with block *)
| Done.

(** A worker: its position, the value it read, and its local [counted]. *)
Record thread : Type := mkThread {
  at_pc : pc;
  tmp : Z;
  counted : bool
}.

Record shared : Type := mkShared {
  pages_ok : Z;
  stop_flag : bool;
  ok_lock : option nat
}.

Record system : Type := mkSystem {
  mem : shared;
  threads : list thread
}.

Definition goto (p : pc) (th : thread) : thread :=
  mkThread p (tmp th) (counted th).

(** One statement of worker [i]; [None] when it cannot move (the lock is
    taken, or the worker has finished). *)
Definition thread_step (max_pages : Z) (i : nat) (m : shared) (th : thread)
    : option (shared * thread) :=
  match at_pc th with
  | Acquire =>
      match ok_lock m with
      | None => Some (mkShared (pages_ok m) (stop_flag m) (Some i), goto Guard th)
      | Some _ => None
      end
  | Guard =>
      if (pages_ok m <? max_pages) && negb (stop_flag m)
      then Some (m, goto Load th)
      else Some (m, goto Release th)
  | Load => Some (m, mkThread Store (pages_ok m) (counted th))
  | Store =>
      Some (mkShared (tmp th + 1) (stop_flag m) (ok_lock m), goto SetCounted th)
  | SetCounted => Some (m, mkThread Ceiling (tmp th) true)
  | Ceiling =>
      if max_pages <=? pages_ok m
      then Some (m, goto SetStop th)
      else Some (m, goto Release th)
  | SetStop =>
      Some (mkShared (pages_ok m) true (ok_lock m), goto Release th)
  | Release =>
      Some (mkShared (pages_ok m) (stop_flag m) None, goto Done th)
  | Done => None
  end.

(** What the scheduler can pick: a statement of worker [i], or
    [Crawler.stop()] arriving from the key listener or the signal handler
    ([self.stop_flag = True], outside the lock). *)
Inductive event : Type :=
| Run (i : nat)
| StopRequest.

Definition step (max_pages : Z) (e : event) (sys : system) : system :=
  match e with
  | StopRequest =>
      mkSystem (mkShared (pages_ok (mem sys)) true (ok_lock (mem sys)))
        (threads sys)
  | Run i =>
      match threads sys !! i with
      | Some th =>
          match thread_step max_pages i (mem sys) th with
          | Some (m', th') => mkSystem m' (<[i := th']> (threads sys))
          | None => sys
          end
      | None => sys
      end
  end.

(** A schedule, run from left to right. *)
Definition exec (max_pages : Z) (sched : list event) (sys : system) : system :=
  foldl (λ s e, step max_pages e s) sys sched.

(** [n] workers about to enter the block, with the counter at [p]. *)
Definition start (p : Z) (stop : bool) (n : nat) : system :=
  mkSystem (mkShared p stop None) (replicate n (mkThread Acquire 0 false)).

Definition is_run (e : event) : Prop :=
  match e with Run _ => True | StopRequest => False end.

(** The block is at most eight statements long: worker [i] alone. *)
Definition solo (i : nat) : list event := replicate 8 (Run i).

(** The workers [k], [k+1], ..., [k+n-1], one after the other. *)
Definition one_by_one (k n : nat) : list event :=
  concat (map solo (seq k n)).

Definition finished (sys : system) : Prop :=
  Forall (λ th, at_pc th = Done) (threads sys).

(** Worker [i] counted its page ([counted = True] after the block). *)
Definition counted_by (sys : system) (i : nat) : Prop :=
  ∃ th, threads sys !! i = Some th ∧ counted th = true.

(** The positions inside the [with] block. *)
Definition inside (p : pc) : bool :=
  match p with
  | Acquire | Done => false
  | _ => true
  end.

(** *** Steps *)

Lemma step_run_cases (max_pages : Z) (i : nat) (sys : system) :
  step max_pages (Run i) sys = sys
  ∨ ∃ th m' th',
      threads sys !! i = Some th
      ∧ thread_step max_pages i (mem sys) th = Some (m', th')
      ∧ step max_pages (Run i) sys = mkSystem m' (<[i := th']> (threads sys)).
Proof.
  unfold step. destruct (threads sys !! i) as [th|] eqn:Hth; [|by left].
  destruct (thread_step max_pages i (mem sys) th) as [[m' th']|] eqn:Hst;
    [|by left].
  right. eauto 10.
Qed.

Lemma lookup_updated (l : list thread) (i j : nat) (th' x : thread) :
  <[i := th']> l !! j = Some x →
  (j = i ∧ x = th') ∨ (j ≠ i ∧ l !! j = Some x).
Proof.
  intros H. apply list_lookup_insert_Some in H as [(-> & -> & _)|[? ?]]; auto.
Qed.

Lemma lookup_updated_same (l : list thread) (i : nat) (th th' : thread) :
  l !! i = Some th → <[i := th']> l !! i = Some th'.
Proof.
  intros H. apply list_lookup_insert_eq. by eapply lookup_lt_Some.
Qed.

Lemma exec_snoc (max_pages : Z) (sched : list event) (e : event) (sys : system) :
  exec max_pages (sched ++ [e]) sys = step max_pages e (exec max_pages sched sys).
Proof. unfold exec. by rewrite foldl_app. Qed.

(** *** Mutual exclusion and the bound *)

(** A worker is inside the block exactly when it holds the lock. *)
Definition mutex (sys : system) : Prop :=
  ∀ i th, threads sys !! i = Some th →
    (inside (at_pc th) = true ↔ ok_lock (mem sys) = Some i).

(** The counter is within the bound, and so is the value a worker is about
    to write. *)
Definition bounded (max_pages : Z) (sys : system) : Prop :=
  pages_ok (mem sys) <= max_pages
  ∧ mutex sys
  ∧ ∀ i th, threads sys !! i = Some th →
      (at_pc th = Load → pages_ok (mem sys) < max_pages)
      ∧ (at_pc th = Store →
           tmp th = pages_ok (mem sys) ∧ pages_ok (mem sys) < max_pages).

Lemma replicate_lookup_start (n i : nat) (th : thread) :
  replicate n (mkThread Acquire 0 false) !! i = Some th →
  th = mkThread Acquire 0 false.
Proof. by intros [-> _]%lookup_replicate. Qed.

Lemma bounded_start (max_pages p : Z) (stop : bool) (n : nat) :
  p <= max_pages → bounded max_pages (start p stop n).
Proof.
  intros Hp. split_and!; simpl.
  - done.
  - intros i th ->%replicate_lookup_start. simpl. split; discriminate.
  - intros i th ->%replicate_lookup_start. simpl. split; discriminate.
Qed.

(** While the lock is free or held by worker [i], every other worker is
    outside the block. *)
Lemma others_outside (sys : system) (i : nat) :
  mutex sys →
  ok_lock (mem sys) = None ∨ ok_lock (mem sys) = Some i →
  ∀ j x, j ≠ i → threads sys !! j = Some x → inside (at_pc x) = false.
Proof.
  intros Hmx Hlock j x Hne Hj.
  destruct (inside (at_pc x)) eqn:Hin; [|done].
  apply (Hmx j x Hj) in Hin. destruct Hlock as [H|H]; congruence.
Qed.

Lemma holder_inside (sys : system) (i : nat) (th : thread) :
  mutex sys → threads sys !! i = Some th → inside (at_pc th) = true →
  ok_lock (mem sys) = Some i.
Proof. intros Hmx Hi Hin. by apply (Hmx i th Hi). Qed.

(** A worker standing inside the block holds the lock: from its position
    [Hpc], derive [Hlock : ok_lock (mem sys) = Some i]. *)
Ltac lock_held Hmx Hi Hpc :=
  let H := fresh "Hlock" in
  pose proof (holder_inside _ _ _ Hmx Hi) as H;
  rewrite Hpc in H; specialize (H eq_refl).

(** The three ways a step moves a worker with respect to the block. *)
Lemma mutex_enter (sys : system) (i : nat) (th th' : thread) (m' : shared) :
  mutex sys → threads sys !! i = Some th →
  ok_lock (mem sys) = None → ok_lock m' = Some i → inside (at_pc th') = true →
  mutex (mkSystem m' (<[i := th']> (threads sys))).
Proof.
  intros Hmx Hi Hfree Hm' Hin j x Hj. simpl in *.
  apply lookup_updated in Hj as [[-> ->]|[Hne Hj]].
  - by rewrite Hin, Hm'.
  - rewrite (others_outside sys i Hmx (or_introl Hfree) j x Hne Hj), Hm'.
    split; [discriminate|]. intros [=]. congruence.
Qed.

Lemma mutex_stay (sys : system) (i : nat) (th th' : thread) (m' : shared) :
  mutex sys → threads sys !! i = Some th →
  inside (at_pc th) = true → inside (at_pc th') = true →
  ok_lock m' = ok_lock (mem sys) →
  mutex (mkSystem m' (<[i := th']> (threads sys))).
Proof.
  intros Hmx Hi Hin Hin' Hm' j x Hj. simpl in *.
  pose proof (holder_inside sys i th Hmx Hi Hin) as Hlock.
  apply lookup_updated in Hj as [[-> ->]|[Hne Hj]].
  - by rewrite Hin', Hm', Hlock.
  - rewrite (others_outside sys i Hmx (or_intror Hlock) j x Hne Hj), Hm', Hlock.
    split; [discriminate|]. intros [=]. congruence.
Qed.

Lemma mutex_leave (sys : system) (i : nat) (th th' : thread) (m' : shared) :
  mutex sys → threads sys !! i = Some th →
  inside (at_pc th) = true → inside (at_pc th') = false →
  ok_lock m' = None →
  mutex (mkSystem m' (<[i := th']> (threads sys))).
Proof.
  intros Hmx Hi Hin Hin' Hm' j x Hj. simpl in *.
  pose proof (holder_inside sys i th Hmx Hi Hin) as Hlock.
  apply lookup_updated in Hj as [[-> ->]|[Hne Hj]].
  - by rewrite Hin', Hm'.
  - by rewrite (others_outside sys i Hmx (or_intror Hlock) j x Hne Hj), Hm'.
Qed.

Lemma mutex_stop_request (max_pages : Z) (sys : system) :
  mutex sys → mutex (step max_pages StopRequest sys).
Proof. intros Hmx i th Hi. simpl in *. by apply Hmx. Qed.

(** A worker outside the block is at neither half of the increment. *)
Lemma outside_not_incrementing (x : thread) :
  inside (at_pc x) = false → at_pc x ≠ Load ∧ at_pc x ≠ Store.
Proof. destruct (at_pc x); simpl; intros; split; congruence. Qed.

Lemma bounded_step (max_pages : Z) (e : event) (sys : system) :
  bounded max_pages sys → bounded max_pages (step max_pages e sys).
Proof.
  intros (Hle & Hmx & Hth). destruct e as [i|].
  2:{ split_and!; [done | by apply mutex_stop_request | by apply Hth]. }
  destruct (step_run_cases max_pages i sys)
    as [->|(th & m' & th' & Hi & Hst & ->)]; [by split_and!|].
  destruct (Hth i th Hi) as [HL HS].
  assert (Hothers : ok_lock (mem sys) = None ∨ ok_lock (mem sys) = Some i →
            ∀ j x, j ≠ i → threads sys !! j = Some x →
              at_pc x ≠ Load ∧ at_pc x ≠ Store).
  { intros Hlock j x Hne Hj. apply outside_not_incrementing.
    by apply (others_outside sys i Hmx Hlock j x). }
  unfold thread_step in Hst.
  destruct (at_pc th) eqn:Hpc.
  - (* Acquire *)
    destruct (ok_lock (mem sys)) eqn:Hfree; [done|]. inversion Hst; subst.
    split_and!; simpl.
    + done.
    + by eapply mutex_enter.
    + intros j x [[-> ->]|[Hne Hj]]%lookup_updated; simpl.
      * split; discriminate.
      * destruct (Hothers (or_introl eq_refl) j x Hne Hj). by split.
  - (* Guard *)
    lock_held Hmx Hi Hpc.
    destruct (_ && _) eqn:Hg; inversion Hst; subst;
      (split_and!; simpl;
       [ done
       | by eapply mutex_stay; eauto; rewrite ?Hpc
       | intros j x [[-> ->]|[Hne Hj]]%lookup_updated; simpl;
         [ | destruct (Hothers (or_intror Hlock) j x Hne Hj); by split ] ]).
    + apply andb_true_iff in Hg as [Hlt%Z.ltb_lt _]. split; [done|discriminate].
    + split; discriminate.
  - (* Load *)
    lock_held Hmx Hi Hpc.
    inversion Hst; subst.
    split_and!; simpl.
    + done.
    + by eapply mutex_stay; eauto; rewrite ?Hpc.
    + intros j x [[-> ->]|[Hne Hj]]%lookup_updated; simpl.
      * split; [discriminate|]. intros _. split; [done|by apply HL].
      * destruct (Hothers (or_intror Hlock) j x Hne Hj). by split.
  - (* Store *)
    lock_held Hmx Hi Hpc.
    destruct (HS eq_refl) as [Htmp Hlt].
    inversion Hst; subst.
    split_and!; simpl.
    + lia.
    + by eapply mutex_stay; eauto; rewrite ?Hpc.
    + intros j x [[-> ->]|[Hne Hj]]%lookup_updated; simpl.
      * split; discriminate.
      * destruct (Hothers (or_intror Hlock) j x Hne Hj). by split.
  - (* SetCounted *)
    lock_held Hmx Hi Hpc.
    inversion Hst; subst.
    split_and!; simpl.
    + done.
    + by eapply mutex_stay; eauto; rewrite ?Hpc.
    + intros j x [[-> ->]|[Hne Hj]]%lookup_updated; simpl.
      * split; discriminate.
      * destruct (Hothers (or_intror Hlock) j x Hne Hj). by split.
  - (* Ceiling *)
    lock_held Hmx Hi Hpc.
    destruct (max_pages <=? _); inversion Hst; subst;
      (split_and!; simpl;
       [ done
       | by eapply mutex_stay; eauto; rewrite ?Hpc
       | intros j x [[-> ->]|[Hne Hj]]%lookup_updated; simpl;
         [ split; discriminate
         | destruct (Hothers (or_intror Hlock) j x Hne Hj); by split ] ]).
  - (* SetStop *)
    lock_held Hmx Hi Hpc.
    inversion Hst; subst.
    split_and!; simpl.
    + done.
    + by eapply mutex_stay; eauto; rewrite ?Hpc.
    + intros j x [[-> ->]|[Hne Hj]]%lookup_updated; simpl.
      * split; discriminate.
      * destruct (Hothers (or_intror Hlock) j x Hne Hj). by split.
  - (* Release *)
    lock_held Hmx Hi Hpc.
    inversion Hst; subst.
    split_and!; simpl.
    + done.
    + by eapply mutex_leave; eauto; rewrite ?Hpc.
    + intros j x [[-> ->]|[Hne Hj]]%lookup_updated; simpl.
      * split; discriminate.
      * destruct (Hothers (or_intror Hlock) j x Hne Hj). by split.
  - (* Done *)
    done.
Qed.

Lemma bounded_exec (max_pages : Z) (sched : list event) (sys : system) :
  bounded max_pages sys → bounded max_pages (exec max_pages sched sys).
Proof.
  revert sys. induction sched as [|e sched IH]; intros sys H; [done|].
  simpl. apply IH. by apply bounded_step.
Qed.

(** *** The race at [max_pages - 1] *)

(** Before anyone has written the counter: every worker is still in the
    first half of the block and has counted nothing. *)
Definition early (max_pages : Z) (th : thread) : Prop :=
  counted th = false
  ∧ match at_pc th with
    | Acquire | Guard | Load => True
    | Store => tmp th = max_pages - 1
    | _ => False
    end.

(** The worker that wrote [max_pages]: where it stands fixes its
    [counted] and the stop flag. *)
Definition winner (m : shared) (th : thread) : Prop :=
  match at_pc th with
  | SetCounted => counted th = false ∧ stop_flag m = false
  | Ceiling | SetStop => counted th = true ∧ stop_flag m = false
  | Release | Done => counted th = true ∧ stop_flag m = true
  | _ => False
  end.

(** Every other worker, once the ceiling is reached: it counts nothing. *)
Definition loser (th : thread) : Prop :=
  counted th = false
  ∧ match at_pc th with
    | Acquire | Guard | Release | Done => True
    | _ => False
    end.

Definition phase_a (max_pages : Z) (sys : system) : Prop :=
  pages_ok (mem sys) = max_pages - 1
  ∧ stop_flag (mem sys) = false
  ∧ ∀ j x, threads sys !! j = Some x → early max_pages x.

Definition phase_b (max_pages : Z) (w : nat) (sys : system) : Prop :=
  pages_ok (mem sys) = max_pages
  ∧ (∃ th, threads sys !! w = Some th ∧ winner (mem sys) th)
  ∧ ∀ j x, j ≠ w → threads sys !! j = Some x → loser x.

Definition racing (max_pages : Z) (sys : system) : Prop :=
  mutex sys ∧ (phase_a max_pages sys ∨ ∃ w, phase_b max_pages w sys).

Lemma racing_start (max_pages : Z) (n : nat) :
  racing max_pages (start (max_pages - 1) false n).
Proof.
  split.
  - intros i th ->%replicate_lookup_start. simpl. split; discriminate.
  - left. split_and!; [done|done|].
    intros j x ->%replicate_lookup_start. by split.
Qed.

Lemma loser_outside (x : thread) :
  loser x → inside (at_pc x) = false → at_pc x = Acquire ∨ at_pc x = Done.
Proof. intros [_ H] Hin. destruct (at_pc x); simpl in *; auto; done. Qed.

Lemma early_outside (max_pages : Z) (x : thread) :
  early max_pages x → inside (at_pc x) = false →
  counted x = false ∧ at_pc x = Acquire.
Proof. intros [Hc H] Hin. destruct (at_pc x); simpl in *; auto; done. Qed.

Lemma racing_step (max_pages : Z) (i : nat) (sys : system) :
  racing max_pages sys → racing max_pages (step max_pages (Run i) sys).
Proof.
  intros [Hmx Hphase].
  destruct (step_run_cases max_pages i sys)
    as [->|(th & m' & th' & Hi & Hst & ->)]; [by split|].
  unfold thread_step in Hst.
  destruct Hphase as [(Hp & Hs & Hearly)|(w & Hp & (thw & Hw & Hwin) & Hlos)].
  - (* nobody has written yet *)
    destruct (Hearly i th Hi) as [Hc Hat].
    destruct (at_pc th) eqn:Hpc; try done.
    + (* Acquire *)
      destruct (ok_lock (mem sys)) eqn:Hfree; [done|]. inversion Hst; subst.
      split; [by eapply mutex_enter|]. left. split_and!; [done|done|].
      intros j x [[-> ->]|[Hne Hj]]%lookup_updated; [by split|by eapply Hearly].
    + (* Guard: the test passes *)
      assert (Hg : (pages_ok (mem sys) <? max_pages)
                   && negb (stop_flag (mem sys)) = true).
      { rewrite Hs, Hp. simpl. rewrite andb_true_r. apply Z.ltb_lt. lia. }
      rewrite Hg in Hst. inversion Hst; subst.
      split; [by eapply mutex_stay; eauto; rewrite ?Hpc|].
      left. split_and!; [done|done|].
      intros j x [[-> ->]|[Hne Hj]]%lookup_updated; [by split|by eapply Hearly].
    + (* Load *)
      inversion Hst; subst.
      split; [by eapply mutex_stay; eauto; rewrite ?Hpc|].
      left. split_and!; [done|done|].
      intros j x [[-> ->]|[Hne Hj]]%lookup_updated; [by split|by eapply Hearly].
    + (* Store: the ceiling is reached *)
      lock_held Hmx Hi Hpc.
      inversion Hst; subst.
      split; [by eapply mutex_stay; eauto; rewrite ?Hpc|].
      right. exists i. split_and!; simpl.
      * lia.
      * exists (goto SetCounted th). split; [by eapply lookup_updated_same|].
        by split.
      * intros j x Hne [[-> _]|[_ Hj]]%lookup_updated; [done|].
        pose proof (others_outside sys i Hmx (or_intror Hlock) j x Hne Hj) as Ho.
        destruct (early_outside max_pages x (Hearly j x Hj) Ho) as [Hcx Hax].
        split; [done|]. by rewrite Hax.
  - (* worker [w] has written [max_pages] *)
    destruct (decide (i = w)) as [->|Hne].
    + (* the winner moves on *)
      rewrite Hi in Hw. inversion Hw; subst thw. unfold winner in Hwin.
      assert (Hrest : ∀ th'' j x, j ≠ w →
                <[w := th'']> (threads sys) !! j = Some x → loser x).
      { intros th'' j x Hj [[-> _]|[_ Hx]]%lookup_updated; [done|].
        by eapply Hlos. }
      destruct (at_pc th) eqn:Hpc; try done.
      * (* SetCounted *)
        destruct Hwin as [Hc Hs]. inversion Hst; subst.
        split; [by eapply mutex_stay; eauto; rewrite ?Hpc|].
        right. exists w. split_and!; simpl; [done| |by apply Hrest].
        eexists. split; [by eapply lookup_updated_same|]. by split.
      * (* Ceiling: at the ceiling, so on to SetStop *)
        destruct Hwin as [Hc Hs].
        assert (Hge : (max_pages <=? pages_ok (mem sys)) = true)
          by (apply Z.leb_le; lia).
        rewrite Hge in Hst. inversion Hst; subst.
        split; [by eapply mutex_stay; eauto; rewrite ?Hpc|].
        right. exists w. split_and!; simpl; [done| |by apply Hrest].
        eexists. split; [by eapply lookup_updated_same|]. by split.
      * (* SetStop *)
        destruct Hwin as [Hc Hs]. inversion Hst; subst.
        split; [by eapply mutex_stay; eauto; rewrite ?Hpc|].
        right. exists w. split_and!; simpl; [done| |by apply Hrest].
        eexists. split; [by eapply lookup_updated_same|]. by split.
      * (* Release *)
        destruct Hwin as [Hc Hs]. inversion Hst; subst.
        split; [by eapply mutex_leave; eauto; rewrite ?Hpc|].
        right. exists w. split_and!; simpl; [done| |by apply Hrest].
        eexists. split; [by eapply lookup_updated_same|]. by split.
    + (* another worker moves: its test fails *)
      destruct (Hlos i th Hne Hi) as [Hc Hat].
      assert (Hkeep : ∀ m'' th'',
                (winner (mem sys) thw → winner m'' thw) → loser th'' →
                pages_ok m'' = max_pages →
                phase_b max_pages w (mkSystem m'' (<[i := th'']> (threads sys)))).
      { intros m'' th'' Hwin' Hlos' Hp'. split_and!; simpl.
        - done.
        - exists thw. split; [|by apply Hwin'].
          rewrite list_lookup_insert_ne by done. done.
        - intros j x Hj [[-> ->]|[_ Hx]]%lookup_updated; [done|].
          by eapply Hlos. }
      destruct (at_pc th) eqn:Hpc; try done.
      * (* Acquire *)
        destruct (ok_lock (mem sys)) eqn:Hfree; [done|]. inversion Hst; subst.
        split; [by eapply mutex_enter|].
        right. exists w. apply Hkeep; [done|by split|done].
      * (* Guard: pages_ok = max_pages *)
        assert (Hg : (pages_ok (mem sys) <? max_pages)
                     && negb (stop_flag (mem sys)) = false).
        { apply andb_false_iff. left. apply Z.ltb_ge. lia. }
        rewrite Hg in Hst. inversion Hst; subst.
        split; [by eapply mutex_stay; eauto; rewrite ?Hpc|].
        right. exists w. apply Hkeep; [done|by split|done].
      * (* Release *)
        inversion Hst; subst.
        split; [by eapply mutex_leave; eauto; rewrite ?Hpc|].
        right. exists w. apply Hkeep; [done|by split|done].
Qed.

Lemma racing_exec (max_pages : Z) (sched : list event) (sys : system) :
  Forall is_run sched → racing max_pages sys →
  racing max_pages (exec max_pages sched sys).
Proof.
  revert sys. induction sched as [|e sched IH]; intros sys Hrun H; [done|].
  apply Forall_cons in Hrun as [He Hrun]. simpl. apply IH; [done|].
  destruct e as [i|]; [by apply racing_step|done].
Qed.

(** *** A crawl that is already stopping *)

Definition stopping (p : Z) (sys : system) : Prop :=
  pages_ok (mem sys) = p
  ∧ stop_flag (mem sys) = true
  ∧ ∀ j x, threads sys !! j = Some x → loser x.

Lemma stopping_step (max_pages p : Z) (e : event) (sys : system) :
  stopping p sys → stopping p (step max_pages e sys).
Proof.
  intros (Hp & Hs & Hlos). destruct e as [i|]; [|by split_and!].
  destruct (step_run_cases max_pages i sys)
    as [->|(th & m' & th' & Hi & Hst & ->)]; [by split_and!|].
  unfold thread_step in Hst. destruct (Hlos i th Hi) as [Hc Hat].
  assert (Hkeep : ∀ m'' th'', loser th'' → pages_ok m'' = p →
            stop_flag m'' = true →
            stopping p (mkSystem m'' (<[i := th'']> (threads sys)))).
  { intros m'' th'' Hl Hp' Hs'. split_and!; simpl; [done|done|].
    intros j x [[-> ->]|[_ Hx]]%lookup_updated; [done|by eapply Hlos]. }
  destruct (at_pc th) eqn:Hpc; try done.
  - destruct (ok_lock (mem sys)); [done|]. inversion Hst; subst.
    apply Hkeep; [by split|done|done].
  - rewrite Hs, andb_false_r in Hst. inversion Hst; subst.
    apply Hkeep; [by split|done|done].
  - inversion Hst; subst. apply Hkeep; [by split|done|done].
Qed.

Lemma stopping_exec (max_pages p : Z) (sched : list event) (sys : system) :
  stopping p sys → stopping p (exec max_pages sched sys).
Proof.
  revert sys. induction sched as [|e sched IH]; intros sys H; [done|].
  simpl. apply IH. by apply stopping_step.
Qed.

Lemma step_length (max_pages : Z) (e : event) (sys : system) :
  length (threads (step max_pages e sys)) = length (threads sys).
Proof.
  destruct e as [i|]; [|done].
  destruct (step_run_cases max_pages i sys)
    as [->|(th & m' & th' & _ & _ & ->)]; [done|].
  simpl. apply length_insert.
Qed.

Lemma exec_length (max_pages : Z) (sched : list event) (sys : system) :
  length (threads (exec max_pages sched sys)) = length (threads sys).
Proof.
  revert sys. induction sched as [|e sched IH]; intros sys; [done|].
  simpl. rewrite IH. apply step_length.
Qed.

(** *** Some schedule lets every worker finish *)

Lemma exec_cons (max_pages : Z) (e : event) (sched : list event) (sys : system) :
  exec max_pages (e :: sched) sys = exec max_pages sched (step max_pages e sys).
Proof. reflexivity. Qed.

Lemma exec_app (max_pages : Z) (s1 s2 : list event) (sys : system) :
  exec max_pages (s1 ++ s2) sys = exec max_pages s2 (exec max_pages s1 sys).
Proof. unfold exec. apply foldl_app. Qed.

Lemma step_at (max_pages : Z) (l : list thread) (i : nat) (th : thread)
    (m : shared) :
  (i < length l)%nat →
  step max_pages (Run i) (mkSystem m (<[i := th]> l))
  = match thread_step max_pages i m th with
    | Some (m', th') => mkSystem m' (<[i := th']> l)
    | None => mkSystem m (<[i := th]> l)
    end.
Proof.
  intros Hi. unfold step. simpl. rewrite list_lookup_insert_eq by done.
  destruct (thread_step max_pages i m th) as [[m' th']|]; [|done].
  by rewrite list_insert_insert_eq.
Qed.

Local Arguments step : simpl never.
Local Arguments exec : simpl never.

(** A worker that finds the lock free and is left alone for eight steps
    reaches the end and gives the lock back, whichever way its tests go. *)
Lemma solo_finishes_at (max_pages : Z) (i : nat) (l : list thread)
    (m : shared) (th : thread) :
  (i < length l)%nat → at_pc th = Acquire → ok_lock m = None →
  ∃ m' th',
    exec max_pages (solo i) (mkSystem m (<[i := th]> l))
    = mkSystem m' (<[i := th']> l)
    ∧ at_pc th' = Done ∧ ok_lock m' = None.
Proof.
  intros Hlt Hat Hfree.
  destruct m as [p s lk]. destruct th as [pc t c]. simpl in *. subst.
  unfold solo. cbn [replicate].
  do 2 (rewrite exec_cons, (step_at max_pages l i _ _ Hlt); cbn).
  destruct ((p <? max_pages) && negb s) eqn:Hg.
  - do 4 (rewrite exec_cons, (step_at max_pages l i _ _ Hlt); cbn).
    destruct (max_pages <=? p + 1).
    + do 2 (rewrite exec_cons, (step_at max_pages l i _ _ Hlt); cbn). eauto.
    + do 2 (rewrite exec_cons, (step_at max_pages l i _ _ Hlt); cbn). eauto.
  - do 6 (rewrite exec_cons, (step_at max_pages l i _ _ Hlt); cbn). eauto.
Qed.

Lemma solo_finishes (max_pages : Z) (i : nat) (sys : system) (th : thread) :
  threads sys !! i = Some th → at_pc th = Acquire → ok_lock (mem sys) = None →
  ∃ m' th',
    exec max_pages (solo i) sys = mkSystem m' (<[i := th']> (threads sys))
    ∧ at_pc th' = Done ∧ ok_lock m' = None.
Proof.
  intros Hi Hat Hfree.
  assert (Hlt : (i < length (threads sys))%nat) by (by eapply lookup_lt_Some).
  destruct sys as [m l]. simpl in *.
  destruct (solo_finishes_at max_pages i l m th Hlt Hat Hfree)
    as (m' & th' & He & Hd & Hl).
  rewrite (list_insert_id l i th Hi) in He. eauto.
Qed.

Lemma one_by_one_finishes (max_pages : Z) (n k : nat) (sys : system) :
  length (threads sys) = (k + n)%nat →
  ok_lock (mem sys) = None →
  (∀ j th, threads sys !! j = Some th →
     ((j < k)%nat → at_pc th = Done) ∧ ((k <= j)%nat → at_pc th = Acquire)) →
  finished (exec max_pages (one_by_one k n) sys).
Proof.
  revert k sys. induction n as [|n IH]; intros k sys Hlen Hfree Hth.
  - unfold one_by_one. cbn [seq map concat].
    change (exec max_pages [] sys) with sys.
    apply Forall_forall. intros th Hin.
    apply list_elem_of_lookup in Hin as [j Hj].
    apply (Hth j th Hj). apply lookup_lt_Some in Hj. lia.
  - unfold one_by_one. cbn [seq map concat]. rewrite exec_app.
    destruct (lookup_lt_is_Some_2 (threads sys) k) as [th Hk]; [lia|].
    destruct (solo_finishes max_pages k sys th Hk) as (m' & th' & -> & Hd & Hl).
    { by apply (Hth k th Hk). }
    { done. }
    apply (IH (S k)); simpl.
    + rewrite length_insert. lia.
    + done.
    + intros j x [[-> ->]|[Hne Hj]]%lookup_updated.
      * split; [done|lia].
      * destruct (Hth j x Hj) as [H1 H2].
        split; intros; [apply H1|apply H2]; lia.
Qed.

Lemma race_can_finish (max_pages p : Z) (stop : bool) (n : nat) :
  Forall is_run (one_by_one 0 n)
  ∧ finished (exec max_pages (one_by_one 0 n) (start p stop n)).
Proof.
  split.
  - unfold one_by_one. apply Forall_concat, Forall_fmap, Forall_forall.
    intros i _. unfold solo. simpl. repeat constructor.
  - apply one_by_one_finishes; simpl.
    + by rewrite length_replicate.
    + done.
    + intros j th ->%replicate_lookup_start. simpl. split; [lia|done].
Qed.

(** C1 (as amended).  [n] workers reach the guarded increment with the
    counter at [p <= max_pages]; the scheduler interleaves their statements
    in any order, and stop requests may arrive at any point.  Then after
    every step [pages_ok <= max_pages].  If moreover [p = max_pages - 1],
    [stop_flag] is clear at the start and no stop request arrives, then at
    every moment at most one worker has counted its page, and once all of
    the [n >= 1] workers have left the block exactly one has: the counter
    is [max_pages] and [stop_flag] is set.  If instead [stop_flag] is
    already set at the start, no worker counts its page and the counter
    stays at [p].  In every case some schedule of worker steps lets all
    workers leave the block. *)
Theorem pages_ok_never_exceeds_max
    (max_pages p : Z) (stop : bool) (n : nat) (sched : list event) :
  p <= max_pages →
  let final := exec max_pages sched (start p stop n) in
  pages_ok (mem final) <= max_pages
  ∧ (p = max_pages - 1 → stop = false → Forall is_run sched →
       (∀ i j, counted_by final i → counted_by final j → i = j)
       ∧ ((0 < n)%nat → finished final →
            ∃ w, counted_by final w
                 ∧ pages_ok (mem final) = max_pages
                 ∧ stop_flag (mem final) = true))
  ∧ (stop = true →
       pages_ok (mem final) = p ∧ ∀ j, ¬ counted_by final j)
  ∧ (∃ sched', Forall is_run sched'
               ∧ finished (exec max_pages sched' (start p stop n))).
Proof.
  intros Hp final. split_and!; [| | |eexists; apply race_can_finish].
  - by destruct (bounded_exec max_pages sched _ (bounded_start max_pages p stop n Hp))
      as (H & _ & _).
  - intros -> -> Hrun.
    destruct (racing_exec max_pages sched _ Hrun (racing_start max_pages n))
      as [_ Hphase].
    fold final in Hphase. split.
    + intros i j (thi & Hi & Hci) (thj & Hj & Hcj).
      destruct Hphase as [(_ & _ & Hearly)|(w & _ & _ & Hlos)].
      * destruct (Hearly i thi Hi) as [Hc _]. congruence.
      * destruct (decide (i = w)) as [->|Hiw];
          destruct (decide (j = w)) as [->|Hjw]; try done.
        -- destruct (Hlos j thj Hjw Hj) as [Hc _]. congruence.
        -- destruct (Hlos i thi Hiw Hi) as [Hc _]. congruence.
        -- destruct (Hlos i thi Hiw Hi) as [Hc _]. congruence.
    + intros Hn Hfin.
      destruct Hphase as [(_ & _ & Hearly)|(w & Hpw & (thw & Hw & Hwin) & _)].
      * exfalso.
        destruct (lookup_lt_is_Some_2 (threads final) 0%nat) as [x Hx].
        { subst final. rewrite exec_length. simpl. by rewrite length_replicate. }
        destruct (Hearly _ x Hx) as [_ Hat].
        assert (Hd : at_pc x = Done).
        { eapply (proj1 (Forall_forall _ _) Hfin). by eapply list_elem_of_lookup_2. }
        by rewrite Hd in Hat.
      * assert (Hd : at_pc thw = Done).
        { eapply (proj1 (Forall_forall _ _) Hfin). by eapply list_elem_of_lookup_2. }
        unfold winner in Hwin. rewrite Hd in Hwin. destruct Hwin as [Hc Hs].
        exists w. split_and!; [by exists thw|done|done].
  - intros ->.
    destruct (stopping_exec max_pages p sched (start p true n)) as (H1 & _ & Hlos).
    { split_and!; [done|done|].
      intros j x ->%replicate_lookup_start. by split. }
    split; [done|]. intros j (th & Hj & Hc).
    destruct (Hlos j th Hj) as [Hc' _]. congruence.
Qed.

(** Three workers race at 4 of 5 pages.  Worker 0 takes the lock, the
    others try and wait; worker 0 finishes, then worker 2, then worker 1. *)
Definition race_schedule : list event :=
  [Run 0%nat; Run 1%nat; Run 0%nat; Run 2%nat; Run 0%nat; Run 0%nat;
   Run 1%nat; Run 0%nat; Run 0%nat; Run 0%nat; Run 0%nat;
   Run 2%nat; Run 1%nat; Run 2%nat; Run 2%nat;
   Run 1%nat; Run 1%nat; Run 1%nat].

Lemma pages_ok_never_exceeds_max_witness :
  pages_ok (mem (exec 5 race_schedule (start 4 false 3))) <= 5
  ∧ ∃ w, counted_by (exec 5 race_schedule (start 4 false 3)) w
         ∧ pages_ok (mem (exec 5 race_schedule (start 4 false 3))) = 5
         ∧ stop_flag (mem (exec 5 race_schedule (start 4 false 3))) = true.
Proof.
  assert (Hp : 4 <= 5) by lia.
  destruct (pages_ok_never_exceeds_max 5 4 false 3 race_schedule Hp)
    as (Hle & Hrace & _ & _).
  split; [exact Hle|].
  destruct Hrace as [_ Hone].
  - reflexivity.
  - reflexivity.
  - unfold race_schedule. repeat (constructor; [exact I|]). constructor.
  - apply Hone.
    + lia.
    + vm_compute. repeat constructor.
Defined.

(** C1, the case the claim misses: two workers are in flight at 4 of 5
    pages with [stop_flag] clear when the crawl is stopped
    ([Crawler.stop()]).  Both then run the block to its end; the guard
    fails on [not self.stop_flag], neither counts its page, and the
    counter stays at 4. *)
Lemma stopped_crawl_counts_no_page :
  let final := exec 5 [StopRequest;
                       Run 0%nat; Run 1%nat; Run 0%nat; Run 0%nat;
                       Run 1%nat; Run 1%nat; Run 1%nat] (start 4 false 2) in
  map at_pc (threads final) = [Done; Done]
  ∧ map counted (threads final) = [false; false]
  ∧ pages_ok (mem final) = 4.
Proof. vm_compute. auto. Qed.

End OkLock.

(** * Further properties of the code, module by module *)

(** * More on the frontier store: the seen set and the size of the queue *)
Module StoreFacts.
Import DB.

(** [o] is a [mark_seen] of [u]. *)
Definition marks (u : string) (o : op) : Prop :=
  match o with MarkSeen u' => u' = u | _ => False end.

Lemma push_url_seen (u : string) (p d : Z) (par : option string) (db : t) :
  seen (snd (push_url u p d par db)) = seen db.
Proof.
  destruct (push_url_frontier u p d par db) as [->|[_ ->]]; reflexivity.
Qed.

Lemma step_seen (u : string) (o : op) (db : t) :
  is_seen u (snd (step o db)) = true ↔ is_seen u db = true ∨ marks u o.
Proof.
  unfold is_seen. rewrite !bool_decide_eq_true.
  destruct o as [u' p d par|n|u']; simpl.
  - rewrite push_url_seen. tauto.
  - pose proof (pop_batch_seen n db) as Hs.
    destruct (pop_batch n db) as [rows db']. simpl in *. rewrite Hs. tauto.
  - rewrite elem_of_union, elem_of_singleton. split; intros [?|?]; auto.
Qed.

(** X1.  The seen set is exactly what was marked: after any run of store
    calls a URL is seen if and only if it was seen before the run or the
    run contains a [mark_seen] of it.  So nothing ever leaves the seen
    set, [push_url] and [pop_batch] never put anything into it, and a URL
    that was never marked is not seen.  [mark_seen] itself always returns
    [True] and leaves the frontier alone. *)
Theorem seen_exactly_the_marked (ops : list op) (db : t) (u : string) :
  (is_seen u (snd (run ops db)) = true
     ↔ is_seen u db = true ∨ Exists (marks u) ops)
  ∧ fst (mark_seen u db) = true
  ∧ frontier (snd (mark_seen u db)) = frontier db.
Proof.
  split_and!.
  - revert db. induction ops as [|o ops IH]; intros db; simpl.
    + rewrite Exists_nil. tauto.
    + pose proof (step_seen u o db) as Hstep.
      destruct (step o db) as [out1 db1]. simpl in Hstep.
      specialize (IH db1). destruct (run ops db1) as [out2 db2]. simpl in *.
      rewrite IH, Hstep, Exists_cons. tauto.
  - apply mark_seen_is_seen.
  - reflexivity.
Qed.

(** The queue length after one call. *)
Lemma push_url_size (u : string) (p d : Z) (par : option string) (db : t) :
  frontier_size (snd (push_url u p d par db))
  = frontier_size db + (if fst (push_url u p d par db) then 1 else 0).
Proof.
  unfold frontier_size, push_url, insert_or_ignore.
  destruct (negb (truthy_str u) || (2048 <? String.length u)%nat); simpl;
    [lia|].
  destruct (has_url u (frontier db)); simpl; [lia|].
  rewrite length_app. simpl. lia.
Qed.

(** How many rows [pop_batch n] takes from a queue of [size] rows. *)
Definition taken (n size : Z) : Z := if n <? 0 then size else Z.min n size.

Lemma pop_batch_count (n : Z) (db : t) :
  Z.of_nat (length (fst (pop_batch n db))) = taken n (frontier_size db).
Proof.
  rewrite pop_batch_rows. unfold limit, taken, frontier_size.
  rewrite <- (Permutation_length (order_by_priority_perm (frontier db))).
  destruct (Z.ltb_spec n 0); [done|].
  rewrite length_take. lia.
Qed.

(** X2.  Accounting of [frontier_size] on a store reached from the fresh
    tables by any run of calls: it is never negative; [push_url] raises it
    by one exactly when it returns [True]; [pop_batch n] hands out
    [min(n, size)] rows for [n >= 0] and every row for [n < 0] (a negative
    LIMIT is no limit), and lowers the size by the number of rows it
    handed out. *)
Theorem frontier_size_accounting
    (ops : list op) (u : string) (p d : Z) (par : option string) (n : Z) :
  let db := snd (run ops init) in
  0 <= frontier_size db
  ∧ frontier_size (snd (push_url u p d par db))
    = frontier_size db + (if fst (push_url u p d par db) then 1 else 0)
  ∧ Z.of_nat (length (fst (pop_batch n db))) = taken n (frontier_size db)
  ∧ frontier_size (snd (pop_batch n db))
    = frontier_size db - taken n (frontier_size db).
Proof.
  intros db.
  assert (Hnd : unique_urls db).
  { apply run_unique. unfold unique_urls. simpl. constructor. }
  split_and!.
  - unfold frontier_size. lia.
  - apply push_url_size.
  - apply pop_batch_count.
  - pose proof (pop_batch_partition n db Hnd) as Hpart.
    apply Permutation_length in Hpart. rewrite length_app in Hpart.
    pose proof (pop_batch_count n db) as Hc.
    unfold frontier_size in *. lia.
Qed.

End StoreFacts.

(** * More on the rate limiter *)
Module LimiterFacts.
Import Time RateLimiter.

(** X3.  What one [wait key] does when [min_delay > 0].  Let [due] be the
    key's stamp plus [min_delay].  If [due] is not ahead of the clock the
    call returns at once; otherwise it sleeps once, for [due - now], and
    returns when the clock reads [due].  Either way the new stamp is
    [due], which is never ahead of the clock at return; the stamps of all
    other keys and [min_delay] are left as they were. *)
Theorem wait_sleeps_until_due (key : string) (rl : t) (w : world) :
  (0 < min_delay rl)%Q →
  let due := (stamp key rl + min_delay rl)%Q in
  let rl' := fst (wait key rl w) in
  let w' := snd (wait key rl w) in
  ((due <= clock w)%Q → w' = w)
  ∧ ((clock w < due)%Q →
       (clock w' == due)%Q
       ∧ ∃ d, slept w' = slept w ++ [d] ∧ (d == due - clock w)%Q)
  ∧ (stamp key rl' == due)%Q
  ∧ (stamp key rl' <= clock w')%Q
  ∧ (∀ other, other ≠ key → last rl' !! other = last rl !! other)
  ∧ min_delay rl' = min_delay rl.
Proof.
  intros Hpos due rl' w'. subst due rl' w'. unfold wait, stamp.
  destruct (Qle_bool (min_delay rl) 0) eqn:Hle.
  { apply Qle_bool_iff in Hle. exfalso. eapply Qlt_not_le; eauto. }
  set (l := default 0%Q (last rl !! key)).
  set (delay := (min_delay rl - (clock w - l))%Q).
  simpl. rewrite lookup_insert_eq. simpl.
  destruct (gtb delay 0) eqn:Hd.
  - apply gtb_true in Hd. unfold delay in Hd. split_and!.
    + intros Hdue. exfalso. lra.
    + intros _. simpl. split; [unfold delay; ring|].
      exists delay. split; [done|]. unfold delay. ring.
    + unfold delay. ring.
    + simpl. lra.
    + intros other Hne. by rewrite lookup_insert_ne.
    + done.
  - apply gtb_false in Hd. unfold delay in Hd. split_and!.
    + done.
    + intros Hdue. exfalso. lra.
    + unfold delay. ring.
    + unfold delay. lra.
    + intros other Hne. by rewrite lookup_insert_ne.
    + done.
Qed.

Lemma wait_sleeps_until_due_witness :
  (clock (snd (wait "bama.ir" (mkLimiter 2 {["bama.ir" := 999%Q]})
                 (mkWorld 1000 []))) == 1001)%Q.
Proof.
  destruct (wait_sleeps_until_due "bama.ir"
              (mkLimiter 2 {["bama.ir" := 999%Q]}) (mkWorld 1000 []))
    as (_ & Hlate & _).
  - reflexivity.
  - destruct Hlate as [Hclock _].
    + vm_compute. reflexivity.
    + rewrite Hclock. vm_compute. reflexivity.
Defined.

End LimiterFacts.

(** * More on the robots cache *)
Module RobotsFacts.
Import Robots.

Section WithParser.

Variable Rules : Type.
Variable netloc : string → string.
Variable no_rules : Rules.
Variable decode_and_parse : string → option Rules.
Variable match_rules : Rules → string → string → outcome bool.

(** The rule lookup at the end of [RobotFileParser.crawl_delay]: the
    [Crawl-delay] of the entry that applies to the agent, an [int], or
    [None]; it may raise. *)
Variable delay_rules : Rules → string → outcome (option Z).

Local Notation get_entry := (_get_entry Rules netloc no_rules decode_and_parse).
Local Notation allowed := (allowed Rules netloc no_rules decode_and_parse match_rules).

(** [RobotFileParser.crawl_delay]: [None] until the file has been read. *)
Definition parser_crawl_delay (rfp : RobotFileParser Rules) (useragent : string)
    : outcome (option Z) :=
  if Qeq_bool (last_checked Rules rfp) 0 then Returns None
  else delay_rules (rules Rules rfp) useragent.

(** [RobotsCache.crawl_delay]: [float(d) if d else None], and [None] on
    any exception. *)
Definition crawl_delay (c : t Rules) (url : string) (now : Q)
    (net : string → urlopen_result) : option Q * t Rules :=
  let '(entry, c') := get_entry c url now net in
  match parser_crawl_delay (parser Rules entry) (user_agent Rules c) with
  | Returns (Some d) => (if d =? 0 then None else Some (inject_Z d), c')
  | Returns None => (None, c')
  | Raises => (None, c')
  end.

(** The entry for [host] is in the cache and not older than [ttl]. *)
Definition fresh (c : t Rules) (host : string) (now : Q) : Prop :=
  ∃ entry, cache Rules c !! host = Some entry
           ∧ (now - fetched_at Rules entry <= ttl Rules c)%Q.

Lemma get_entry_fresh (c : t Rules) (url : string) (now : Q)
    (net : string → urlopen_result) (entry : RobotsEntry Rules) :
  cache Rules c !! netloc url = Some entry →
  (now - fetched_at Rules entry <= ttl Rules c)%Q →
  get_entry c url now net = (entry, c).
Proof.
  intros Hc Hf. unfold _get_entry. rewrite Hc.
  apply Time.gtb_false in Hf. by rewrite Hf.
Qed.

Lemma get_entry_stale (c : t Rules) (url : string) (now : Q)
    (net : string → urlopen_result) :
  stale Rules c (netloc url) now →
  get_entry c url now net = refetch Rules no_rules decode_and_parse c (netloc url) now net.
Proof.
  unfold stale, _get_entry. destruct (cache Rules c !! netloc url) as [e|];
    [|done].
  intros H%Time.gtb_true. by rewrite H.
Qed.

(** X4.  While the cached entry of a host is not older than [ttl],
    [allowed] answers from the cache: the answer does not depend on what
    the network would do and the cache is left unchanged.  And once a
    call has fetched robots.txt (the entry was missing or too old), every
    call for a URL of the same host within [ttl] seconds of that fetch is
    answered from the cache, whether the fetch succeeded or failed. *)
Theorem allowed_uses_cache_within_ttl
    (c : t Rules) (url url' : string) (now now' : Q)
    (net net' : string → urlopen_result) :
  (fresh c (netloc url) now →
     allowed c url now net = allowed c url now net'
     ∧ snd (allowed c url now net) = c)
  ∧ (stale Rules c (netloc url) now → netloc url' = netloc url →
     (now' - now <= ttl Rules c)%Q →
     let c1 := snd (allowed c url now net) in
     fresh c1 (netloc url') now'
     ∧ snd (allowed c1 url' now' net') = c1).
Proof.
  split.
  - intros (entry & Hc & Hf). unfold Robots.allowed.
    rewrite !(get_entry_fresh c url now _ entry Hc Hf).
    split; [done|]. by destruct (can_fetch _ _ _ _ _).
  - intros Hst Hhost Hnow c1.
    assert (Hc1 : ∃ entry,
              c1 = mkCache Rules (user_agent Rules c) (ttl Rules c)
                     (<[netloc url := entry]> (cache Rules c))
              ∧ fetched_at Rules entry = now).
    { subst c1. unfold Robots.allowed.
      rewrite (get_entry_stale c url now net Hst). unfold refetch.
      eexists. split; [by destruct (can_fetch _ _ _ _ _)|done]. }
    destruct Hc1 as (entry & Hc1 & Hat).
    assert (Hfresh : fresh c1 (netloc url') now').
    { exists entry. rewrite Hc1, Hhost. simpl. rewrite lookup_insert_eq.
      split; [done|]. by rewrite Hat. }
    split; [done|].
    destruct Hfresh as (e & He & Hf). unfold Robots.allowed.
    rewrite (get_entry_fresh c1 url' now' net' e He Hf).
    by destruct (can_fetch _ _ _ _ _).
Qed.

(** X5.  [crawl_delay] never reports a delay of zero: its answer is [None]
    or a non-zero number of seconds.  It is [None] whenever robots.txt was
    never read successfully for the entry in use (a failed fetch
    included) and whenever the rule lookup raises; and it leaves the same
    cache behind as [allowed] does. *)
Theorem crawl_delay_none_or_nonzero (c : t Rules) (url : string) (now : Q)
    (net : string → urlopen_result) :
  let entry := fst (get_entry c url now net) in
  (∀ q, fst (crawl_delay c url now net) = Some q → ¬ (q == 0)%Q)
  ∧ ((last_checked Rules (parser Rules entry) == 0)%Q →
       fst (crawl_delay c url now net) = None)
  ∧ (delay_rules (rules Rules (parser Rules entry)) (user_agent Rules c) = Raises →
       fst (crawl_delay c url now net) = None)
  ∧ snd (crawl_delay c url now net) = snd (allowed c url now net).
Proof.
  intros entry. subst entry. unfold crawl_delay, Robots.allowed, parser_crawl_delay.
  destruct (get_entry c url now net) as [e c']. simpl.
  split_and!.
  - intros q.
    destruct (Qeq_bool _ 0); [done|].
    destruct (delay_rules _ _) as [[d|]|]; simpl; try done.
    destruct (Z.eqb_spec d 0); [done|].
    intros [= <-]. unfold Qeq. simpl. lia.
  - intros H%Qeq_bool_iff. by rewrite H.
  - intros ->. by destruct (Qeq_bool _ 0).
  - destruct (Qeq_bool _ 0); [by destruct (can_fetch _ _ _ _ _)|].
    destruct (delay_rules _ _) as [[d|]|]; by destruct (can_fetch _ _ _ _ _).
Qed.

(** X6.  How the HTTP status of robots.txt decides a whole host, on a
    cache that holds nothing for it: after a 401 or 403 [allowed] is
    [False] for every URL and agent; after any other 4xx status (a missing
    robots.txt) it is [True]; after any status from 500 up it is [False]. *)
Theorem allowed_by_http_status (ua : string) (ttl_sec : Q) (url : string)
    (now : Q) (code : Z) :
  let answer := fst (allowed (new Rules ua ttl_sec) url now (λ _, HttpError code)) in
  (code = 401 ∨ code = 403 → answer = false)
  ∧ (400 <= code < 500 → code ≠ 401 → code ≠ 403 → answer = true)
  ∧ (500 <= code → answer = false).
Proof.
  intros answer. subst answer.
  unfold Robots.allowed, _get_entry, refetch, read. simpl.
  split_and!.
  - intros [-> | ->]; reflexivity.
  - intros [H1 H2] H3 H4.
    replace ((code =? 401) || (code =? 403)) with false
      by (symmetry; apply orb_false_iff; split; apply Z.eqb_neq; lia).
    replace ((400 <=? code) && (code <? 500)) with true
      by (symmetry; apply andb_true_iff; split; [apply Z.leb_le|apply Z.ltb_lt]; lia).
    reflexivity.
  - intros H.
    replace ((code =? 401) || (code =? 403)) with false
      by (symmetry; apply orb_false_iff; split; apply Z.eqb_neq; lia).
    replace ((400 <=? code) && (code <? 500)) with false
      by (symmetry; apply andb_false_iff; right; apply Z.ltb_ge; lia).
    reflexivity.
Qed.

End WithParser.

(** Concrete robots data: no rules at all, nothing decodes, every rule
    lookup allows, no crawl delay. *)
Definition no_decode (raw : string) : option unit := None.
Definition allow_rule (rs : unit) (ua url : string) : outcome bool := Returns true.
Definition no_delay (rs : unit) (ua : string) : outcome (option Z) := Returns None.
Definition host_of (url : string) : string := "bama.ir".

Lemma allowed_uses_cache_within_ttl_witness :
  let c1 := snd (allowed unit host_of tt no_decode allow_rule
                   (new unit "bot" 3600) "https://bama.ir/a" 1000
                   (λ _, HttpError 404)) in
  snd (allowed unit host_of tt no_decode allow_rule c1 "https://bama.ir/b" 2000
         (λ _, UrlError "down")) = c1.
Proof.
  destruct (allowed_uses_cache_within_ttl unit host_of tt no_decode allow_rule
              (new unit "bot" 3600) "https://bama.ir/a" "https://bama.ir/b"
              1000 2000 (λ _, HttpError 404) (λ _, UrlError "down"))
    as [_ Hsecond].
  destruct Hsecond as [_ Hsame].
  - exact I.
  - reflexivity.
  - vm_compute. discriminate.
  - exact Hsame.
Defined.

Lemma crawl_delay_none_or_nonzero_witness :
  fst (crawl_delay unit host_of tt no_decode no_delay
         (new unit "bot" 3600) "https://bama.ir/a" 1000 (λ _, UrlError "down"))
  = None.
Proof.
  destruct (crawl_delay_none_or_nonzero unit host_of tt no_decode allow_rule
              no_delay (new unit "bot" 3600) "https://bama.ir/a" 1000
              (λ _, UrlError "down")) as (_ & Hnone & _).
  apply Hnone. reflexivity.
Defined.

Lemma allowed_by_http_status_witness :
  fst (allowed unit host_of tt no_decode allow_rule (new unit "bot" 3600)
         "https://bama.ir/a" 1000 (λ _, HttpError 410)) = true.
Proof.
  destruct (allowed_by_http_status unit host_of tt no_decode allow_rule
              "bot" 3600 "https://bama.ir/a" 1000 410) as (_ & H4xx & _).
  apply H4xx; lia.
Defined.

End RobotsFacts.

(** * More on the string tests: [in], [lower], [endswith] *)
Module StrFacts.
Import Str.

Lemma append_nil (b : string) : "" +:+ b = b.
Proof. reflexivity. Qed.

Lemma append_cons (c : ascii) (a b : string) :
  String c a +:+ b = String c (a +:+ b).
Proof. reflexivity. Qed.

Lemma append_assoc (a b c : string) : (a +:+ b) +:+ c = a +:+ b +:+ c.
Proof.
  induction a as [|x a IH]; [done|]. by rewrite !append_cons, IH.
Qed.

Lemma prefix_spec (n h : string) :
  String.prefix n h = true ↔ ∃ post, h = n +:+ post.
Proof.
  revert h. induction n as [|a n IH]; intros h.
  - destruct h; (split; [intros _; eexists; reflexivity|done]).
  - destruct h as [|b h].
    + split; [done|intros [post H]; discriminate].
    + change (String.prefix (String a n) (String b h))
        with (if ascii_dec a b then String.prefix n h else false).
      destruct (ascii_dec a b) as [->|Hne].
      * rewrite IH. split; intros [post H]; exists post;
          rewrite append_cons in *; congruence.
      * split; [done|]. intros [post H]. rewrite append_cons in H. congruence.
Qed.

Lemma contains_nil (n : string) :
  contains n "" = String.prefix n "" || false.
Proof. reflexivity. Qed.

Lemma contains_cons (n : string) (c : ascii) (h : string) :
  contains n (String c h) = String.prefix n (String c h) || contains n h.
Proof. reflexivity. Qed.

(** [needle in hay] holds exactly when [hay] is some text, then [needle],
    then some text. *)
Lemma contains_spec (n h : string) :
  contains n h = true ↔ ∃ pre post, h = pre +:+ n +:+ post.
Proof.
  split.
  - induction h as [|c h IH].
    + rewrite contains_nil, orb_true_iff.
      intros [[post H]%prefix_spec|?]; [|done]. by exists "", post.
    + rewrite contains_cons, orb_true_iff.
      intros [[post H]%prefix_spec|H].
      * by exists "", post.
      * destruct (IH H) as (pre & post & ->). by exists (String c pre), post.
  - intros (pre & post & ->). induction pre as [|c pre IH].
    + rewrite append_nil.
      assert (Hp : String.prefix n (n +:+ post) = true)
        by (apply prefix_spec; eauto).
      destruct (n +:+ post) eqn:E;
        [rewrite contains_nil|rewrite contains_cons]; by rewrite Hp.
    + rewrite append_cons, contains_cons, IH. apply orb_true_r.
Qed.

Lemma lower_app (a b : string) : lower (a +:+ b) = lower a +:+ lower b.
Proof.
  induction a as [|c a IH]; [done|].
  rewrite append_cons. simpl. by rewrite IH, append_cons.
Qed.

Lemma all_chars_app (p : ascii → bool) (a b : string) :
  all_chars p (a +:+ b) = all_chars p a && all_chars p b.
Proof.
  induction a as [|c a IH]; [done|].
  rewrite append_cons. simpl. by rewrite IH, andb_assoc.
Qed.

(** An ASCII capital letter. *)
Definition is_capital (c : ascii) : bool :=
  ((65 <=? code c) && (code c <=? 90))%N.

Lemma lower_char_not_capital (c : ascii) : is_capital (lower_char c) = false.
Proof.
  destruct c as [b0 b1 b2 b3 b4 b5 b6 b7].
  destruct b0, b1, b2, b3, b4, b5, b6, b7; reflexivity.
Qed.

Lemma lower_no_capital (s : string) :
  all_chars (λ c, negb (is_capital c)) (lower s) = true.
Proof.
  induction s as [|c s IH]; simpl; [done|].
  by rewrite lower_char_not_capital, IH.
Qed.

(** A needle with a capital letter is never found in lower-cased text. *)
Lemma capital_needle_never_in_lower (n s : string) :
  all_chars (λ c, negb (is_capital c)) n = false →
  contains n (lower s) = false.
Proof.
  intros Hn. apply not_true_iff_false. intros (pre & post & H)%contains_spec.
  pose proof (lower_no_capital s) as Hl. rewrite H in Hl.
  rewrite !all_chars_app in Hl.
  apply andb_true_iff in Hl as [_ [Hl _]%andb_true_iff]. congruence.
Qed.

Lemma endswith_nil (suffix : string) :
  endswith "" suffix = String.eqb "" suffix || false.
Proof. reflexivity. Qed.

Lemma endswith_cons (c : ascii) (s suffix : string) :
  endswith (String c s) suffix
  = String.eqb (String c s) suffix || endswith s suffix.
Proof. reflexivity. Qed.

Lemma endswith_spec (s suffix : string) :
  endswith s suffix = true ↔ ∃ pre, s = pre +:+ suffix.
Proof.
  split.
  - induction s as [|c s IH].
    + rewrite endswith_nil, orb_true_iff.
      intros [H%String.eqb_eq|?]; [|done]. by exists "".
    + rewrite endswith_cons, orb_true_iff.
      intros [H%String.eqb_eq|H]; [by exists ""|].
      destruct (IH H) as [pre ->]. by exists (String c pre).
  - intros [pre ->]. induction pre as [|c pre IH].
    + rewrite append_nil.
      destruct suffix; [rewrite endswith_nil|rewrite endswith_cons];
        by rewrite String.eqb_refl.
    + by rewrite append_cons, endswith_cons, IH, orb_true_r.
Qed.

End StrFacts.

(** * More on the fetcher *)
Module FetcherFacts.
Import Time Fetcher.

(** The markers without the two that contain ["captcha"]. *)
Definition distinct_keys : list string :=
  [ "captcha"; "cf-challenge"; "cf-turnstile";
    "are you human"; "bot verification"; "attention required" ].

Lemma contains_trans (a b h : string) :
  Str.contains a b = true → Str.contains b h = true → Str.contains a h = true.
Proof.
  intros (p1 & q1 & ->)%StrFacts.contains_spec (p2 & q2 & ->)%StrFacts.contains_spec.
  apply StrFacts.contains_spec. exists (p2 +:+ p1), (q1 +:+ q2).
  by rewrite !StrFacts.append_assoc.
Qed.

Lemma detect_captcha_iff (html : string) :
  _detect_captcha html = true
  ↔ html ≠ "" ∧ ∃ k pre post, k ∈ captcha_keys
                               ∧ Str.lower html = pre +:+ k +:+ post.
Proof.
  unfold _detect_captcha. destruct html as [|c html]; simpl negb; cbv iota.
  - split; [done|]. by intros [? _].
  - rewrite existsb_exists. split.
    + intros (k & Hk%list_elem_of_In & (pre & post & H)%StrFacts.contains_spec).
      split; [done|]. eauto 10.
    + intros (_ & k & pre & post & Hk & H). exists k.
      split; [by apply list_elem_of_In|].
      apply StrFacts.contains_spec. eauto.
Qed.

Lemma marker_not_empty (word : string) :
  Str.lower word ∈ captcha_keys → word ≠ "".
Proof.
  intros Hk ->. vm_compute in Hk.
  repeat (apply elem_of_cons in Hk as [Hk|Hk]; [discriminate|]).
  by apply elem_of_nil in Hk.
Qed.

(** X7.  [_detect_captcha] is [True] exactly for a non-empty page whose
    lower-cased text contains one of the markers, so the letter case of
    the page does not matter: a page that contains, in any mix of cases, a
    word whose lower-casing is a marker is detected.  The markers
    "g-recaptcha" and "hcaptcha" add nothing to "captcha": the six other
    markers detect the same pages. *)
Theorem detect_captcha_markers (html : string) :
  (_detect_captcha html = true
     ↔ html ≠ "" ∧ ∃ k pre post, k ∈ captcha_keys
                                  ∧ Str.lower html = pre +:+ k +:+ post)
  ∧ (∀ pre word post, Str.lower word ∈ captcha_keys →
       _detect_captcha (pre +:+ word +:+ post) = true)
  ∧ _detect_captcha html
    = truthy_str html
      && existsb (λ k, Str.contains k (Str.lower html)) distinct_keys.
Proof.
  split_and!.
  - apply detect_captcha_iff.
  - intros pre word post Hk. apply detect_captcha_iff. split.
    + pose proof (marker_not_empty word Hk) as Hw.
      destruct pre; [|discriminate]. rewrite StrFacts.append_nil.
      destruct word; [done|discriminate].
    + exists (Str.lower word), (Str.lower pre), (Str.lower post).
      split; [done|]. by rewrite !StrFacts.lower_app.
  - unfold _detect_captcha. destruct html as [|c html]; [done|].
    simpl negb. cbv iota. simpl truthy_str. rewrite andb_true_l.
    remember (Str.lower (String c html)) as l eqn:Hl. clear Hl.
    unfold captcha_keys, distinct_keys. cbn [existsb].
    destruct (Str.contains "captcha" l) eqn:Hc; [reflexivity|].
    assert (H1 : Str.contains "g-recaptcha" l = false).
    { apply not_true_iff_false. intros H.
      assert (Str.contains "captcha" l = true); [|congruence].
      eapply contains_trans; [|exact H]. reflexivity. }
    assert (H2 : Str.contains "hcaptcha" l = false).
    { apply not_true_iff_false. intros H.
      assert (Str.contains "captcha" l = true); [|congruence].
      eapply contains_trans; [|exact H]. reflexivity. }
    by rewrite H1, H2.
Qed.

Lemma detect_captcha_markers_witness :
  _detect_captcha ("<p>" +:+ "Are You HUMAN" +:+ "?</p>") = true.
Proof.
  destruct (detect_captcha_markers "") as (_ & Hany & _).
  apply Hany. vm_compute.
  do 5 right. left.
Defined.

(** X8.  [_looks_js_page]: every page of fewer than 1000 characters after
    stripping is taken for a JavaScript page; and the test for
    "window.__INITIAL_STATE__" never succeeds, because the needle has
    capital letters and is looked up in the lower-cased page, so only the
    other three markers count. *)
Theorem looks_js_page_short_or_marked (html : string) :
  ((String.length (Str.strip html) < 1000)%nat → _looks_js_page html = true)
  ∧ Str.contains "window.__INITIAL_STATE__" (Str.lower html) = false
  ∧ _looks_js_page html
    = Str.contains ("<div id=" +:+ dq +:+ "app" +:+ dq) (Str.lower html)
      || Str.contains "<div id='app'" (Str.lower html)
      || Str.contains ("id=" +:+ dq +:+ "__next" +:+ dq) (Str.lower html)
      || (String.length (Str.strip html) <? 1000)%nat.
Proof.
  assert (Hdead : Str.contains "window.__INITIAL_STATE__" (Str.lower html) = false)
    by (by apply StrFacts.capital_needle_never_in_lower).
  split_and!.
  - intros H%Nat.ltb_lt. unfold _looks_js_page. rewrite H. apply orb_true_r.
  - exact Hdead.
  - unfold _looks_js_page. cbv zeta. rewrite Hdead. by rewrite orb_false_r.
Qed.

Lemma looks_js_page_short_or_marked_witness :
  _looks_js_page "<html><body>hello</body></html>" = true.
Proof.
  destruct (looks_js_page_short_or_marked "<html><body>hello</body></html>")
    as (Hshort & _).
  apply Hshort. vm_compute. lia.
Defined.

End FetcherFacts.

(** * More on the fetcher: how a fetch can end *)
Module FetchOutcomes.
Import Time Fetcher.

Section WithLibraries.

Variable netloc : string → string.
Variable parsedate_to_datetime : string → option Q.
Variable render : string → option string.
Variable net : nat → Q * get_outcome.

Local Notation attempt_body := (attempt_body parsedate_to_datetime render net).
Local Notation attempts_loop := (attempts_loop parsedate_to_datetime render net).
Local Notation fetch := (fetch netloc parsedate_to_datetime render net).
Local Notation finish := (finish render).

(** The [k]-th request ends in the [except] clause: it raises, or it is
    answered 429 or 503. *)
Definition retryable (k : nat) : Prop :=
  match snd (net k) with
  | RequestException _ => True
  | Response st _ _ => st = 429 ∨ st = 503
  end.

(** What the [except] clause records as [last_err] for such a request:
    [str(e)] of the exception raised by the request, or of the
    [RequestException] the loop raises itself on 429 and 503. *)
Definition caught (k : nat) : string :=
  match snd (net k) with
  | RequestException msg => msg
  | Response st _ _ => "retryable status " +:+ pretty st
  end.

(** The [k]-th request is answered with any other status. *)
Definition answers (k : nat) (st : Z) (h : Headers) (text : string) : Prop :=
  snd (net k) = Response st h text ∧ st ≠ 429 ∧ st ≠ 503.

Lemma attempt_body_cases (f : t) (url host : string) (start : Q) (k : nat)
    (s : state) :
  (retryable k
   ∧ fst (attempt_body f url host start k s) = Caught (caught k)
   ∧ requests (snd (attempt_body f url host start k s)) = S (requests s))
  ∨ (∃ st h text s1,
       answers k st h text
       ∧ attempt_body f url host start k s
         = (Return (finish f url start st h text s1), s1)
       ∧ requests s1 = S (requests s)).
Proof.
  unfold Fetcher.attempt_body, retryable, answers, caught.
  destruct (RateLimiter.wait host (limiter s) (world s)) as [rl w1].
  destruct (net k) as [took out]. simpl.
  destruct out as [msg|st h text].
  - left. split_and!; done.
  - destruct (Z.eqb_spec st 429) as [->|H1]; simpl.
    { left. split_and!; [by left|done|done]. }
    destruct (Z.eqb_spec st 503) as [->|H2]; simpl.
    { left. split_and!; [by right|done|done]. }
    right. eexists st, h, text, _. split_and!; done.
Qed.

Lemma finish_elapsed (f : t) (url : string) (start : Q) (st : Z) (h : Headers)
    (text : string) (s : state) :
  elapsed (finish f url start st h text s) = (clock (world s) - start)%Q.
Proof.
  unfold Fetcher.finish.
  by destruct (Str.contains "text/html" (hget_or_empty "Content-Type" h)
               && _detect_captcha _).
Qed.

Lemma attempts_loop_cases (f : t) (url host : string) (start : Q)
    (attempts : list nat) (last_err : option string) (s : state) :
  let r := fst (attempts_loop f url host start attempts last_err s) in
  let s' := snd (attempts_loop f url host start attempts last_err s) in
  elapsed r = (clock (world s') - start)%Q
  ∧ ((Forall retryable attempts
      ∧ status r = None ∧ headers r = [] ∧ content r = ""
      ∧ (attempts = [] → error r = last_err ∧ s' = s)
      ∧ (∀ k, last attempts = Some k → error r = Some (caught k))
      ∧ requests s' = (requests s + length attempts)%nat)
     ∨ (∃ pre k post st h text,
          attempts = pre ++ k :: post
          ∧ Forall retryable pre
          ∧ answers k st h text
          ∧ r = finish f url start st h text s'
          ∧ requests s' = (requests s + length pre + 1)%nat)).
Proof.
  revert last_err s.
  induction attempts as [|k rest IH]; intros last_err s; simpl.
  - split; [done|]. left. split_and!; auto with lia. done.
  - destruct (attempt_body_cases f url host start k s)
      as [(Hk & Hmsg & Hreq)|(st & h & text & s1 & Hans & Hbody & Hreq)].
    + destruct (attempt_body f url host start k s) as [p s1]. simpl in *.
      subst p.
      destruct (IH (Some (caught k)) s1)
        as [Hel [(Hall & H1 & H2 & H3 & H4 & H5 & H6)
           |(pre & j & post & st & h & text & -> & Hpre & Hans & Hr & Hreq')]].
      * split; [done|]. left. split_and!; auto.
        -- done.
        -- intros j Hj. destruct rest as [|k' rest']; [|by apply H5].
           destruct (H4 eq_refl) as [-> _]. simpl in Hj. congruence.
        -- rewrite H6, Hreq. lia.
      * split; [done|]. right. exists (k :: pre), j, post, st, h, text.
        split_and!; auto. rewrite Hreq', Hreq. simpl. lia.
    + rewrite Hbody. simpl. split; [apply finish_elapsed|].
      right. exists [], k, rest, st, h, text.
      split_and!; auto. rewrite Hreq. simpl. lia.
Qed.

(** X9.  Every way a fetch can end, whatever the network does.  It never
    sends more than [retries + 1] requests, and the duration it reports is
    the clock at its end minus the clock at its start.  Either every one
    of the [retries + 1] requests raised or was answered 429/503: then all
    were sent and the result has status [None], headers [{}], content
    [b""] and as error what the [except] clause recorded for the last
    request (the text of its exception, or "retryable status <status>").
    Or some request [k] was the first to get another answer: then exactly
    [k] requests were sent and the result is built from that answer.  With
    [retries < 0] no request is sent at all and the result is the failure
    tuple with error [None]. *)
Theorem fetch_outcomes (f : t) (url : string) (s : state) :
  let r := fst (fetch f url s) in
  let s' := snd (fetch f url s) in
  let n := Z.to_nat (retries f + 1) in
  (requests s <= requests s' <= requests s + n)%nat
  ∧ elapsed r = (clock (world s') - clock (world s))%Q
  ∧ (((∀ k, (1 <= k <= n)%nat → retryable k)
      ∧ status r = None ∧ headers r = [] ∧ content r = ""
      ∧ error r = match n with
                  | O => None
                  | S _ => Some (caught n)
                  end
      ∧ requests s' = (requests s + n)%nat)
     ∨ (∃ k st h text,
          (1 <= k <= n)%nat
          ∧ (∀ j, (1 <= j < k)%nat → retryable j)
          ∧ answers k st h text
          ∧ r = finish f url (clock (world s)) st h text s'
          ∧ requests s' = (requests s + k)%nat))
  ∧ (retries f < 0 → error r = None ∧ status r = None ∧ s' = s).
Proof.
  intros r s' n.
  pose proof (attempts_loop_cases f url (netloc url) (clock (world s))
                (attempt_numbers f) None s) as [Hel Hcases].
  fold (fetch f url s) in Hel, Hcases. fold r s' in Hel, Hcases.
  unfold attempt_numbers in Hcases. fold n in Hcases.
  assert (Hshape :
    ((∀ k, (1 <= k <= n)%nat → retryable k)
      ∧ status r = None ∧ headers r = [] ∧ content r = ""
      ∧ error r = match n with
                  | O => None
                  | S _ => Some (caught n)
                  end
      ∧ requests s' = (requests s + n)%nat)
     ∨ (∃ k st h text,
          (1 <= k <= n)%nat
          ∧ (∀ j, (1 <= j < k)%nat → retryable j)
          ∧ answers k st h text
          ∧ r = finish f url (clock (world s)) st h text s'
          ∧ requests s' = (requests s + k)%nat)).
  { destruct Hcases
      as [(Hall & H1 & H2 & H3 & H4 & H5 & H6)
         |(pre & k & post & st & h & text & Hseq & Hpre & Hans & Hr & Hreq)].
    - left. split_and!; auto.
      + intros k Hk. eapply (proj1 (Forall_forall _ _) Hall).
        apply list_elem_of_In, in_seq. lia.
      + destruct n as [|m]; [by destruct (H4 eq_refl)|].
        apply H5. rewrite seq_S. apply last_snoc.
      + by rewrite length_seq in H6.
    - right.
      assert (Hlen : (length pre < n)%nat).
      { apply (f_equal length) in Hseq.
        rewrite length_seq, length_app in Hseq. simpl in Hseq. lia. }
      assert (Hk : k = S (length pre)).
      { assert (Hl : seq 1 n !! length pre = Some k).
        { rewrite Hseq. by rewrite list_lookup_middle. }
        apply lookup_seq in Hl as [-> _]. lia. }
      exists k, st, h, text.
      split; [lia|]. split; [|split; [done|split; [done|lia]]].
      intros j Hj. eapply (proj1 (Forall_forall _ _) Hpre).
      apply list_elem_of_lookup. exists (j - 1)%nat.
      assert (Hl : seq 1 n !! (j - 1)%nat = Some j).
      { apply lookup_seq. lia. }
      rewrite Hseq, lookup_app_l in Hl by lia. done. }
  split; [|split; [|split]].
  - destruct Hshape
      as [(_ & _ & _ & _ & _ & ->)|(k & ? & ? & ? & ? & _ & _ & _ & ->)]; lia.
  - exact Hel.
  - exact Hshape.
  - intros Hneg. subst r s'. unfold Fetcher.fetch, attempt_numbers.
    replace (Z.to_nat (retries f + 1)) with 0%nat by lia. done.
Qed.

(** X10.  The result built from an answer.  It always has a status and
    the answer's headers, and its error is [None] or
    ["CAPTCHA_DETECTED"].  If rendering is off, or the content type does
    not contain "text/html" (compared case-sensitively), the status is the
    server's and the content is the encoded body; in the second case the
    error is [None] whatever the body says.  If the page was rendered, the
    status is 200 and the content is the rendered page, whatever status
    the server sent.  The CAPTCHA test runs on the content that is
    returned. *)
Theorem finish_result_shape (f : t) (url : string) (start : Q) (st : Z)
    (h : Headers) (text : string) (s : state) :
  let r := finish f url start st h text s in
  let html := Str.contains "text/html" (hget_or_empty "Content-Type" h) in
  headers r = h
  ∧ (status r = Some st ∨ status r = Some 200)
  ∧ (error r = None ∨ error r = Some "CAPTCHA_DETECTED")
  ∧ (enable_render f = false ∨ html = false →
       status r = Some st ∧ content r = Str.utf8 text)
  ∧ (html = false → error r = None)
  ∧ (∀ page, enable_render f = true → html = true →
       _looks_js_page text = true → render url = Some page → page ≠ "" →
       status r = Some 200 ∧ content r = Str.utf8 page
       ∧ (error r = Some "CAPTCHA_DETECTED" ↔ _detect_captcha page = true))
  ∧ (enable_render f = false →
       (error r = Some "CAPTCHA_DETECTED"
          ↔ html = true ∧ _detect_captcha text = true)).
Proof.
  intros r html. subst r. unfold Fetcher.finish. fold html.
  split_and!.
  - by destruct (html && _detect_captcha _).
  - destruct (enable_render f && html && _looks_js_page text);
      [destruct (render url) as [p|]; [destruct (truthy_str p)|]|];
      simpl; destruct (html && _detect_captcha _); simpl; auto.
  - destruct (html && _detect_captcha _); simpl; auto.
  - intros Hoff.
    assert (Hno : enable_render f && html && _looks_js_page text = false).
    { destruct Hoff as [-> | ->]; [done|]. by rewrite andb_false_r. }
    rewrite Hno. simpl. by destruct (html && _detect_captcha _).
  - intros ->. by rewrite andb_false_l.
  - intros page Hon Hhtml Hjs Hrender Hpage.
    rewrite Hon, Hhtml, Hjs, Hrender. simpl.
    apply truthy_str_true in Hpage. rewrite Hpage. simpl.
    destruct (_detect_captcha page); simpl; split_and!; auto; split; done.
  - intros Hoff. rewrite Hoff. simpl.
    destruct html; simpl; [|split; [done|by intros [? _]]].
    destruct (_detect_captcha text); simpl; split; auto; try done.
    by intros [_ ?].
Qed.

End WithLibraries.

(** A server that answers 503 to every request. *)
Definition net_busy (k : nat) : Q * get_outcome :=
  (1%Q, Response 503 [] "busy").

Lemma fetch_outcomes_witness :
  let r := fst (fetch (λ _, "bama.ir") parsedate_example no_render net_busy
                  (mkFetcher 1 false) "https://bama.ir/" idle) in
  let s' := snd (fetch (λ _, "bama.ir") parsedate_example no_render net_busy
                   (mkFetcher 1 false) "https://bama.ir/" idle) in
  status r = None
  ∧ error r = Some "retryable status 503"
  ∧ requests s' = 2%nat
  ∧ elapsed r = (clock (world s') - 1000)%Q.
Proof.
  destruct (fetch_outcomes (λ _, "bama.ir") parsedate_example no_render
              net_busy (mkFetcher 1 false) "https://bama.ir/" idle)
    as (_ & Hel & [(_ & Hst & _ & _ & Herr & Hreq)
                  |(k & st & h & text & _ & _ & (Hans & _ & H503) & _)] & _).
  - split; [exact Hst|]. split; [exact Herr|]. split; [exact Hreq|exact Hel].
  - exfalso. apply H503. unfold net_busy in Hans. simpl in Hans. congruence.
Defined.

(** A page that needs JavaScript, answered with status 404 and rendered. *)
Definition render_page (url : string) : option string := Some "<html>ok</html>".

Lemma finish_result_shape_witness :
  status (finish render_page (mkFetcher 2 true) "https://bama.ir/" 0 404
            [("Content-Type", "text/html")] "<div id='app'></div>" idle)
  = Some 200.
Proof.
  destruct (finish_result_shape render_page (mkFetcher 2 true)
              "https://bama.ir/" 0 404 [("Content-Type", "text/html")]
              "<div id='app'></div>" idle) as (_ & _ & _ & _ & _ & Hr & _).
  destruct (Hr "<html>ok</html>") as (Hst & _);
    [reflexivity|reflexivity|reflexivity|reflexivity|discriminate|exact Hst].
Defined.

End FetchOutcomes.

(** * More on parser.py: links and domains *)
Module ParserFacts.
Import Parser.

Section WithLibraries.

(** Library calls: the [href] values of the [a] tags that BeautifulSoup
    finds in a page, in document order, and [normalize_url] of utils.py
    (urllib's join, defrag, split and quote), [None] for an invalid URL. *)
Variable anchors : string → list string.
Variable normalize_url : string → string → option string.

(** The body of [for a in soup.find_all('a', href=True)], with [hrefs]
    the list built so far. *)
Fixpoint collect (base_url : string) (max_links : Z) (found : list string)
    (hrefs : list string) : list string :=
  match found with
  | [] => hrefs
  | href :: rest =>
      if max_links <=? Z.of_nat (length hrefs) then hrefs
      else
        match normalize_url base_url href with
        | Some u =>
            if truthy_str u && (String.length u <? 2048)%nat
            then collect base_url max_links rest (hrefs ++ [u])
            else collect base_url max_links rest hrefs
        | None => collect base_url max_links rest hrefs
        end
  end.

(** [extract_links]. *)
Definition extract_links (base_url html : string) (max_links : Z) : list string :=
  collect base_url max_links (anchors html) [].

(** The normalised links that pass the test of the loop. *)
Definition usable (base_url : string) (found : list string) : list string :=
  filter (λ u, u ≠ "" ∧ (String.length u < 2048)%nat)
    (omap (normalize_url base_url) found).

Lemma collect_take (base_url : string) (max_links : Z) (found hrefs : list string) :
  collect base_url max_links found hrefs
  = hrefs ++ take (Z.to_nat max_links - length hrefs) (usable base_url found).
Proof.
  revert hrefs. induction found as [|href rest IH]; intros hrefs; simpl.
  - unfold usable. simpl. by destruct (Z.to_nat max_links - length hrefs)%nat; rewrite app_nil_r.
  - destruct (Z.leb_spec max_links (Z.of_nat (length hrefs))) as [Hfull|Hroom].
    + replace (Z.to_nat max_links - length hrefs)%nat with 0%nat by lia.
      by rewrite take_0, app_nil_r.
    + unfold usable in *. simpl.
      destruct (normalize_url base_url href) as [u|]; simpl; [|apply IH].
      destruct (truthy_str u) eqn:Hu; simpl.
      * destruct (Nat.ltb_spec (String.length u) 2048) as [Hlen|Hlen].
        -- rewrite filter_cons_True
             by (split; [by apply truthy_str_true|done]).
           rewrite IH, length_app. simpl.
           replace (Z.to_nat max_links - length hrefs)%nat
             with (S (Z.to_nat max_links - (length hrefs + 1)))%nat by lia.
           simpl. by rewrite <- app_assoc.
        -- rewrite filter_cons_False by (intros [_ ?]; lia). apply IH.
      * rewrite filter_cons_False; [apply IH|].
        intros [Hne _]. apply truthy_str_true in Hne. congruence.
Qed.

(** X11.  [extract_links] returns the first [max_links] of the normalised
    links that are non-empty and shorter than 2048 characters, in document
    order; so it returns at most [max_links] links (none for
    [max_links <= 0]), and every link it returns is accepted by the
    frontier's length check: [push_url] of it returns [True] exactly when
    the frontier does not hold the URL yet. *)
Theorem extract_links_bounded_and_pushable
    (base_url html : string) (max_links : Z) :
  let links := extract_links base_url html max_links in
  links = take (Z.to_nat max_links) (usable base_url (anchors html))
  ∧ (0 <= max_links → Z.of_nat (length links) <= max_links)
  ∧ (max_links <= 0 → links = [])
  ∧ ∀ u, u ∈ links →
      u ≠ "" ∧ (String.length u < 2048)%nat
      ∧ (∃ href, href ∈ anchors html ∧ normalize_url base_url href = Some u)
      ∧ ∀ p d par db,
          fst (DB.push_url u p d par db) = negb (DB.has_url u (DB.frontier db)).
Proof.
  intros links.
  assert (Hl : links = take (Z.to_nat max_links) (usable base_url (anchors html))).
  { subst links. unfold extract_links. rewrite collect_take. simpl.
    by rewrite Nat.sub_0_r. }
  split_and!.
  - exact Hl.
  - intros Hm. rewrite Hl, length_take. lia.
  - intros Hm. rewrite Hl. replace (Z.to_nat max_links) with 0%nat by lia. done.
  - intros u Hu. rewrite Hl in Hu.
    apply subseteq_take in Hu. unfold usable in Hu.
    apply list_elem_of_filter in Hu as [[Hne Hlen] Hu].
    apply list_elem_of_omap in Hu as (href & Hin & Hn).
    split; [done|]. split; [done|]. split; [by exists href|].
    intros p d par db. unfold DB.push_url.
    rewrite DB.push_url_guard_passes by (done || lia).
    unfold DB.insert_or_ignore. simpl.
    by destruct (DB.has_url u (DB.frontier db)).
Qed.

End WithLibraries.

Section Domains.

Variable netloc : string → string.

(** X12.  [same_reg_domain] compares text only.  With
    [follow_subdomains] it is true exactly when the lower-cased host ends
    with the allowed domain, whatever comes before it: a subdomain, but
    also a longer name with no dot at the join.  Without it, exactly when
    the lower-cased host is the allowed domain.  The allowed domain is not
    lower-cased, so one that has a capital letter matches no URL. *)
Theorem same_reg_domain_is_suffix_test (url allowed : string) :
  (same_reg_domain netloc url allowed true = true
     ↔ ∃ pre, Str.lower (netloc url) = pre +:+ allowed)
  ∧ (same_reg_domain netloc url allowed false = true
     ↔ Str.lower (netloc url) = allowed)
  ∧ (same_reg_domain netloc url allowed false = true →
     same_reg_domain netloc url allowed true = true)
  ∧ (Str.all_chars (λ c, negb (StrFacts.is_capital c)) allowed = false →
     ∀ follow, same_reg_domain netloc url allowed follow = false).
Proof.
  assert (Hsub : same_reg_domain netloc url allowed true = true
     ↔ ∃ pre, Str.lower (netloc url) = pre +:+ allowed).
  { unfold same_reg_domain. apply StrFacts.endswith_spec. }
  assert (Hexact : same_reg_domain netloc url allowed false = true
     ↔ Str.lower (netloc url) = allowed).
  { unfold same_reg_domain. apply String.eqb_eq. }
  split; [exact Hsub|]. split; [exact Hexact|]. split.
  - intros H%Hexact. apply Hsub. exists "". by rewrite StrFacts.append_nil.
  - intros Hcap follow.
    destruct (same_reg_domain netloc url allowed follow) eqn:Hs; [|done].
    assert (Hpre : ∃ pre, Str.lower (netloc url) = pre +:+ allowed).
    { destruct follow; [by apply Hsub|].
      apply Hexact in Hs. exists "". by rewrite StrFacts.append_nil. }
    destruct Hpre as [pre Hpre].
    pose proof (StrFacts.lower_no_capital (netloc url)) as Hlow.
    rewrite Hpre, StrFacts.all_chars_app in Hlow.
    apply andb_true_iff in Hlow as [_ Hlow]. congruence.
Qed.

End Domains.

(** X13.  The fetcher looks for a CAPTCHA and renders only when the
    [Content-Type] header, as sent, contains [text/html]; the crawler
    counts a page as HTML by [is_html_content], which lower-cases the
    header first.  Whatever the fetcher takes for HTML the crawler does
    too, but not the other way round: a page sent as [Text/HTML] is parsed
    for links without the CAPTCHA test having run. *)
Theorem fetcher_html_is_parser_html :
  (∀ h, Str.contains "text/html" (Fetcher.hget_or_empty "Content-Type" h) = true →
        is_html_content h = true)
  ∧ ∃ h, is_html_content h = true
         ∧ Str.contains "text/html" (Fetcher.hget_or_empty "Content-Type" h) = false.
Proof.
  split.
  - intros h Hct. unfold is_html_content, Fetcher.hget_or_empty in *.
    destruct (Fetcher.hget "Content-Type" h) as [v|]; simpl in Hct;
      [|by vm_compute in Hct].
    destruct (truthy_str v) eqn:Hv.
    + apply StrFacts.contains_spec in Hct as (pre & post & ->).
      apply StrFacts.contains_spec.
      exists (Str.lower pre), (Str.lower post).
      by rewrite !StrFacts.lower_app.
    + apply truthy_str_false in Hv. subst v. by vm_compute in Hct.
  - exists [("Content-Type", "Text/HTML")]. by vm_compute.
Qed.

End ParserFacts.

(** * More on storage.py *)
Module StorageFacts.
Import Storage.

Lemma substring_length (n : nat) (s : string) :
  String.length (String.substring 0 n s) = Nat.min n (String.length s).
Proof.
  revert n. induction s as [|c s IH]; intros [|n]; simpl; auto.
Qed.

Lemma substring_prefix (n : nat) (s : string) :
  ∃ rest, s = String.substring 0 n s +:+ rest.
Proof.
  revert n. induction s as [|c s IH]; intros [|n]; simpl.
  - by exists "".
  - by exists "".
  - exists (String c s). by rewrite StrFacts.append_nil.
  - destruct (IH n) as [rest Hrest]. exists rest.
    by rewrite StrFacts.append_cons, <- Hrest.
Qed.

(** X14.  [save_html] never writes more than 10 MiB: it returns the
    smaller of the content's length and 10485760, what it stores under the
    key is the beginning of the content (all of it when the content is no
    longer than that), and the audit records and the edges are left
    alone. *)
Theorem save_html_writes_capped_prefix (key content : string) (st : t) :
  let '(written, st') := save_html key content st in
  written = Z.min 10485760 (Z.of_nat (String.length content))
  ∧ 0 <= written <= 10485760
  ∧ (∃ stored rest,
       pages st' = pages st ++ [(key, stored)]
       ∧ content = stored +:+ rest
       ∧ Z.of_nat (String.length stored) = written
       ∧ (Z.of_nat (String.length content) <= 10485760 → stored = content))
  ∧ records st' = records st
  ∧ edges st' = edges st.
Proof.
  unfold save_html.
  assert (Hmax : Z.of_nat max_size = 10485760) by (unfold max_size; lia).
  generalize dependent max_size. intros n Hn.
  assert (Hw : Z.of_nat (String.length (String.substring 0 n content))
               = Z.min 10485760 (Z.of_nat (String.length content))).
  { rewrite substring_length. lia. }
  split; [exact Hw|]. split; [lia|]. split; [|done].
  destruct (substring_prefix n content) as [rest Hrest].
  exists (String.substring 0 n content), rest.
  split; [done|]. split; [done|]. split; [done|].
  intros Hshort.
  assert (Hlen : String.length (String.substring 0 n content)
                 = String.length content).
  { rewrite substring_length. lia. }
  clear -Hrest Hlen. revert Hrest Hlen.
  generalize (String.substring 0 n content). intros stored.
  revert stored. induction content as [|c s IH]; intros [|c' stored]; simpl;
    try done.
  rewrite StrFacts.append_cons. intros [= -> Hs] [= Hl]. f_equal. by apply IH.
Qed.

End StorageFacts.

(** * More on frontier.py: the worker task *)
Module TaskFacts.
Import Crawler.

Section WithLibraries.

Variable netloc : string → string.
Variable extract_links : string → string → list string.
Variable sha_path : string → string.

Local Notation process_link := (Crawler.process_link netloc).
Local Notation process_result :=
  (Crawler.process_result netloc extract_links sha_path).
Local Notation _fetch_and_process :=
  (Crawler._fetch_and_process netloc extract_links sha_path).

(** [is_internal] of the link loop. *)
Definition internal (cfg : Config) (link : string) : bool :=
  Parser.same_reg_domain netloc link (allowed_domain cfg) (follow_subdomains cfg).

(** [for discovered_url in links:], all turns. *)
Definition process_links (cfg : Config) (url : string) (depth : Z)
    (links : list string) (s : t) : t :=
  foldl (λ acc link, process_link cfg url depth link acc) s links.

(** The task runs: it is not cancelled by the test at its entry. *)
Definition runs (cfg : Config) (s : t) : bool :=
  negb ((max_pages cfg <=? pages_ok s) || stop_flag s).

(** The row the loop pushes for a link. *)
Definition child (url : string) (depth : Z) (link : string) : DB.Row :=
  DB.mkRow link (depth + 1) (depth + 1) (Some url).

(** *** One link *)

Lemma process_link_frame (cfg : Config) (url : string) (depth : Z)
    (link : string) (s : t) :
  let s' := process_link cfg url depth link s in
  Storage.records (storage s') = Storage.records (storage s)
  ∧ Storage.pages (storage s') = Storage.pages (storage s)
  ∧ Storage.edges (storage s') = Storage.edges (storage s) ++ [(url, link)]
  ∧ DB.seen (db s') = DB.seen (db s)
  ∧ total_bytes_saved s' = total_bytes_saved s
  ∧ lat_window s' = lat_window s.
Proof.
  unfold Crawler.process_link.
  destruct (Parser.same_reg_domain _ _ _ _).
  - destruct (bool_decide _); simpl.
    + pose proof (push_url_keeps_seen link (depth + 1) (depth + 1) (Some url) (db s)).
      destruct (DB.push_url _ _ _ _ _) as [[] ?]; simpl in *; auto 10.
    + pose proof (push_url_keeps_seen link (depth + 1) (depth + 1) (Some url) (db s)).
      destruct (DB.push_url _ _ _ _ _) as [[] ?]; simpl in *; auto 10.
  - destruct (bool_decide _); simpl; auto 10.
Qed.

(** The frontier and the counter of refused pushes after one link. *)
Lemma process_link_frontier (cfg : Config) (url : string) (depth : Z)
    (link : string) (s : t) :
  let s' := process_link cfg url depth link s in
  if internal cfg link then
    db s' = snd (DB.push_url link (depth + 1) (depth + 1) (Some url) (db s))
    ∧ dup_insert_ignored s'
      = dup_insert_ignored s
        + (if fst (DB.push_url link (depth + 1) (depth + 1) (Some url) (db s))
           then 0 else 1)
  else db s' = db s ∧ dup_insert_ignored s' = dup_insert_ignored s.
Proof.
  unfold Crawler.process_link, internal.
  destruct (Parser.same_reg_domain _ _ _ _).
  - destruct (bool_decide _); simpl;
      destruct (DB.push_url _ _ _ _ _) as [[] ?]; simpl; split; auto; lia.
  - destruct (bool_decide _); simpl; auto.
Qed.

Lemma push_url_count (u : string) (p d : Z) (par : option string) (x : DB.t) :
  Z.of_nat (length (DB.frontier (snd (DB.push_url u p d par x))))
  + (if fst (DB.push_url u p d par x) then 0 else 1)
  = Z.of_nat (length (DB.frontier x)) + 1.
Proof.
  unfold DB.push_url, DB.insert_or_ignore.
  destruct (negb (truthy_str u) || (2048 <? String.length u)%nat); simpl; [lia|].
  destruct (DB.has_url u (DB.frontier x)); simpl; [lia|].
  rewrite length_app. simpl. lia.
Qed.

(** X15.  The link loop of a page at [depth]: it writes one edge per link,
    in order; it pushes internal links only, each as a row with priority
    and depth [depth + 1] and the page as parent, after the rows already
    there, and keeps the keys distinct; every internal link is either
    inserted or counted in [dup_insert_ignored]; an internal link that
    passes the length check is in the frontier afterwards, also when the
    URL is already in the seen set (the push does not look at it); an
    external link is never added.  The seen set is not touched. *)
Theorem link_loop_edges_and_pushes (cfg : Config) (url : string) (depth : Z)
    (links : list string) (s : t) :
  let s' := process_links cfg url depth links s in
  Storage.edges (storage s')
    = Storage.edges (storage s) ++ map (λ l, (url, l)) links
  ∧ (∃ added,
       DB.frontier (db s') = DB.frontier (db s) ++ added
       ∧ Forall (λ row, DB.url row ∈ links
                        ∧ internal cfg (DB.url row) = true
                        ∧ row = child url depth (DB.url row)) added)
  ∧ (DB.unique_urls (db s) → DB.unique_urls (db s'))
  ∧ Z.of_nat (length (DB.frontier (db s'))) + dup_insert_ignored s'
    = Z.of_nat (length (DB.frontier (db s))) + dup_insert_ignored s
      + Z.of_nat (length (filter (λ l, internal cfg l = true) links))
  ∧ (∀ l, l ∈ links → internal cfg l = true → l ≠ "" →
          (String.length l <= 2048)%nat →
          l ∈ DB.urls (DB.frontier (db s')))
  ∧ (∀ l, internal cfg l = false →
          l ∈ DB.urls (DB.frontier (db s')) → l ∈ DB.urls (DB.frontier (db s)))
  ∧ DB.seen (db s') = DB.seen (db s).
Proof.
  unfold process_links. revert s.
  induction links as [|l links IH]; intros s.
  - simpl. split_and!; try done.
    + by rewrite app_nil_r.
    + exists []. by rewrite app_nil_r.
    + lia.
    + intros l Hl. by apply elem_of_nil in Hl.
  - simpl foldl.
    destruct (IH (process_link cfg url depth l s))
      as (He & (added & Hf & Hadded) & Hu & Hc & Hin & Hout & Hseen).
    destruct (process_link_frame cfg url depth l s)
      as (_ & _ & He1 & Hseen1 & _).
    pose proof (process_link_frontier cfg url depth l s) as Hl.
    simpl in He1, Hseen1, Hl.
    assert (Hfirst : ∃ a,
      DB.frontier (db (process_link cfg url depth l s)) = DB.frontier (db s) ++ a
      ∧ Forall (λ row, DB.url row = l ∧ internal cfg l = true
                       ∧ row = child url depth l) a
      ∧ (internal cfg l = true → l ≠ "" → (String.length l <= 2048)%nat →
         l ∈ DB.urls (DB.frontier (db (process_link cfg url depth l s))))
      ∧ (DB.unique_urls (db s)
         → DB.unique_urls (db (process_link cfg url depth l s)))
      ∧ Z.of_nat (length (DB.frontier (db (process_link cfg url depth l s))))
        + dup_insert_ignored (process_link cfg url depth l s)
        = Z.of_nat (length (DB.frontier (db s))) + dup_insert_ignored s
          + (if internal cfg l then 1 else 0)).
    { destruct (internal cfg l) eqn:Hint.
      - destruct Hl as [Hdb Hdup]. rewrite Hdb, Hdup.
        pose proof (push_url_count l (depth + 1) (depth + 1) (Some url) (db s)) as Hn.
        pose proof (DB.push_url_unique l (depth + 1) (depth + 1) (Some url) (db s)) as Hq.
        destruct (DB.push_url_frontier l (depth + 1) (depth + 1) (Some url) (db s))
          as [Hsame|[Hfresh Hnew]].
        + exists []. rewrite Hsame in *. rewrite app_nil_r.
          split_and!; [done|done| |done|lia].
          intros _ Hne Hlen.
          destruct (decide (l ∈ DB.urls (DB.frontier (db s)))) as [?|Hnot]; [done|].
          pose proof (DB.push_url_fresh l (depth + 1) (depth + 1) (Some url)
                        (db s) Hne Hlen Hnot) as Hp.
          rewrite Hp in Hsame. simpl in Hsame.
          apply (f_equal (λ x, length (DB.frontier x))) in Hsame.
          simpl in Hsame. rewrite length_app in Hsame. simpl in Hsame. lia.
        + exists [child url depth l]. rewrite Hnew in *. simpl in *.
          split_and!; [done|by repeat constructor| |done|lia].
          intros _ _ _. unfold DB.urls. rewrite map_app. simpl.
          apply elem_of_app. right. apply list_elem_of_singleton. done.
      - destruct Hl as [Hdb Hdup]. rewrite Hdb, Hdup. exists [].
        rewrite app_nil_r. split_and!; [done|done|done|done|lia]. }
    destruct Hfirst as (a & Hfa & Ha & Hina & Hua & Hca).
    split_and!.
    + rewrite He, He1. simpl. by rewrite <- app_assoc.
    + exists (a ++ added). rewrite Hf, Hfa, <- app_assoc. split; [done|].
      apply Forall_app. split.
      * eapply Forall_impl; [exact Ha|]. intros row (Hr & Hi & Hrow).
        simpl. rewrite Hr. split_and!; [left|done|done].
      * eapply Forall_impl; [exact Hadded|]. intros row (Hr & Hi & Hrow).
        simpl. split_and!; [by right|done|done].
    + intros H. by apply Hu, Hua.
    + rewrite Hc, Hca. destruct (internal cfg l) eqn:Hint.
      * rewrite filter_cons_True by done. simpl. lia.
      * rewrite filter_cons_False by (by rewrite Hint). lia.
    + intros l' [->|Hl']%elem_of_cons Hint Hne Hlen.
      * rewrite Hf. unfold DB.urls. rewrite map_app. apply elem_of_app. left.
        by apply Hina.
      * by apply Hin.
    + intros l' Hint Hl'. apply Hout in Hl'; [|done].
      rewrite Hfa in Hl'. unfold DB.urls in Hl'. rewrite map_app in Hl'.
      apply elem_of_app in Hl' as [?|Hl']; [done|].
      apply list_elem_of_fmap in Hl' as (row & -> & Hrow).
      rewrite Forall_forall in Ha. destruct (Ha row Hrow) as (Hr & Hi & _).
      rewrite Hr in Hint. congruence.
    + by rewrite Hseen, Hseen1.
Qed.

(** *** The whole task *)

Lemma process_links_frame (cfg : Config) (url : string) (depth : Z)
    (links : list string) (s : t) :
  let s' := foldl (λ acc link, process_link cfg url depth link acc) s links in
  Storage.records (storage s') = Storage.records (storage s)
  ∧ DB.seen (db s') = DB.seen (db s)
  ∧ lat_window s' = lat_window s.
Proof.
  revert s. induction links as [|l links IH]; intros s; simpl; [done|].
  destruct (IH (process_link cfg url depth l s)) as (-> & -> & ->).
  destruct (process_link_frame cfg url depth l s) as (-> & _ & _ & -> & _ & ->).
  done.
Qed.

Lemma count_page_frame (cfg : Config) (s : t) :
  storage (snd (count_page cfg s)) = storage s
  ∧ db (snd (count_page cfg s)) = db s
  ∧ lat_window (snd (count_page cfg s)) = lat_window s.
Proof.
  unfold count_page.
  destruct ((pages_ok s <? max_pages cfg) && negb (stop_flag s)); simpl; [|done].
  by destruct (max_pages cfg <=? pages_ok s + 1).
Qed.

Lemma count_page_pages (cfg : Config) (s : t) :
  pages_ok s < max_pages cfg → stop_flag s = false →
  pages_ok (snd (count_page cfg s)) = pages_ok s + 1
  ∧ stop_flag (snd (count_page cfg s)) = (max_pages cfg <=? pages_ok s + 1).
Proof.
  intros Hp Hs. unfold count_page. rewrite Hs.
  destruct (Z.ltb_spec (pages_ok s) (max_pages cfg)); [|lia]. simpl.
  by destruct (max_pages cfg <=? pages_ok s + 1).
Qed.

Lemma runs_true (cfg : Config) (s : t) :
  runs cfg s = true ↔ pages_ok s < max_pages cfg ∧ stop_flag s = false.
Proof.
  unfold runs. rewrite negb_true_iff, orb_false_iff, Z.leb_gt. tauto.
Qed.

Lemma task_by_runs (cfg : Config) (url : string) (depth : Z)
    (parent : option string) (r : Fetcher.FetchResult) (now : Q) (s : t) :
  _fetch_and_process cfg url depth parent r now s
  = if runs cfg s then process_result cfg url depth parent r now s else s.
Proof.
  unfold Crawler._fetch_and_process, runs.
  by destruct ((max_pages cfg <=? pages_ok s) || stop_flag s).
Qed.

(** The page was fetched without error, with a 2xx status, an HTML
    content type and a body: [ok_html]. *)
Definition ok_html (r : Fetcher.FetchResult) : bool :=
  is_2xx (Fetcher.status r)
  && Parser.is_html_content (Fetcher.headers r)
  && truthy_str (Fetcher.content r).

Ltac by_branches r :=
  unfold Crawler.process_result, ok_html;
  let Hc := fresh "Hc" in
  destruct (bool_decide (Fetcher.error r = Some "CAPTCHA_DETECTED")) eqn:Hc;
  [ apply bool_decide_eq_true in Hc; rewrite Hc
  | apply bool_decide_eq_false in Hc;
    destruct (truthy_ostr (Fetcher.error r));
    [ | destruct (is_2xx (Fetcher.status r));
        destruct (Parser.is_html_content (Fetcher.headers r));
        destruct (truthy_str (Fetcher.content r)) ] ];
  cbn [andb negb orb].

(** X16.  A task that is not cancelled at its entry appends exactly one
    audit record, whatever the fetch returned: it carries the URL, parent
    and depth of the task, the status and duration of the fetch, the
    length of the body ([None] for an empty one), and the fetch error when
    there is one.  A task cancelled at its entry (page ceiling reached or
    stop requested) changes nothing at all. *)
Theorem task_writes_one_audit_record (cfg : Config) (url : string) (depth : Z)
    (parent : option string) (r : Fetcher.FetchResult) (now : Q) (s : t) :
  let s' := _fetch_and_process cfg url depth parent r now s in
  if runs cfg s then
    ∃ rec,
      Storage.records (storage s') = Storage.records (storage s) ++ [rec]
      ∧ Storage.url rec = url
      ∧ Storage.parent_url rec = parent
      ∧ Storage.depth rec = depth
      ∧ Storage.status rec = Fetcher.status r
      ∧ Storage.fetch_sec rec = Fetcher.elapsed r
      ∧ Storage.size_bytes rec
        = (if truthy_str (Fetcher.content r)
           then Some (Z.of_nat (String.length (Fetcher.content r))) else None)
      ∧ Storage.error rec
        = (if truthy_ostr (Fetcher.error r) then Fetcher.error r else None)
  else s' = s.
Proof.
  simpl. rewrite task_by_runs. destruct (runs cfg s); [|done].
  by_branches r.
  - eexists. simpl. split_and!; reflexivity.
  - eexists. simpl. split_and!; reflexivity.
  - eexists. simpl.
    match goal with
    | |- context [count_page cfg ?x] =>
        destruct (count_page_frame cfg x) as (-> & _)
    end.
    match goal with
    | |- context [foldl ?f ?x ?l] =>
        destruct (process_links_frame cfg url depth l x) as (-> & _)
    end.
    split; [destruct (store_html cfg); reflexivity|].
    split_and!; reflexivity.
  - eexists. simpl. split_and!; reflexivity.
  - eexists. simpl. split_and!; reflexivity.
  - eexists. simpl. split_and!; reflexivity.
  - eexists. simpl. split_and!; reflexivity.
  - eexists. simpl. split_and!; reflexivity.
  - eexists. simpl. split_and!; reflexivity.
  - eexists. simpl. split_and!; reflexivity.
Qed.

Lemma task_seen (cfg : Config) (url : string) (depth : Z)
    (parent : option string) (r : Fetcher.FetchResult) (now : Q) (s : t) :
  DB.seen (db (process_result cfg url depth parent r now s))
  = if bool_decide (Fetcher.error r = Some "CAPTCHA_DETECTED")
    then DB.seen (db s) else {[url]} ∪ DB.seen (db s).
Proof.
  by_branches r; try reflexivity.
  - simpl. apply push_url_keeps_seen.
  - simpl.
    match goal with
    | |- context [count_page cfg ?x] =>
        destruct (count_page_frame cfg x) as (_ & -> & _)
    end.
    match goal with
    | |- context [foldl ?f ?x ?l] =>
        destruct (process_links_frame cfg url depth l x) as (_ & -> & _)
    end.
    destruct (store_html cfg); reflexivity.
Qed.

(** X17.  After a task, a URL is in the seen set exactly when it was
    there before, or it is the task's URL, the task was not cancelled at
    its entry and the fetch did not report a CAPTCHA: fetch errors, non-2xx
    and non-HTML answers all mark the URL seen, so it is not fetched
    again; only the CAPTCHA path leaves it unseen (it is queued again). *)
Theorem task_marks_seen_unless_captcha (cfg : Config) (url : string)
    (depth : Z) (parent : option string) (r : Fetcher.FetchResult) (now : Q)
    (s : t) (u : string) :
  let s' := _fetch_and_process cfg url depth parent r now s in
  DB.is_seen u (db s') = true
  ↔ DB.is_seen u (db s) = true
    ∨ (u = url ∧ runs cfg s = true
       ∧ Fetcher.error r ≠ Some "CAPTCHA_DETECTED").
Proof.
  simpl. rewrite task_by_runs. unfold DB.is_seen.
  rewrite !bool_decide_eq_true.
  destruct (runs cfg s).
  - rewrite task_seen.
    destruct (bool_decide (Fetcher.error r = Some "CAPTCHA_DETECTED")) eqn:Hc.
    + apply bool_decide_eq_true in Hc. split; [by left|].
      intros [?|(_ & _ & ?)]; done.
    + apply bool_decide_eq_false in Hc.
      rewrite elem_of_union, elem_of_singleton. split.
      * intros [->|?]; [by right|by left].
      * intros [?|(-> & _)]; [by right|by left].
  - split; [by left|]. by intros [?|(_ & ? & _)].
Qed.

(** X18.  A task puts its fetch in at most one of three counters, by one:
    [error_count] when the fetch reported an error (a CAPTCHA included),
    [pages_ok] when there was no error and the page is [ok_html],
    [non_html_count] when there was no error and the status is 2xx but the
    page is no HTML or empty; a status outside 2xx with no error is counted
    nowhere, and a cancelled task counts nothing.  [stop_flag] is raised
    exactly by the page that brings [pages_ok] to [max_pages], and is never
    cleared. *)
Theorem task_counts_in_one_bucket (cfg : Config) (url : string) (depth : Z)
    (parent : option string) (r : Fetcher.FetchResult) (now : Q) (s : t) :
  let s' := _fetch_and_process cfg url depth parent r now s in
  let failed := truthy_ostr (Fetcher.error r) in
  let counted (b : bool) : Z := if runs cfg s && b then 1 else 0 in
  error_count s' = error_count s + counted failed
  ∧ pages_ok s' = pages_ok s + counted (negb failed && ok_html r)
  ∧ non_html_count s'
    = non_html_count s
      + counted (negb failed && is_2xx (Fetcher.status r) && negb (ok_html r))
  ∧ counted failed + counted (negb failed && ok_html r)
    + counted (negb failed && is_2xx (Fetcher.status r) && negb (ok_html r)) <= 1
  ∧ stop_flag s'
    = stop_flag s
      || (runs cfg s && negb failed && ok_html r
          && (max_pages cfg <=? pages_ok s + 1))
  ∧ (pages_ok s <= max_pages cfg → pages_ok s' <= max_pages cfg).
Proof.
  simpl. rewrite task_by_runs.
  destruct (runs cfg s) eqn:Hruns; cbn [andb].
  2:{ rewrite !Z.add_0_r, orb_false_r. split_and!; (done || lia). }
  apply runs_true in Hruns as [Hp Hs].
  assert (Hok : ∀ x : t,
    pages_ok x = pages_ok s → stop_flag x = stop_flag s →
    ∀ l,
    let y := snd (count_page cfg
                    (foldl (λ acc link, process_link cfg url depth link acc) x l)) in
    pages_ok y = pages_ok s + 1
    ∧ stop_flag y = (max_pages cfg <=? pages_ok s + 1)
    ∧ error_count y = error_count x
    ∧ non_html_count y = non_html_count x).
  { intros x Hx1 Hx2 l.
    destruct (process_links_counters netloc cfg url depth l x) as (E & N & P & S).
    simpl in E, N, P, S. simpl.
    match goal with
    | |- context [count_page cfg ?z] =>
        destruct (count_page_counters cfg z) as [-> ->];
        destruct (count_page_pages cfg z) as [-> ->]; [lia|congruence|]
    end.
    rewrite P, Hx1. auto. }
  by_branches r.
  - simpl. rewrite Hs. split_and!; (reflexivity || lia).
  - simpl. rewrite Hs. split_and!; (reflexivity || lia).
  - simpl.
    match goal with
    | |- context [foldl ?f ?x ?l] =>
        let H1 := fresh in let H2 := fresh in
        assert (H1 : pages_ok x = pages_ok s) by (by destruct (store_html cfg));
        assert (H2 : stop_flag x = stop_flag s) by (by destruct (store_html cfg));
        destruct (Hok x H1 H2 l) as (-> & -> & -> & ->)
    end.
    rewrite Hs. simpl.
    split_and!; by destruct (store_html cfg); simpl; lia.
  - simpl. rewrite Hs. split_and!; (reflexivity || lia).
  - simpl. rewrite Hs. split_and!; (reflexivity || lia).
  - simpl. rewrite Hs. split_and!; (reflexivity || lia).
  - simpl. rewrite Hs. split_and!; (reflexivity || lia).
  - simpl. rewrite Hs. split_and!; (reflexivity || lia).
  - simpl. rewrite Hs. split_and!; (reflexivity || lia).
  - simpl. rewrite Hs. split_and!; (reflexivity || lia).
Qed.

(** *** The rolling windows *)

Lemma window_append_suffix (x : Q) (w : list Q) :
  ∃ dropped, w ++ [x] = dropped ++ window_append x w
             ∧ length dropped = (length w + 1 - 200)%nat.
Proof.
  unfold window_append. exists (take (length (w ++ [x]) - 200) (w ++ [x])).
  rewrite take_drop. split; [done|].
  rewrite length_take, !length_app. change (length [x]) with 1%nat. lia.
Qed.

Lemma window_append_length (x : Q) (w : list Q) :
  length (window_append x w) = Nat.min 200 (length w + 1).
Proof.
  unfold window_append. rewrite length_drop, length_app.
  change (length [x]) with 1%nat. lia.
Qed.

Lemma window_append_last (x : Q) (w : list Q) :
  last (window_append x w) = Some x.
Proof.
  unfold window_append.
  rewrite drop_app_le
    by (rewrite length_app; change (length [x]) with 1%nat; lia).
  apply last_snoc.
Qed.

Lemma process_links_windows (cfg : Config) (url : string) (depth : Z)
    (links : list string) (s : t) :
  let s' := foldl (λ acc link, process_link cfg url depth link acc) s links in
  lat_window s' = lat_window s ∧ err_window s' = err_window s.
Proof.
  revert s. induction links as [|l links IH]; intros s; simpl; [done|].
  destruct (IH (process_link cfg url depth l s)) as (-> & ->).
  unfold Crawler.process_link.
  destruct (Parser.same_reg_domain _ _ _ _).
  - destruct (bool_decide _); simpl;
      destruct (DB.push_url _ _ _ _ _) as [[] ?]; simpl; auto.
  - destruct (bool_decide _); simpl; auto.
Qed.

Lemma count_page_windows (cfg : Config) (s : t) :
  lat_window (snd (count_page cfg s)) = lat_window s
  ∧ err_window (snd (count_page cfg s)) = err_window s.
Proof.
  unfold count_page.
  destruct ((pages_ok s <? max_pages cfg) && negb (stop_flag s)); simpl; [|done].
  by destruct (max_pages cfg <=? pages_ok s + 1).
Qed.

Lemma task_windows (cfg : Config) (url : string) (depth : Z)
    (parent : option string) (r : Fetcher.FetchResult) (now : Q) (s : t) :
  let s' := process_result cfg url depth parent r now s in
  lat_window s' = window_append (Fetcher.elapsed r) (lat_window s)
  ∧ err_window s'
    = window_append (error_flag (Fetcher.error r)) (err_window s).
Proof.
  simpl. by_branches r; try (split; reflexivity).
  simpl.
  match goal with
  | |- context [count_page cfg ?x] =>
      destruct (count_page_windows cfg x) as (-> & ->)
  end.
  match goal with
  | |- context [foldl ?f ?x ?l] =>
      destruct (process_links_windows cfg url depth l x) as (-> & ->)
  end.
  destruct (store_html cfg); split; reflexivity.
Qed.

(** X19.  The samples the adaptive controller averages: every task that
    is not cancelled at its entry appends the duration of its fetch to the
    latency window and 1 or 0 (error or not) to the error window, whatever
    branch it takes; each window then drops its oldest sample if it held
    200, so it holds the most recent samples and never more than 200 of
    them. *)
Theorem task_feeds_rolling_windows (cfg : Config) (url : string) (depth : Z)
    (parent : option string) (r : Fetcher.FetchResult) (now : Q) (s : t) :
  runs cfg s = true →
  let s' := _fetch_and_process cfg url depth parent r now s in
  (∃ dropped, lat_window s ++ [Fetcher.elapsed r] = dropped ++ lat_window s'
              ∧ length dropped = (length (lat_window s) + 1 - 200)%nat)
  ∧ (∃ dropped,
       err_window s ++ [if truthy_ostr (Fetcher.error r) then 1%Q else 0%Q]
       = dropped ++ err_window s'
       ∧ length dropped = (length (err_window s) + 1 - 200)%nat)
  ∧ last (lat_window s') = Some (Fetcher.elapsed r)
  ∧ length (lat_window s') = Nat.min 200 (length (lat_window s) + 1)
  ∧ length (err_window s') = Nat.min 200 (length (err_window s) + 1).
Proof.
  intros Hruns. simpl. rewrite task_by_runs, Hruns.
  destruct (task_windows cfg url depth parent r now s) as [-> ->].
  split_and!.
  - apply window_append_suffix.
  - apply window_append_suffix.
  - apply window_append_last.
  - apply window_append_length.
  - apply window_append_length.
Qed.

End WithLibraries.

Lemma task_feeds_rolling_windows_witness :
  let s' := _fetch_and_process netloc_example no_links sha_path_example
              cfg_example "https://bama.ir/gone" 1 (Some "https://bama.ir/")
              not_found 1000
              (set_metrics [] (replicate 200 (1 # 2)%Q) (replicate 200 0%Q)
                 (init cfg_example)) in
  last (lat_window s') = Some (1 # 10)%Q
  ∧ length (lat_window s') = 200%nat
  ∧ length (err_window s') = 200%nat.
Proof.
  destruct (task_feeds_rolling_windows netloc_example no_links sha_path_example
              cfg_example "https://bama.ir/gone" 1 (Some "https://bama.ir/")
              not_found 1000
              (set_metrics [] (replicate 200 (1 # 2)%Q) (replicate 200 0%Q)
                 (init cfg_example)))
    as (_ & _ & Hlast & Hlat & Herr).
  - reflexivity.
  - split; [exact Hlast|]. split.
    + rewrite Hlat. reflexivity.
    + rewrite Herr. reflexivity.
Defined.

End TaskFacts.

(** * More on frontier.py: the scheduling loop of [run] *)
Module Scheduler.
Import Crawler.

(** The arguments of one [pool.submit(self._fetch_and_process, ...)]. *)
Definition task : Type := (string * Z * option string)%type.

Definition task_of (row : DB.Row) : task :=
  (DB.url row, DB.depth row, DB.parent_url row).

(** The crawler as the scheduling loop sees it: the fields of [Crawler.t],
    the flags and counters only the loop writes, and [futures], the tasks
    submitted and not yet collected (oldest first). *)
Record t : Type := mkScheduler {
  core : Crawler.t;
  pause_flag : bool;
  dup_seen : Z;
  robots_blocked_count : Z;
  futures : list task
}.

Definition set_core (x : Crawler.t) (s : t) : t :=
  mkScheduler x (pause_flag s) (dup_seen s) (robots_blocked_count s) (futures s).

Definition set_dup_seen (x : Z) (s : t) : t :=
  mkScheduler (core s) (pause_flag s) x (robots_blocked_count s) (futures s).

Definition set_robots_blocked_count (x : Z) (s : t) : t :=
  mkScheduler (core s) (pause_flag s) (dup_seen s) x (futures s).

Definition submit (x : task) (s : t) : t :=
  mkScheduler (core s) (pause_flag s) (dup_seen s) (robots_blocked_count s)
    (futures s ++ [x]).

Section WithLibraries.

(** [urlsplit(url).netloc]; the setting [respect_robots]; the answer of
    [self.robots.allowed(url)]; the reading of [time.time()] when the
    candidate [row] reaches the quarantine test.  The loop is taken on its
    own: while it runs no worker task writes the shared fields. *)
Variable netloc : string → string.
Variable respect_robots : bool.
Variable robots_allowed : string → bool.
Variable now : DB.Row → Q.

(** One turn of [for url, prio, depth, parent in batch:]; [None] is
    [break]. *)
Definition consider (cfg : Config) (row : DB.Row) (s : t) : option t :=
  let c := core s in
  let url := DB.url row in
  if stop_flag c || pause_flag s then None
  else if DB.is_seen url (db c) || (max_depth cfg <? DB.depth row) then
    Some (set_dup_seen (dup_seen s + 1) s)
  else if negb (Parser.same_reg_domain netloc url (allowed_domain cfg)
                  (follow_subdomains cfg)) then
    Some (set_dup_seen (dup_seen s + 1) s)
  else if respect_robots && negb (robots_allowed url) then
    let s := set_robots_blocked_count (robots_blocked_count s + 1) s in
    Some (set_core (Crawler.mark_seen url (core s)) s)
  else if quarantined (netloc url) (now row) c then
    Some (set_core
            (set_db (snd (DB.push_url url (DB.priority row) (DB.depth row)
                            (DB.parent_url row) (db c))) c) s)
  else if inflight_limit c <=? Z.of_nat (length (futures s)) then None
  else Some (submit (task_of row) s).

(** The [for] loop over a batch. *)
Fixpoint dispatch (cfg : Config) (batch : list DB.Row) (s : t) : t :=
  match batch with
  | [] => s
  | row :: rest =>
      match consider cfg row s with
      | None => s
      | Some s' => dispatch cfg rest s'
      end
  end.

(** [capacity], after both assignments. *)
Definition capacity (cfg : Config) (s : t) : Z :=
  let remaining := Z.max 0 (max_pages cfg - pages_ok (core s)) in
  Z.min (Z.max 0 (inflight_limit (core s) - Z.of_nat (length (futures s))))
    remaining.

(** The part of one turn of the [while] loop of [run] from [remaining] to
    the end of the [for] loop. *)
Definition schedule (cfg : Config) (s : t) : t :=
  let remaining := Z.max 0 (max_pages cfg - pages_ok (core s)) in
  if remaining =? 0 then s
  else if 0 <? capacity cfg s then
    let '(batch, db') := DB.pop_batch (capacity cfg s * 2) (db (core s)) in
    dispatch cfg batch (set_core (set_db db' (core s)) s)
  else s.

(** The batch that turn pops, and the state right after the pop. *)
Definition batch (cfg : Config) (s : t) : list DB.Row :=
  fst (DB.pop_batch (capacity cfg s * 2) (db (core s))).

Definition after_pop (cfg : Config) (s : t) : t :=
  set_core (set_db (snd (DB.pop_batch (capacity cfg s * 2) (db (core s))))
              (core s)) s.

(** A candidate that passes every test before the in-flight limit. *)
Definition eligible (cfg : Config) (c : Crawler.t) (row : DB.Row) : Prop :=
  DB.is_seen (DB.url row) (db c) = false
  ∧ DB.depth row <= max_depth cfg
  ∧ Parser.same_reg_domain netloc (DB.url row) (allowed_domain cfg)
      (follow_subdomains cfg) = true
  ∧ (respect_robots = true → robots_allowed (DB.url row) = true)
  ∧ quarantined (netloc (DB.url row)) (now row) c = false.

Lemma schedule_dispatch (cfg : Config) (s : t) :
  0 < capacity cfg s →
  schedule cfg s = dispatch cfg (batch cfg s) (after_pop cfg s).
Proof.
  intros Hcap. unfold schedule, batch, after_pop.
  assert (Hrem : 0 < Z.max 0 (max_pages cfg - pages_ok (core s)))
    by (unfold capacity in Hcap; lia).
  destruct (Z.eqb_spec (Z.max 0 (max_pages cfg - pages_ok (core s))) 0); [lia|].
  destruct (Z.ltb_spec 0 (capacity cfg s)); [|lia].
  by destruct (DB.pop_batch _ _).
Qed.

Lemma schedule_idle (cfg : Config) (s : t) :
  capacity cfg s <= 0 → schedule cfg s = s.
Proof.
  intros Hcap. unfold schedule.
  destruct (Z.eqb_spec (Z.max 0 (max_pages cfg - pages_ok (core s))) 0); [done|].
  by destruct (Z.ltb_spec 0 (capacity cfg s)); [lia|].
Qed.

(** What one candidate can change. *)
Lemma consider_some (cfg : Config) (row : DB.Row) (s s1 : t) :
  consider cfg row s = Some s1 →
  quarantine (core s1) = quarantine (core s)
  ∧ inflight_limit (core s1) = inflight_limit (core s)
  ∧ DB.seen (db (core s)) ⊆ DB.seen (db (core s1))
  ∧ (∀ u, u ∈ DB.seen (db (core s1)) →
       u ∈ DB.seen (db (core s))
       ∨ (u = DB.url row ∧ respect_robots = true ∧ robots_allowed u = false))
  ∧ (∀ x, x ∈ DB.frontier (db (core s1)) →
       x ∈ DB.frontier (db (core s))
       ∨ (x = row ∧ quarantined (netloc (DB.url row)) (now row) (core s) = true))
  ∧ (futures s1 = futures s
     ∨ (futures s1 = futures s ++ [task_of row]
        ∧ eligible cfg (core s) row
        ∧ Z.of_nat (length (futures s)) < inflight_limit (core s))).
Proof.
  unfold consider, eligible.
  destruct (stop_flag (core s) || pause_flag s); [done|].
  destruct (DB.is_seen (DB.url row) (db (core s))) eqn:Hseen; simpl.
  { intros [= <-]. simpl. split_and!; auto. }
  destruct (Z.ltb_spec (max_depth cfg) (DB.depth row)) as [Hd|Hd].
  { intros [= <-]. simpl. split_and!; auto. }
  destruct (Parser.same_reg_domain _ _ _ _) eqn:Hdom; simpl.
  2:{ intros [= <-]. simpl. split_and!; auto. }
  destruct (respect_robots && negb (robots_allowed (DB.url row))) eqn:Hrob.
  { intros [= <-]. simpl.
    apply andb_true_iff in Hrob as [Hr Ha%negb_true_iff].
    split_and!; auto.
    - apply union_subseteq_r.
    - intros u [->%elem_of_singleton|?]%elem_of_union; auto. }
  destruct (quarantined _ _ _) eqn:Hq.
  { intros [= <-]. simpl.
    rewrite push_url_keeps_seen. split_and!; auto.
    intros x Hx.
    destruct (DB.push_url_frontier (DB.url row) (DB.priority row)
                (DB.depth row) (DB.parent_url row) (db (core s)))
      as [Heq|[_ Heq]]; rewrite Heq in Hx; [by left|].
    simpl in Hx. apply elem_of_app in Hx as [?|Hx]; [by left|].
    apply list_elem_of_singleton in Hx. right. split; [|done].
    rewrite Hx. by destruct row. }
  destruct (Z.leb_spec (inflight_limit (core s)) (Z.of_nat (length (futures s))))
    as [?|Hroom]; [done|].
  intros [= <-]. simpl. split_and!; auto.
  right. split_and!; auto.
  intros Hr. rewrite Hr in Hrob. simpl in Hrob. by apply negb_false_iff in Hrob.
Qed.

Lemma quarantined_ext (host : string) (t0 : Q) (c c' : Crawler.t) :
  quarantine c' = quarantine c → quarantined host t0 c' = quarantined host t0 c.
Proof. unfold quarantined. by intros ->. Qed.

Lemma is_seen_mono (u : string) (x y : DB.t) :
  DB.seen x ⊆ DB.seen y → DB.is_seen u y = false → DB.is_seen u x = false.
Proof.
  unfold DB.is_seen. rewrite !bool_decide_eq_false. intros Hsub Hy Hx.
  by apply Hy, Hsub.
Qed.

Lemma eligible_earlier (cfg : Config) (c c' : Crawler.t) (row : DB.Row) :
  quarantine c' = quarantine c → DB.seen (db c) ⊆ DB.seen (db c') →
  eligible cfg c' row → eligible cfg c row.
Proof.
  intros Hq Hs (H1 & H2 & H3 & H4 & H5).
  split_and!; auto.
  - by eapply is_seen_mono.
  - by rewrite <- (quarantined_ext _ _ c c').
Qed.

(** What a whole [for] loop can change. *)
Lemma dispatch_frame (cfg : Config) (rows : list DB.Row) (s : t) :
  let s' := dispatch cfg rows s in
  quarantine (core s') = quarantine (core s)
  ∧ inflight_limit (core s') = inflight_limit (core s)
  ∧ DB.seen (db (core s)) ⊆ DB.seen (db (core s'))
  ∧ (∀ u, u ∈ DB.seen (db (core s')) →
       u ∈ DB.seen (db (core s))
       ∨ (u ∈ DB.urls rows ∧ respect_robots = true ∧ robots_allowed u = false))
  ∧ (∀ x, x ∈ DB.frontier (db (core s')) →
       x ∈ DB.frontier (db (core s))
       ∨ (x ∈ rows ∧ quarantined (netloc (DB.url x)) (now x) (core s) = true))
  ∧ ∃ new,
      futures s' = futures s ++ new
      ∧ Z.of_nat (length new)
        <= Z.max 0 (inflight_limit (core s) - Z.of_nat (length (futures s)))
      ∧ Forall (λ x, ∃ row, row ∈ rows ∧ x = task_of row
                            ∧ eligible cfg (core s) row) new.
Proof.
  revert s. induction rows as [|row rows IH]; intros s; simpl.
  - split_and!; auto. exists []. rewrite app_nil_r. split_and!; [done|simpl; lia|done].
  - destruct (consider cfg row s) as [s1|] eqn:Hc.
    2:{ split_and!; auto. exists []. rewrite app_nil_r.
        split_and!; [done|simpl; lia|done]. }
    destruct (consider_some cfg row s s1 Hc) as (Hq & Hl & Hs & Hs' & Hf & Hfu).
    destruct (IH s1) as (Iq & Il & Is & Is' & If & new & Inew & Ilen & Iel).
    split_and!.
    + congruence.
    + congruence.
    + by etrans.
    + intros u Hu. destruct (Is' u Hu) as [Hu1|(Hu1 & ? & ?)].
      * destruct (Hs' u Hu1) as [?|(-> & ? & ?)]; [by left|].
        right. split_and!; auto. left.
      * right. split_and!; auto. by right.
    + intros x Hx. destruct (If x Hx) as [Hx1|(Hx1 & Hx2)].
      * destruct (Hf x Hx1) as [?|(-> & ?)]; [by left|].
        right. split; [left|done].
      * right. split; [by right|]. by rewrite <- (quarantined_ext _ _ (core s) (core s1)).
    + assert (Hweak : Forall (λ x, ∃ row0, row0 ∈ row :: rows ∧ x = task_of row0
                                   ∧ eligible cfg (core s) row0) new).
      { eapply Forall_impl; [exact Iel|]. simpl.
        intros x (row0 & Hin & -> & Hel). exists row0.
        split_and!; [by right|done|]. by eapply eligible_earlier. }
      destruct Hfu as [Hsame|(Hadd & Hel & Hroom)].
      * exists new. rewrite Inew, Hsame. split_and!; [done| |done].
        rewrite Hsame, Hl in Ilen. exact Ilen.
      * exists (task_of row :: new). rewrite Inew, Hadd, <- app_assoc.
        split_and!; [done| |].
        -- rewrite Hadd, Hl, length_app in Ilen. simpl in *. lia.
        -- constructor; [|done]. exists row. split_and!; [left|done|done].
Qed.

(** After a [break] the rest of the batch is not looked at. *)
Lemma dispatch_break (cfg : Config) (pre : list DB.Row) (row : DB.Row)
    (post : list DB.Row) (s : t) :
  consider cfg row (dispatch cfg pre s) = None →
  dispatch cfg (pre ++ row :: post) s = dispatch cfg pre s.
Proof.
  revert s. induction pre as [|x pre IH]; intros s; simpl.
  - by intros ->.
  - destruct (consider cfg x s) as [s1|]; [apply IH|done].
Qed.

(** X20.  The tasks one scheduling turn submits: they are added after
    those in flight; there are at most [inflight_limit - len(futures)] of
    them, so the turn never takes the number in flight above
    [inflight_limit]; and each is a row that was in the frontier and that
    is not in the seen set, no deeper than [max_depth], on the allowed
    domain, allowed by robots.txt when [respect_robots] is set, and whose
    host is not in CAPTCHA quarantine. *)
Theorem schedule_submits_only_eligible (cfg : Config) (s : t) :
  let s' := schedule cfg s in
  ∃ new,
    futures s' = futures s ++ new
    ∧ Z.of_nat (length new)
      <= Z.max 0 (inflight_limit (core s) - Z.of_nat (length (futures s)))
    ∧ Z.of_nat (length (futures s'))
      <= Z.max (Z.of_nat (length (futures s))) (inflight_limit (core s))
    ∧ Forall (λ x, ∃ row, row ∈ DB.frontier (db (core s))
                          ∧ x = task_of row
                          ∧ eligible cfg (core s) row) new.
Proof.
  simpl. destruct (Z.lt_ge_cases 0 (capacity cfg s)) as [Hcap|Hcap].
  - rewrite schedule_dispatch by done.
    destruct (dispatch_frame cfg (batch cfg s) (after_pop cfg s))
      as (_ & _ & _ & _ & _ & new & Hnew & Hlen & Hel).
    exists new. simpl in *. split_and!; [done|done| |].
    + rewrite Hnew, length_app. lia.
    + eapply Forall_impl; [exact Hel|]. simpl.
      intros x (row & Hin & -> & Hrow). exists row. split_and!; [|done|].
      * by eapply DB.pop_batch_rows_stored.
      * eapply eligible_earlier; [| |exact Hrow]; simpl; [done|].
        by rewrite DB.pop_batch_seen.
  - rewrite schedule_idle by done. exists []. rewrite app_nil_r.
    split_and!; [done|simpl; lia|lia|done].
Qed.

(** X21.  When the [for] loop leaves by [break] at a candidate (a flag is
    set, or the in-flight limit is reached), that candidate and the rest
    of the batch are dropped: [pop_batch] has deleted their rows, the loop
    does not push them back, they are not marked seen and no task is
    submitted for them.  Nothing the crawler keeps mentions these URLs
    any more. *)
Theorem break_drops_rest_of_batch (cfg : Config) (s : t)
    (pre : list DB.Row) (row : DB.Row) (post : list DB.Row) :
  DB.unique_urls (db (core s)) →
  0 < capacity cfg s →
  batch cfg s = pre ++ row :: post →
  consider cfg row (dispatch cfg pre (after_pop cfg s)) = None →
  let s' := schedule cfg s in
  ∀ r, r ∈ row :: post →
    r ∈ DB.frontier (db (core s))
    ∧ (DB.url r ∉ DB.urls (DB.frontier (db (core s'))))
    ∧ DB.is_seen (DB.url r) (db (core s')) = DB.is_seen (DB.url r) (db (core s))
    ∧ ∃ new, futures s' = futures s ++ new
             ∧ Forall (λ x : task, x.1.1 ≠ DB.url r) new.
Proof.
  intros Huniq Hcap Hbatch Hbreak s' r Hr. subst s'.
  rewrite schedule_dispatch, Hbatch, dispatch_break by done.
  assert (Hin : r ∈ batch cfg s).
  { rewrite Hbatch. apply elem_of_app. by right. }
  assert (Hstored : r ∈ DB.frontier (db (core s)))
    by (by eapply DB.pop_batch_rows_stored).
  assert (Hnd : NoDup (DB.urls (batch cfg s))).
  { pose proof (DB.pop_batch_partition (capacity cfg s * 2) (db (core s)) Huniq)
      as Hperm.
    unfold DB.unique_urls in Huniq. unfold DB.urls in *.
    rewrite Hperm, fmap_app in Huniq.
    by apply NoDup_app in Huniq as (? & _ & _). }
  assert (Hpre : DB.url r ∉ DB.urls pre).
  { rewrite Hbatch in Hnd. unfold DB.urls in *. rewrite fmap_app in Hnd.
    apply NoDup_app in Hnd as (_ & Hdisj & _). intros Hu.
    apply (Hdisj _ Hu). by apply list_elem_of_fmap_2. }
  assert (Hgone : DB.url r ∉ DB.urls (DB.frontier (db (core (after_pop cfg s))))).
  { unfold after_pop. simpl. rewrite DB.pop_batch_frontier.
    intros (x & Hx & Hxu)%DB.elem_of_urls.
    apply DB.elem_of_delete_urls in Hx as [_ Hx]. apply Hx.
    rewrite Hxu. fold (batch cfg s). apply DB.elem_of_urls. eauto. }
  destruct (dispatch_frame cfg pre (after_pop cfg s))
    as (_ & _ & Hs & Hs' & Hf & new & Hnew & _ & Hel).
  simpl in Hs, Hs', Hf, Hnew, Hel.
  split_and!.
  - done.
  - intros (x & Hx & Hxu)%DB.elem_of_urls.
    destruct (Hf x Hx) as [Hx1|[Hx1 _]].
    + apply Hgone. apply DB.elem_of_urls. eauto.
    + apply Hpre. apply DB.elem_of_urls. eauto.
  - unfold DB.is_seen. apply bool_decide_ext. split.
    + intros Hu. destruct (Hs' _ Hu) as [Hu1|(Hu1 & _)]; [|done].
      unfold after_pop in Hu1. simpl in Hu1. by rewrite DB.pop_batch_seen in Hu1.
    + intros Hu. apply Hs. unfold after_pop. simpl. by rewrite DB.pop_batch_seen.
  - exists new. split; [done|].
    eapply Forall_impl; [exact Hel|]. simpl.
    intros x (row0 & Hin0 & -> & _) Heq. simpl in Heq.
    apply Hpre. apply DB.elem_of_urls. eauto.
Qed.

End WithLibraries.

(** Two URLs are queued, nothing is in flight and the in-flight limit is
    1: the turn pops both rows, submits the first and leaves the loop at
    the second. *)
Definition row_a : DB.Row := DB.mkRow "https://bama.ir/a" 1 1 None.
Definition row_b : DB.Row := DB.mkRow "https://bama.ir/b" 1 1 None.

Definition two_queued : t :=
  mkScheduler
    (set_inflight_limit 1
       (set_db (DB.mkDB [row_a; row_b] ∅) (init cfg_example)))
    false 0 0 [].

Definition always_allowed (url : string) : bool := true.
Definition at_1000 (row : DB.Row) : Q := 1000%Q.

Lemma break_drops_rest_of_batch_witness :
  let s' := schedule netloc_example false always_allowed at_1000
              cfg_example two_queued in
  row_b ∈ DB.frontier (db (core two_queued))
  ∧ (DB.url row_b ∉ DB.urls (DB.frontier (db (core s'))))
  ∧ DB.is_seen (DB.url row_b) (db (core s')) = false
  ∧ ∃ new, futures s' = [] ++ new
           ∧ Forall (λ x : task, x.1.1 ≠ DB.url row_b) new.
Proof.
  destruct (break_drops_rest_of_batch netloc_example false always_allowed
              at_1000 cfg_example two_queued [row_a] row_b [])
    with (r := row_b) as (Hq & Hgone & Hseen & Hnew).
  - apply (bool_decide_unpack _). vm_compute. exact I.
  - vm_compute. reflexivity.
  - vm_compute. reflexivity.
  - vm_compute. reflexivity.
  - left.
  - split; [exact Hq|]. split; [exact Hgone|]. split; [|exact Hnew].
    rewrite Hseen. vm_compute. reflexivity.
Defined.

End Scheduler.

(** * More on frontier.py: seeding and the adaptive controller *)
Module ControlFacts.
Import Crawler.

Section Seeding.

(** [normalize_url] of utils.py, [None] for an invalid URL. *)
Variable normalize_url : string → string → option string.

(** One turn of [for s in seeds:]. *)
Definition seed_one (c : t) (sd : string) : t :=
  match normalize_url sd "" with
  | Some u =>
      if truthy_str u then
        let '(inserted, db') := DB.push_url u 0 0 None (db c) in
        let c' := set_db db' c in
        if inserted then c'
        else set_dup_insert_ignored (dup_insert_ignored c' + 1) c'
      else c
  | None => c
  end.

(** [Crawler.seed]. *)
Definition seed (seeds : list string) (c : t) : t :=
  let frontier_left := DB.frontier_size (db c) in
  if (0 <? pages_ok c) || (0 <? frontier_left) then c
  else foldl seed_one c seeds.

(** The seed gives a URL to push. *)
Definition seedable (sd : string) : bool :=
  match normalize_url sd "" with
  | Some u => truthy_str u
  | None => false
  end.

Lemma seed_one_frame (c : t) (sd : string) :
  let c' := seed_one c sd in
  pages_ok c' = pages_ok c
  ∧ DB.seen (db c') = DB.seen (db c)
  ∧ storage c' = storage c
  ∧ (DB.unique_urls (db c) → DB.unique_urls (db c'))
  ∧ (∃ added,
       DB.frontier (db c') = DB.frontier (db c) ++ added
       ∧ Forall (λ row, normalize_url sd "" = Some (DB.url row)
                        ∧ row = DB.mkRow (DB.url row) 0 0 None) added)
  ∧ DB.frontier_size (db c') + dup_insert_ignored c'
    = DB.frontier_size (db c) + dup_insert_ignored c
      + (if seedable sd then 1 else 0).
Proof.
  unfold seed_one, seedable.
  destruct (normalize_url sd "") as [u|] eqn:Hn; simpl.
  2:{ split_and!; auto; [|lia]. exists []. by rewrite app_nil_r. }
  destruct (truthy_str u); simpl.
  2:{ split_and!; auto; [|lia]. exists []. by rewrite app_nil_r. }
  pose proof (StoreFacts.push_url_size u 0 0 None (db c)) as Hsize.
  pose proof (push_url_keeps_seen u 0 0 None (db c)) as Hseen.
  pose proof (DB.push_url_unique u 0 0 None (db c)) as Huniq.
  pose proof (DB.push_url_frontier u 0 0 None (db c)) as Hfr.
  destruct (DB.push_url u 0 0 None (db c)) as [inserted db'].
  simpl in Hsize, Hseen, Huniq, Hfr.
  assert (Hadded : ∃ added,
    DB.frontier db' = DB.frontier (db c) ++ added
    ∧ Forall (λ row, Some u = Some (DB.url row)
                     ∧ row = DB.mkRow (DB.url row) 0 0 None) added).
  { destruct Hfr as [->|[_ ->]].
    - exists []. by rewrite app_nil_r.
    - exists [DB.mkRow u 0 0 None]. split; [done|]. by repeat constructor. }
  destruct inserted; simpl; split_and!; auto; lia.
Qed.

(** X22.  [seed] does nothing when a crawl is resumed, that is when a
    page has been counted or the frontier is not empty.  Otherwise it
    leaves [pages_ok], the seen set and the storage alone, and the
    frontier it builds holds only rows at priority 0 and depth 0 with no
    parent, whose URLs are normalised seeds and are distinct; every seed
    that normalises to a non-empty URL is either queued or counted in
    [dup_insert_ignored]. *)
Theorem seed_only_on_fresh_crawl (seeds : list string) (c : t) :
  let c' := seed seeds c in
  (0 < pages_ok c ∨ DB.frontier (db c) ≠ [] → c' = c)
  ∧ (pages_ok c <= 0 → DB.frontier (db c) = [] →
     pages_ok c' = pages_ok c
     ∧ DB.seen (db c') = DB.seen (db c)
     ∧ storage c' = storage c
     ∧ DB.unique_urls (db c')
     ∧ Forall (λ row, (∃ sd, sd ∈ seeds
                             ∧ normalize_url sd "" = Some (DB.url row))
                      ∧ row = DB.mkRow (DB.url row) 0 0 None)
         (DB.frontier (db c'))
     ∧ DB.frontier_size (db c') + dup_insert_ignored c'
       = dup_insert_ignored c
         + Z.of_nat (length (filter (λ sd, seedable sd = true) seeds))).
Proof.
  simpl. split.
  - intros Hresume. unfold seed, DB.frontier_size.
    destruct Hresume as [Hp|Hf].
    + by destruct (Z.ltb_spec 0 (pages_ok c)); [|lia].
    + destruct (DB.frontier (db c)) as [|x f]; [done|]. simpl.
      by rewrite orb_true_r.
  - intros Hp Hf. unfold seed, DB.frontier_size. rewrite Hf. simpl.
    destruct (Z.ltb_spec 0 (pages_ok c)); [lia|]. simpl.
    assert (Hgen : ∀ sds c0,
      let c1 := foldl seed_one c0 sds in
      pages_ok c1 = pages_ok c0
      ∧ DB.seen (db c1) = DB.seen (db c0)
      ∧ storage c1 = storage c0
      ∧ (DB.unique_urls (db c0) → DB.unique_urls (db c1))
      ∧ (∃ added,
           DB.frontier (db c1) = DB.frontier (db c0) ++ added
           ∧ Forall (λ row, (∃ sd, sd ∈ sds
                                   ∧ normalize_url sd "" = Some (DB.url row))
                            ∧ row = DB.mkRow (DB.url row) 0 0 None) added)
      ∧ DB.frontier_size (db c1) + dup_insert_ignored c1
        = DB.frontier_size (db c0) + dup_insert_ignored c0
          + Z.of_nat (length (filter (λ sd, seedable sd = true) sds))).
    { clear. induction sds as [|sd sds IH]; intros c0; simpl.
      - split_and!; auto; [|lia]. exists []. by rewrite app_nil_r.
      - destruct (IH (seed_one c0 sd))
          as (-> & -> & -> & Hu & (added & -> & Hadded) & ->).
        destruct (seed_one_frame c0 sd)
          as (-> & -> & -> & Hu1 & (a & -> & Ha) & ->).
        split_and!; auto.
        + exists (a ++ added). rewrite <- app_assoc. split; [done|].
          apply Forall_app. split.
          * eapply Forall_impl; [exact Ha|]. simpl. intros row [Hn Hrow].
            split; [|done]. exists sd. split; [left|done].
          * eapply Forall_impl; [exact Hadded|]. simpl.
            intros row [(sd' & Hin & Hn) Hrow].
            split; [|done]. exists sd'. split; [by right|done].
        + destruct (seedable sd) eqn:Hsd.
          * rewrite filter_cons_True by done. simpl length. lia.
          * rewrite filter_cons_False by (by rewrite Hsd). lia. }
    destruct (Hgen seeds c) as (H1 & H2 & H3 & H4 & (added & H5 & H6) & H7).
    simpl in *. unfold DB.frontier_size in H7. rewrite Hf in H5, H7.
    simpl in H5, H7.
    split_and!; auto.
    + apply H4. unfold DB.unique_urls. rewrite Hf. constructor.
    + by rewrite H5.
Qed.

End Seeding.

(** X23.  [_maybe_adapt] writes [inflight_limit] and nothing else.  With
    thresholds in order ([ad_low <= ad_high], [ad_err_high >= 0]) the two
    adjustments exclude each other, so one call moves the limit by at
    most one step: it stays, or becomes [min(ad_max, limit + ad_step)],
    or becomes [max(ad_min, limit - ad_step)]; and it is raised only while
    the frontier holds more URLs than the limit. *)
Theorem maybe_adapt_moves_one_step (cfg : Config) (s : t) :
  (ad_low cfg <= ad_high cfg)%Q → (0 <= ad_err_high cfg)%Q →
  let s' := _maybe_adapt cfg s in
  s' = set_inflight_limit (inflight_limit s') s
  ∧ (inflight_limit s' = inflight_limit s
     ∨ (inflight_limit s' = Z.min (ad_max cfg) (inflight_limit s + ad_step cfg)
        ∧ inflight_limit s < DB.frontier_size (db s))
     ∨ inflight_limit s' = Z.max (ad_min cfg) (inflight_limit s - ad_step cfg)).
Proof.
  intros Hlow Herr. simpl.
  assert (Hid : s = set_inflight_limit (inflight_limit s) s) by (by destruct s).
  unfold _maybe_adapt.
  destruct (length (lat_window s) <? 10)%nat; [auto|].
  set (avg := mean (lat_window s)).
  match goal with
  | |- context [Time.gtb (ad_err_high cfg / 2) ?e] => set (er := e)
  end.
  destruct (Time.gtb (ad_low cfg) avg) eqn:H1; simpl.
  - apply Time.gtb_true in H1.
    assert (H4 : Time.gtb avg (ad_high cfg) = false)
      by (apply Time.gtb_false; lra).
    rewrite H4. simpl.
    destruct (Time.gtb (ad_err_high cfg / 2) er) eqn:H2; simpl.
    + apply Time.gtb_true in H2.
      assert (H5 : Time.gtb er (ad_err_high cfg) = false).
      { apply Time.gtb_false.
        assert ((ad_err_high cfg / 2 <= ad_err_high cfg)%Q); [|lra].
        apply Qle_shift_div_r; lra. }
      rewrite H5.
      destruct (Z.ltb_spec (inflight_limit s) (DB.frontier_size (db s))); simpl.
      * split; [done|]. right. left. auto.
      * auto.
    + destruct (Time.gtb er (ad_err_high cfg)); simpl; auto.
  - destruct (Time.gtb avg (ad_high cfg) || Time.gtb er (ad_err_high cfg));
      simpl; auto.
Qed.

Lemma maybe_adapt_moves_one_step_witness :
  let s' := _maybe_adapt cfg_example (busy cfg_example) in
  s' = set_inflight_limit (inflight_limit s') (busy cfg_example)
  ∧ inflight_limit s' = 6.
Proof.
  destruct (maybe_adapt_moves_one_step cfg_example (busy cfg_example))
    as [Hframe _].
  - vm_compute. discriminate.
  - vm_compute. discriminate.
  - split; [exact Hframe|]. vm_compute. reflexivity.
Defined.

End ControlFacts.

(** * More on frontier.py: the checkpoint and a restart *)
Module Checkpoint.
Import Crawler.

(** The JSON values [get_status_dict] writes. *)
Inductive value : Type :=
| VInt (n : Z)
| VFloat (x : Q)
| VBool (b : bool)
| VStr (s : string)
| VNull.

(** The dict dumped to, and loaded from, [checkpoint.json]. *)
Definition snapshot : Type := gmap string value.

(** What [_load_checkpoint_if_exists] finds: no file; a file that
    [json.load] rejects, or whose content is no dict; a dict. *)
Inductive checkpoint_file : Type :=
| Missing
| Unreadable
| Loaded (cp : snapshot).

Section WithLibraries.

(** [int(s)] on a [str], [None] when it raises; the setting
    [adaptive_enabled]; [self.storage.reports_dir]; [self.start_time]. *)
Variable int_of_str : string → option Z.
Variable adaptive_enabled : bool.
Variable reports_dir : string.
Variable start_time : Q.

(** [int(v)], [None] when it raises. *)
Definition int_of (v : value) : option Z :=
  match v with
  | VInt n => Some n
  | VFloat x => Some (Fetcher.trunc x)
  | VBool b => Some (if b then 1 else 0)
  | VStr s => int_of_str s
  | VNull => None
  end.

(** [Crawler.get_status_dict] at clock reading [now]. *)
Definition get_status_dict (cfg : Config) (now : Q) (s : Scheduler.t)
    : snapshot :=
  let c := Scheduler.core s in
  let elapsed_total :=
    if Time.gtb (now - start_time) (1 # 1000000) then (now - start_time)%Q
    else (1 # 1000000)%Q in
  let rate := (inject_Z (pages_ok c) / elapsed_total)%Q in
  let avg_lat := match lat_window c with
                 | [] => VNull
                 | w => VFloat (mean w)
                 end in
  let err_rate := match err_window c with
                  | [] => 0%Q
                  | w => mean w
                  end in
  list_to_map
    [ ("allowed_domain", VStr (allowed_domain cfg));
      ("pages_ok", VInt (pages_ok c));
      ("error_count", VInt (error_count c));
      ("non_html_count", VInt (non_html_count c));
      ("robots_blocked_count", VInt (Scheduler.robots_blocked_count s));
      ("dup_seen", VInt (Scheduler.dup_seen s));
      ("dup_insert_ignored", VInt (dup_insert_ignored c));
      ("dup_count", VInt (Scheduler.dup_seen s + dup_insert_ignored c));
      ("internal_links_unique", VInt (internal_links_unique c));
      ("external_links_unique", VInt (external_links_unique c));
      ("bytes_saved", VInt (total_bytes_saved c));
      ("elapsed_sec", VFloat elapsed_total);
      ("rate_pages_per_sec", VFloat rate);
      ("frontier_queue_size", VInt (DB.frontier_size (db c)));
      ("inflight_limit", VInt (inflight_limit c));
      ("adaptive_enabled", VBool adaptive_enabled);
      ("avg_latency_sec", avg_lat);
      ("error_rate_window", VFloat err_rate);
      ("paused", VBool (Scheduler.pause_flag s));
      ("stopped", VBool (stop_flag c));
      ("reports_dir", VStr reports_dir) ].

(** [Crawler._write_checkpoint] when the file is written: the dict that
    is dumped; [stamp] is the second reading of the clock. *)
Definition _write_checkpoint (cfg : Config) (now stamp : Q) (s : Scheduler.t)
    : snapshot :=
  <["timestamp" := VFloat stamp]> (get_status_dict cfg now s).

(** [cp.get(key, 0)]. *)
Definition get_or_zero (cp : snapshot) (key : string) : value :=
  default (VInt 0) (cp !! key).

(** [Crawler._load_checkpoint_if_exists]: the three assignments in turn;
    an exception ends the [try] block and keeps what was assigned. *)
Definition _load_checkpoint_if_exists (file : checkpoint_file) (c : t) : t :=
  match file with
  | Missing | Unreadable => c
  | Loaded cp =>
      match int_of (get_or_zero cp "pages_ok") with
      | None => c
      | Some p =>
          let c := set_pages_ok p c in
          match int_of (get_or_zero cp "internal_links_unique") with
          | None => c
          | Some i =>
              let c := set_internal (unique_internal c) i c in
              match int_of (get_or_zero cp "external_links_unique") with
              | None => c
              | Some e => set_external (unique_external c) e c
              end
          end
      end
  end.

(** [Crawler.__init__] on a data directory whose SQLite file holds [store]
    and whose reports hold [st] and the checkpoint [file]. *)
Definition restart (cfg : Config) (store : DB.t) (st : Storage.t)
    (file : checkpoint_file) : t :=
  _load_checkpoint_if_exists file (set_storage st (set_db store (init cfg))).

Lemma written_pages_ok (cfg : Config) (now stamp : Q) (s : Scheduler.t) :
  get_or_zero (_write_checkpoint cfg now stamp s) "pages_ok"
  = VInt (pages_ok (Scheduler.core s)).
Proof. reflexivity. Qed.

Lemma written_internal (cfg : Config) (now stamp : Q) (s : Scheduler.t) :
  get_or_zero (_write_checkpoint cfg now stamp s) "internal_links_unique"
  = VInt (internal_links_unique (Scheduler.core s)).
Proof. reflexivity. Qed.

Lemma written_external (cfg : Config) (now stamp : Q) (s : Scheduler.t) :
  get_or_zero (_write_checkpoint cfg now stamp s) "external_links_unique"
  = VInt (external_links_unique (Scheduler.core s)).
Proof. reflexivity. Qed.

(** X24.  A restart from the checkpoint the crawler wrote: [pages_ok]
    and the two unique-link counters come back; the frontier and the seen
    set are those of the SQLite file; every other counter starts at 0
    again, the sets behind the unique-link counters start empty, no host
    is quarantined, [stop_flag] is clear and [inflight_limit] is
    [ad_min].  So the first link a resumed crawl finds overwrites the
    restored unique-link counter of its kind with 1; a crawl that had
    counted a page is not seeded again; and a crawl that had reached
    [max_pages] cancels every task.  Without a readable checkpoint
    [pages_ok] is 0. *)
Theorem restart_restores_three_counters (cfg : Config) (now stamp : Q)
    (s : Scheduler.t) (store : DB.t) (st : Storage.t) :
  let c := Scheduler.core s in
  let c' := restart cfg store st (Loaded (_write_checkpoint cfg now stamp s)) in
  (pages_ok c' = pages_ok c
   ∧ internal_links_unique c' = internal_links_unique c
   ∧ external_links_unique c' = external_links_unique c)
  ∧ (db c' = store ∧ storage c' = st)
  ∧ (error_count c' = 0 ∧ non_html_count c' = 0 ∧ dup_insert_ignored c' = 0
     ∧ total_bytes_saved c' = 0 ∧ unique_internal c' = ∅
     ∧ unique_external c' = ∅ ∧ quarantine c' = ∅ ∧ stop_flag c' = false
     ∧ inflight_limit c' = ad_min cfg)
  ∧ (∀ netloc url depth link,
       let c2 := process_link netloc cfg url depth link c' in
       if TaskFacts.internal netloc cfg link
       then internal_links_unique c2 = 1
            ∧ external_links_unique c2 = external_links_unique c
       else external_links_unique c2 = 1
            ∧ internal_links_unique c2 = internal_links_unique c)
  ∧ (0 < pages_ok c →
     ∀ normalize_url seeds, ControlFacts.seed normalize_url seeds c' = c')
  ∧ (max_pages cfg <= pages_ok c → TaskFacts.runs cfg c' = false)
  ∧ pages_ok (restart cfg store st Missing) = 0
  ∧ pages_ok (restart cfg store st Unreadable) = 0.
Proof.
  intros c c'.
  assert (Hc' : c' = set_external ∅ (external_links_unique c)
                       (set_internal ∅ (internal_links_unique c)
                          (set_pages_ok (pages_ok c)
                             (set_storage st (set_db store (init cfg)))))).
  { subst c'. unfold restart, _load_checkpoint_if_exists.
    by rewrite written_pages_ok, written_internal, written_external. }
  clearbody c'. subst c'.
  set (c' := set_external ∅ (external_links_unique c)
               (set_internal ∅ (internal_links_unique c)
                  (set_pages_ok (pages_ok c)
                     (set_storage st (set_db store (init cfg)))))).
  assert (Hp : pages_ok c' = pages_ok c) by reflexivity.
  split; [by split_and!|]. split; [by split_and!|]. split; [by split_and!|].
  split; [|split; [|split; [|split; reflexivity]]].
  - intros netloc url depth link. simpl.
    assert (Hi : unique_internal c' = ∅) by reflexivity.
    assert (He : unique_external c' = ∅) by reflexivity.
    assert (Hic : internal_links_unique c' = internal_links_unique c)
      by reflexivity.
    assert (Hec : external_links_unique c' = external_links_unique c)
      by reflexivity.
    clearbody c'. unfold TaskFacts.internal, process_link.
    destruct (Parser.same_reg_domain _ _ _ _).
    + rewrite Hi, bool_decide_eq_false_2 by apply not_elem_of_empty.
      rewrite (right_id_L ∅ (∪)), size_singleton.
      by destruct (DB.push_url _ _ _ _ _) as [[] ?].
    + rewrite He, bool_decide_eq_false_2 by apply not_elem_of_empty.
      by rewrite (right_id_L ∅ (∪)), size_singleton.
  - intros Hpos normalize_url seeds. clearbody c'.
    unfold ControlFacts.seed. rewrite Hp.
    by destruct (Z.ltb_spec 0 (pages_ok c)); [|lia].
  - intros Hfull. clearbody c'. unfold TaskFacts.runs. rewrite Hp.
    by destruct (Z.leb_spec (max_pages cfg) (pages_ok c)); [|lia].
Qed.

End WithLibraries.
End Checkpoint.
